(** * Verification of [scripts/design/render-homepage-hero.py]

    A shallow embedding of the hero renderer.  Python floats are IEEE-754
    binary64 values, modelled with the executable specification of the
    Standard Library ([SpecFloat], precision 53, [emax] 1024); Python
    exceptions are modelled by an explicit [result] type. *)

From Stdlib Require Import ZArith List Bool Lia String.
From Stdlib Require Import Floats.SpecFloat.
Import ListNotations.
Local Open Scope Z_scope.

(** ** Python results: a value or a raised exception *)

Inductive exn : Type :=
| OverflowError | ValueError | ZeroDivisionError | IndexError | TypeError
| OSError
| OutOfFuel (* not a Python exception: a bounded loop ran out of fuel *).

Inductive result (A : Type) : Type :=
| Ok (a : A)
| Raise (e : exn).
Arguments Ok {A} a.
Arguments Raise {A} e.

Definition bind {A B} (m : result A) (k : A -> result B) : result B :=
  match m with
  | Ok a => k a
  | Raise e => Raise e
  end.

Declare Scope py_scope.
Delimit Scope py_scope with py.
Notation "x <- m ;; k" := (bind m (fun x => k))
  (at level 61, m at next level, right associativity) : py_scope.
Local Open Scope py_scope.

(** [tuple(f(x) for x in xs)]: elements are produced left to right and the
    first exception aborts the construction. *)
Fixpoint mapM {A B} (f : A -> result B) (xs : list A) : result (list B) :=
  match xs with
  | [] => Ok []
  | x :: xs' => y <- f x ;; ys <- mapM f xs' ;; Ok (y :: ys)
  end.

(** Python's [zip]: stops at the shorter argument. *)
Fixpoint zip {A B} (xs : list A) (ys : list B) : list (A * B) :=
  match xs, ys with
  | x :: xs', y :: ys' => (x, y) :: zip xs' ys'
  | _, _ => []
  end.

(** ** Binary64 arithmetic as Python exposes it *)

Module F64.
Definition prec : Z := 53.
Definition emax : Z := 1024.
Definition float : Type := spec_float.

Definition add : float -> float -> float := SFadd prec emax.
Definition sub : float -> float -> float := SFsub prec emax.
Definition mul : float -> float -> float := SFmul prec emax.
Definition abs : float -> float := SFabs.
Definition leb : float -> float -> bool := SFleb.
Definition eqb : float -> float -> bool := SFeqb.
Definition ltb : float -> float -> bool := SFltb.

Definition is_zero (x : float) : bool :=
  match x with S754_zero _ => true | _ => false end.

(** [x / y] on floats raises [ZeroDivisionError] on a zero divisor. *)
Definition div (x y : float) : result float :=
  if is_zero y then Raise ZeroDivisionError else Ok (SFdiv prec emax x y).

(** [float(z)] for a Python [int]: correctly rounded (ties to even),
    [OverflowError] when the rounded value is not finite. *)
Definition of_int (z : Z) : result float :=
  match binary_normalize prec emax z 0 false with
  | S754_infinity _ => Raise OverflowError
  | f => Ok f
  end.

(** [int(x)] for a Python [float]: truncation toward zero; [ValueError] on
    NaN and [OverflowError] on infinities. *)
Definition to_int (x : float) : result Z :=
  match x with
  | S754_zero _ => Ok 0
  | S754_nan => Raise ValueError
  | S754_infinity _ => Raise OverflowError
  | S754_finite s m e =>
      let a := match e with
               | Zneg p => Z.shiftr (Zpos m) (Zpos p)
               | _ => Z.shiftl (Zpos m) e
               end in
      Ok (if s then - a else a)
  end.

(** The decimal literal [n / 10^k] (e.g. [0.62] is [dec 62 100]): the
    double nearest to the quotient, which is what the correctly rounded
    division of the two exactly represented integers returns. *)
Definition dec (n d : Z) : float :=
  SFdiv prec emax (binary_normalize prec emax n 0 false)
                  (binary_normalize prec emax d 0 false).

Definition zero : float := S754_zero false.
Definition one : float := S754_finite false 4503599627370496 (-52).
End F64.

(** ** Python numbers: [int] and [float] with the usual coercion *)

Inductive num : Type :=
| Int (z : Z)
| Flt (f : F64.float).

Definition to_float (n : num) : result F64.float :=
  match n with
  | Int z => F64.of_int z
  | Flt f => Ok f
  end.

Definition float_op (op : F64.float -> F64.float -> F64.float) (a b : num)
  : result num :=
  fa <- to_float a ;; fb <- to_float b ;; Ok (Flt (op fa fb)).

Definition num_add (a b : num) : result num :=
  match a, b with
  | Int x, Int y => Ok (Int (x + y))
  | _, _ => float_op F64.add a b
  end.

Definition num_sub (a b : num) : result num :=
  match a, b with
  | Int x, Int y => Ok (Int (x - y))
  | _, _ => float_op F64.sub a b
  end.

Definition num_mul (a b : num) : result num :=
  match a, b with
  | Int x, Int y => Ok (Int (x * y))
  | _, _ => float_op F64.mul a b
  end.

(** True division [a / b].  On two [int]s CPython converts both operands
    exactly and divides as doubles when they fit in 53 bits, the only case
    the renderer uses. *)
Definition num_div (a b : num) : result num :=
  match b with
  | Int 0 => Raise ZeroDivisionError
  | _ => fa <- to_float a ;; fb <- to_float b ;;
         q <- F64.div fa fb ;; Ok (Flt q)
  end.

Definition num_abs (a : num) : num :=
  match a with
  | Int z => Int (Z.abs z)
  | Flt f => Flt (F64.abs f)
  end.

(** [int(a)] *)
Definition num_int (a : num) : result Z :=
  match a with
  | Int z => Ok z
  | Flt f => F64.to_int f
  end.

(** Operators on sub-expressions: operands are evaluated left to right and
    the first exception propagates. *)
Definition lift2 {A B C} (op : A -> B -> result C) (x : result A) (y : result B)
  : result C :=
  a <- x ;; b <- y ;; op a b.

Definition lift1 {A B} (op : A -> B) (x : result A) : result B :=
  a <- x ;; Ok (op a).

Declare Scope num_scope.
Delimit Scope num_scope with num.
Notation "x + y" := (lift2 num_add x y) : num_scope.
Notation "x - y" := (lift2 num_sub x y) : num_scope.
Notation "x * y" := (lift2 num_mul x y) : num_scope.
Notation "x / y" := (lift2 num_div x y) : num_scope.

(** [int(x)] and [abs(x)] on a sub-expression. *)
Definition int_of (x : result num) : result Z := bind x num_int.
Definition abs_of (x : result num) : result num := lift1 num_abs x.

(** An [int] literal or variable, a decimal [float] literal, a [float]
    variable and a variable holding a number. *)
Definition int_ (z : Z) : result num := Ok (Int z).
Definition lit (n d : Z) : result num := Ok (Flt (F64.dec n d)).
Definition fl (f : F64.float) : result num := Ok (Flt f).
Definition var (n : num) : result num := Ok n.

(** ** The module's constants *)

Definition WIDTH : Z := 1440.
Definition HEIGHT : Z := 960.

Definition color : Type := list Z.

Inductive palette_key : Type :=
| navy_top | navy_bottom | overlay_start | overlay_end | panel
| cyan | magenta | amber | indigo.

Definition PALETTE (k : palette_key) : color :=
  match k with
  | navy_top => [9; 23; 48]
  | navy_bottom => [36; 12; 64]
  | overlay_start => [15; 44; 84]
  | overlay_end => [55; 16; 95]
  | panel => [22; 33; 66; 220]
  | cyan => [94; 234; 212]
  | magenta => [244; 114; 182]
  | amber => [252; 211; 77]
  | indigo => [129; 140; 248]
  end.

(** ** [lerp_color] *)

(** One channel: [int(a + (b - a) * t)]. *)
Definition lerp_channel (t : num) (ab : Z * Z) : result Z :=
  let '(a, b) := ab in
  int_of (int_ a + (int_ b - int_ a) * var t)%num.

Definition lerp_color (color_a color_b : color) (t : num) : result color :=
  mapM (lerp_channel t) (zip color_a color_b).

(** ** Pillow images

    An image has a mode, a size and 8-bit samples; the pixel store is a
    function from coordinates to the list of the pixel's bands. *)

Inductive mode : Type := L | RGB | RGBA.

Definition bands (m : mode) : nat :=
  match m with L => 1%nat | RGB => 3%nat | RGBA => 4%nat end.

Definition mode_eqb (a b : mode) : bool :=
  match a, b with
  | L, L | RGB, RGB | RGBA, RGBA => true
  | _, _ => false
  end.

Definition pixel : Type := list Z.

Record Image : Type := mkImage {
  im_mode : mode;
  im_width : Z;
  im_height : Z;
  im_data : Z -> Z -> pixel
}.

Definition same_size (a b : Image) : bool :=
  (im_width a =? im_width b) && (im_height a =? im_height b).

(** Pillow's [CLIP8]. *)
Definition clip8 (v : Z) : Z := if v <? 0 then 0 else if 255 <? v then 255 else v.

(** The ink Pillow derives from a colour argument for an 8-bit image: one
    sample for ["L"]; three or four for ["RGB"] and ["RGBA"], alpha
    defaulting to 255; every sample clipped to a byte. *)
Definition ink (m : mode) (c : color) : result pixel :=
  match m, c with
  | L, [v] => Ok [clip8 v]
  | RGB, [r; g; b] | RGB, [r; g; b; _] => Ok [clip8 r; clip8 g; clip8 b]
  | RGBA, [r; g; b] => Ok [clip8 r; clip8 g; clip8 b; 255]
  | RGBA, [r; g; b; a] => Ok [clip8 r; clip8 g; clip8 b; clip8 a]
  | _, _ => Raise TypeError
  end.

(** [Image.new(mode, size, color)] *)
Definition Image_new (m : mode) (w h : Z) (c : color) : result Image :=
  p <- ink m c ;; Ok (mkImage m w h (fun _ _ => p)).

(** [Image.new(mode, size)]: the default colour is black. *)
Definition Image_new_black (m : mode) (w h : Z) : Image :=
  mkImage m w h (fun _ _ => repeat 0 (bands m)).

Definition in_bounds (im : Image) (x y : Z) : bool :=
  (0 <=? x) && (x <? im_width im) && (0 <=? y) && (y <? im_height im).

(** [pixels[x, y] = color] through the access object of [im.load()]. *)
Definition putpixel (im : Image) (x y : Z) (c : color) : result Image :=
  if in_bounds im x y then
    p <- ink (im_mode im) c ;;
    Ok (mkImage (im_mode im) (im_width im) (im_height im)
          (fun x' y' => if (x' =? x) && (y' =? y) then p else im_data im x' y'))
  else Raise IndexError.

(** [im.convert(mode)] between the 8-bit modes (luma per ITU-R 601-2). *)
Definition luma (r g b : Z) : Z :=
  Z.shiftr (r * 19595 + g * 38470 + b * 7471 + 32768) 16.

Definition convert_pixel (src dst : mode) (p : pixel) : pixel :=
  match src, dst, p with
  | L, RGB, [v] => [v; v; v]
  | L, RGBA, [v] => [v; v; v; 255]
  | RGB, L, [r; g; b] => [luma r g b]
  | RGB, RGBA, [r; g; b] => [r; g; b; 255]
  | RGBA, L, [r; g; b; _] => [luma r g b]
  | RGBA, RGB, [r; g; b; _] => [r; g; b]
  | _, _, _ => p
  end.

Definition convert (dst : mode) (im : Image) : Image :=
  mkImage dst (im_width im) (im_height im)
    (fun x y => convert_pixel (im_mode im) dst (im_data im x y)).

(** [layer.putalpha(mask)] with an ["L"] mask of the same size: the alpha
    band of the ["RGBA"] layer is replaced by the mask. *)
Definition putalpha (layer mask : Image) : result Image :=
  match im_mode layer, im_mode mask with
  | RGBA, L =>
      if same_size layer mask then
        Ok (mkImage RGBA (im_width layer) (im_height layer)
              (fun x y => firstn 3 (im_data layer x y) ++ firstn 1 (im_data mask x y)))
      else Raise ValueError
  | _, _ => Raise ValueError
  end.

(** The per-pixel kernel of [Image.alpha_composite] (Pillow's
    [AlphaComposite.c]): integer arithmetic with seven extra bits of
    precision and rounded divisions by 255. *)
Definition shift_for_div255 (a : Z) : Z := Z.shiftr (Z.shiftr a 8 + a) 8.

Definition composite_pixel (dst src : pixel) : pixel :=
  match dst, src with
  | [dr; dg; db; da], [sr; sg; sb; sa] =>
      if sa =? 0 then dst
      else
        let blend := da * (255 - sa) in
        let outa255 := sa * 255 + blend in
        let coef1 := sa * 255 * 255 * 128 / outa255 in
        let coef2 := 255 * 128 - coef1 in
        let chan (s d : Z) :=
          Z.shiftr (shift_for_div255 (s * coef1 + d * coef2 + Z.shiftl 128 7)) 7 in
        [chan sr dr; chan sg dg; chan sb db; shift_for_div255 (outa255 + 128)]
  | _, _ => dst
  end.

(** [Image.alpha_composite(im1, im2)]: both images must be ["RGBA"] and of
    the same size. *)
Definition alpha_composite (im1 im2 : Image) : result Image :=
  match im_mode im1, im_mode im2 with
  | RGBA, RGBA =>
      if same_size im1 im2 then
        Ok (mkImage RGBA (im_width im1) (im_height im1)
              (fun x y => composite_pixel (im_data im1 x y) (im_data im2 x y)))
      else Raise ValueError
  | _, _ => Raise ValueError
  end.

(** ** Loops and ranges *)

(** [for x in xs: body] threading the mutated object. *)
Fixpoint for_each {A S} (xs : list A) (body : A -> S -> result S) (s : S)
  : result S :=
  match xs with
  | [] => Ok s
  | x :: xs' => s' <- body x s ;; for_each xs' body s'
  end.

Definition range_len (start stop step : Z) : Z :=
  if 0 <? step then Z.max 0 ((stop - start + step - 1) / step)
  else if step <? 0 then Z.max 0 ((start - stop - step - 1) / (- step))
  else 0.

(** [range(start, stop, step)] *)
Definition range3 (start stop step : Z) : list Z :=
  map (fun k => start + Z.of_nat k * step)
      (seq 0 (Z.to_nat (range_len start stop step))).

(** [range(n)] *)
Definition range (n : Z) : list Z := range3 0 n 1.

(** ** CPython's [random] module: the Mersenne Twister MT19937 *)

Module MT.
Definition N : Z := 624.
Definition M : Z := 397.
Definition MATRIX_A : Z := 0x9908b0df.
Definition UPPER_MASK : Z := 0x80000000.
Definition LOWER_MASK : Z := 0x7fffffff.

(** Arithmetic on [uint32_t] wraps around. *)
Definition u32 (z : Z) : Z := Z.land z 0xffffffff.

Record state : Type := mkState { mt : list Z; index : Z }.

Definition get (a : list Z) (k : Z) : Z := nth (Z.to_nat k) a 0.

Fixpoint set_nth (a : list Z) (k : nat) (v : Z) : list Z :=
  match a, k with
  | [], _ => []
  | _ :: a', O => v :: a'
  | x :: a', S k' => x :: set_nth a' k' v
  end.

Definition set (a : list Z) (k : Z) (v : Z) : list Z := set_nth a (Z.to_nat k) v.

Definition upto (lo hi : Z) : list Z :=
  map (fun k => lo + Z.of_nat k) (seq 0 (Z.to_nat (hi - lo))).

(** [init_genrand(s)] *)
Definition init_genrand (s : Z) : state :=
  let a := set (repeat 0 (Z.to_nat N)) 0 s in
  let a := fold_left
             (fun a mti =>
                let p := get a (mti - 1) in
                set a mti (u32 (1812433253 * Z.lxor p (Z.shiftr p 30) + mti)))
             (upto 1 N) a in
  mkState a N.

(** One round of the two loops of [init_by_array]: the running indices
    [i] and [j] wrap as in the C source. *)
Definition wrap_i (a : list Z) (i : Z) : list Z * Z :=
  if N <=? i then (set a 0 (get a (N - 1)), 1) else (a, i).

Definition mix_key (key : list Z) (st : list Z * Z * Z) : list Z * Z * Z :=
  let '(a, i, j) := st in
  let p := get a (i - 1) in
  let a := set a i (u32 (Z.lxor (get a i) (Z.lxor p (Z.shiftr p 30) * 1664525)
                         + get key j + j)) in
  let '(a, i) := wrap_i a (i + 1) in
  let j := j + 1 in
  (a, i, if Z.of_nat (List.length key) <=? j then 0 else j).

Definition mix_index (st : list Z * Z) : list Z * Z :=
  let '(a, i) := st in
  let p := get a (i - 1) in
  let a := set a i (u32 (Z.lxor (get a i) (Z.lxor p (Z.shiftr p 30) * 1566083941)
                         - i)) in
  wrap_i a (i + 1).

Definition init_by_array (key : list Z) : state :=
  let a := mt (init_genrand 19650218) in
  let k := Z.max N (Z.of_nat (List.length key)) in
  let '(a, i, _) := Nat.iter (Z.to_nat k) (mix_key key) (a, 1, 0) in
  let '(a, _) := Nat.iter (Z.to_nat (N - 1)) mix_index (a, i) in
  mkState (set a 0 0x80000000) N.

(** The key of an [int] seed: the 32-bit words of its absolute value,
    least significant first, at least one word. *)
Fixpoint key_words (fuel : nat) (n : Z) : list Z :=
  match fuel with
  | O => []
  | S fuel' =>
      u32 n :: (if Z.shiftr n 32 =? 0 then [] else key_words fuel' (Z.shiftr n 32))
  end.

Definition seed (a : Z) : state :=
  let n := Z.abs a in
  init_by_array (key_words (S (Z.to_nat (Z.log2 n))) n).

(** The regeneration of the 624 words in [genrand_uint32]. *)
Definition twist_step (off1 offm : Z) (a : list Z) (kk : Z) : list Z :=
  let y := Z.lor (Z.land (get a kk) UPPER_MASK) (Z.land (get a (kk + off1)) LOWER_MASK) in
  set a kk (Z.lxor (Z.lxor (get a (kk + offm)) (Z.shiftr y 1))
              (if Z.odd y then MATRIX_A else 0)).

Definition twist (a : list Z) : list Z :=
  let a := fold_left (twist_step 1 M) (upto 0 (N - M)) a in
  let a := fold_left (twist_step 1 (M - N)) (upto (N - M) (N - 1)) a in
  twist_step (1 - N) (M - N) a (N - 1).

Definition temper (y : Z) : Z :=
  let y := Z.lxor y (Z.shiftr y 11) in
  let y := Z.lxor y (Z.land (Z.shiftl y 7) 0x9d2c5680) in
  let y := Z.lxor y (Z.land (Z.shiftl y 15) 0xefc60000) in
  Z.lxor y (Z.shiftr y 18).

Definition genrand_uint32 (s : state) : Z * state :=
  let s := if N <=? index s then mkState (twist (mt s)) 0 else s in
  (temper (get (mt s) (index s)), mkState (mt s) (index s + 1)).

(** [getrandbits(k)] for [0 <= k]: words are drawn least significant
    first; the last one keeps its top bits. *)
Fixpoint getrandbits_words (words : nat) (k : Z) (s : state) : Z * state :=
  match words with
  | O => (0, s)
  | S words' =>
      let '(r, s) := genrand_uint32 s in
      let r := if k <? 32 then Z.shiftr r (32 - k) else r in
      let '(hi, s) := getrandbits_words words' (k - 32) s in
      (r + Z.shiftl hi 32, s)
  end.

Definition getrandbits (k : Z) (s : state) : Z * state :=
  if k <=? 0 then (0, s)
  else if k <=? 32 then
    let '(r, s) := genrand_uint32 s in (Z.shiftr r (32 - k), s)
  else getrandbits_words (Z.to_nat ((k - 1) / 32 + 1)) k s.

Definition bit_length (n : Z) : Z := if n =? 0 then 0 else Z.log2 (Z.abs n) + 1.

(** [_randbelow(n)]: draw [n.bit_length()] bits until the value is below
    [n].  The loop is bounded by [fuel]; [None] when it is exhausted. *)
Fixpoint randbelow_loop (fuel : nat) (n k : Z) (s : state) : option (Z * state) :=
  match fuel with
  | O => None
  | S fuel' =>
      let '(r, s) := getrandbits k s in
      if n <=? r then randbelow_loop fuel' n k s else Some (r, s)
  end.

Definition randbelow (fuel : nat) (n : Z) (s : state) : option (Z * state) :=
  if n =? 0 then Some (0, s) else randbelow_loop fuel n (bit_length n) s.
End MT.

(** ** Paths ([pathlib]) *)

Record Path : Type := mkPath { absolute : bool; parts : list string }.

Definition path_eqb (a b : Path) : bool :=
  Bool.eqb (absolute a) (absolute b)
  && (if list_eq_dec string_dec (parts a) (parts b) then true else false).

(** [p.parent] *)
Definition parent (p : Path) : Path := mkPath (absolute p) (removelast (parts p)).

Fixpoint strip_prefix (pre l : list string) : option (list string) :=
  match pre, l with
  | [], _ => Some l
  | a :: pre', b :: l' => if string_dec a b then strip_prefix pre' l' else None
  | _ :: _, [] => None
  end.

(** [p.relative_to(other)]: [ValueError] unless [other] is an ancestor of
    [p] of the same kind. *)
Definition relative_to (p other : Path) : result Path :=
  if Bool.eqb (absolute p) (absolute other) then
    match strip_prefix (parts other) (parts p) with
    | Some rest => Ok (mkPath false rest)
    | None => Raise ValueError
    end
  else Raise ValueError.

(** [str(p)] *)
Definition path_str (p : Path) : string :=
  match absolute p, parts p with
  | true, ps => ("/" ++ String.concat "/" ps)%string
  | false, [] => "."%string
  | false, ps => String.concat "/"%string ps
  end.

(** ** The process and its environment *)

(** A call into the [random] module, with what it returned. *)
Inductive rng_event : Type :=
| EvSeed (a : Z)
| EvRandint (a b value : Z)
| EvChoice (len value : Z).

Record World : Type := mkWorld {
  rng : MT.state;               (* the module-level generator *)
  rng_journal : list rng_event; (* the calls made into it, oldest first *)
  cwd : Path;                   (* Path.cwd(), an absolute path *)
  cli_output : option Path;     (* the value of --output, if given *)
  can_mkdir : Path -> bool;     (* whether the directory can be created *)
  can_save : Path -> bool;      (* whether the file can be encoded and written *)
  files : list (Path * Image);  (* images written, newest first *)
  stdout : list string          (* lines printed, oldest first *)
}.

Definition IO (A : Type) : Type := World -> result A * World.

Definition ret {A} (a : A) : IO A := fun w => (Ok a, w).

Definition io_bind {A B} (m : IO A) (k : A -> IO B) : IO B :=
  fun w => match m w with
           | (Ok a, w') => k a w'
           | (Raise e, w') => (Raise e, w')
           end.

(** A computation without effects, run inside the process. *)
Definition pure {A} (r : result A) : IO A := fun w => (r, w).

Declare Scope io_scope.
Delimit Scope io_scope with io.
Notation "x <- m ;; k" := (io_bind m (fun x => k))
  (at level 61, m at next level, right associativity) : io_scope.
Notation "m ;; k" := (io_bind m (fun _ => k))
  (at level 61, right associativity) : io_scope.

(** The rejection loop of [_randbelow] is run with this bound. *)
Definition randbelow_fuel : nat := 64.

Definition set_rng (s : MT.state) (ev : rng_event) (w : World) : World :=
  mkWorld s (rng_journal w ++ [ev]) (cwd w) (cli_output w) (can_mkdir w)
          (can_save w) (files w) (stdout w).

(** [random.seed(a)] for an [int]: the generator's state is replaced. *)
Definition random_seed (a : Z) : IO unit :=
  fun w => (Ok tt, set_rng (MT.seed a) (EvSeed a) w).

(** [random.randint(a, b)] is [randrange(a, b + 1)]: [a + _randbelow(b + 1 - a)],
    [ValueError] on an empty range. *)
Definition random_randint (a b : Z) : IO Z :=
  fun w =>
    let width := b + 1 - a in
    if 0 <? width then
      match MT.randbelow randbelow_fuel width (rng w) with
      | Some (r, s) => (Ok (a + r), set_rng s (EvRandint a b (a + r)) w)
      | None => (Raise OutOfFuel, w)
      end
    else (Raise ValueError, w).

(** [random.choice(seq)]: [seq[_randbelow(len(seq))]], [IndexError] on an
    empty sequence. *)
Definition random_choice {A} (xs : list A) : IO A :=
  fun w =>
    match xs with
    | [] => (Raise IndexError, w)
    | d :: _ =>
        let n := Z.of_nat (List.length xs) in
        match MT.randbelow randbelow_fuel n (rng w) with
        | Some (r, s) => (Ok (nth (Z.to_nat r) xs d), set_rng s (EvChoice n r) w)
        | None => (Raise OutOfFuel, w)
        end
    end.

(** [for x in xs: body] in the process. *)
Fixpoint io_for_each {A S} (xs : list A) (body : A -> S -> IO S) (s : S) : IO S :=
  match xs with
  | [] => ret s
  | x :: xs' => (s' <- body x s ;; io_for_each xs' body s')%io
  end.

(** [path.mkdir(parents=True, exist_ok=True)] *)
Definition mkdir_parents (p : Path) : IO unit :=
  fun w => if can_mkdir w p then (Ok tt, w) else (Raise OSError, w).

(** [image.save(path, optimize=True)] *)
Definition save (im : Image) (p : Path) : IO unit :=
  fun w =>
    if can_save w p then
      (Ok tt, mkWorld (rng w) (rng_journal w) (cwd w) (cli_output w) (can_mkdir w)
                (can_save w) ((p, im) :: files w) (stdout w))
    else (Raise OSError, w).

(** [print(line)] *)
Definition print (line : string) : IO unit :=
  fun w => (Ok tt, mkWorld (rng w) (rng_journal w) (cwd w) (cli_output w)
                     (can_mkdir w) (can_save w) (files w) (stdout w ++ [line])).

(** The image last written at [p]. *)
Fixpoint lookup (p : Path) (fs : list (Path * Image)) : option Image :=
  match fs with
  | [] => None
  | (q, im) :: fs' => if path_eqb p q then Some im else lookup p fs'
  end.

(** ** What the renderer takes from outside

    The C library's [sin], [cos] and [pow], Pillow's rasteriser (which
    pixels a shape's interior and its outline cover on a canvas of a given
    size) and Pillow's Gaussian blur of one band. *)

Inductive shape : Type :=
| Ellipse (xy : list num)
| Rectangle (xy : list num)
| RoundedRectangle (xy : list num) (radius : Z)
| Line (xy : list (num * num)) (width : Z) (curve : bool).

Record Platform : Type := mkPlatform {
  libm_sin : F64.float -> F64.float;
  libm_cos : F64.float -> F64.float;
  libm_pow : F64.float -> F64.float -> F64.float;
  raster_fill : Z -> Z -> shape -> Z -> Z -> bool;
  raster_outline : Z -> Z -> shape -> Z -> Z -> Z -> bool;
  blur_band : num -> Z -> Z -> (Z -> Z -> Z) -> Z -> Z -> Z
}.

Definition is_inf (x : F64.float) : bool :=
  match x with S754_infinity _ => true | _ => false end.

Definition is_neg (x : F64.float) : bool :=
  match x with S754_finite true _ _ => true | _ => false end.

Definition two : F64.float := S754_finite false 4503599627370496 (-51).

Section Renderer.
Variable P : Platform.

(** [math.sin(x)] and [math.cos(x)]: the argument is converted to a
    double; an infinite argument is a domain error. *)
Definition math_fun (f : F64.float -> F64.float) (x : result num) : result num :=
  a <- x ;; v <- to_float a ;;
  if is_inf v then Raise ValueError else Ok (Flt (f v)).

Definition math_sin : result num -> result num := math_fun (libm_sin P).
Definition math_cos : result num -> result num := math_fun (libm_cos P).

(** [x ** 2].  On a [float], CPython settles NaN, infinities, zero and one
    itself, takes the absolute value of a negative base (the exponent is
    even) and calls the C library's [pow]; a result out of range is an
    [OverflowError]. *)
Definition float_sq (v : F64.float) : result F64.float :=
  match v with
  | S754_nan => Ok S754_nan
  | S754_infinity _ => Ok (S754_infinity false)
  | S754_zero _ => Ok F64.zero
  | S754_finite s m e =>
      let a := S754_finite false m e in
      if F64.eqb a F64.one then Ok F64.one
      else
        let r := libm_pow P a two in
        if is_inf r then Raise OverflowError else Ok r
  end.

Definition sq (x : result num) : result num :=
  a <- x ;;
  match a with
  | Int z => Ok (Int (z * z))
  | Flt v => r <- float_sq v ;; Ok (Flt r)
  end.

(** *** ImageDraw

    A draw call paints the shape's interior with the fill ink and then its
    outline with the outline ink; painted pixels are replaced, not
    blended. *)
Definition opt_ink (m : mode) (c : option color) : result (option pixel) :=
  match c with
  | None => Ok None
  | Some c => p <- ink m c ;; Ok (Some p)
  end.

Definition draw_shape (im : Image) (s : shape) (fill outline : option color)
           (width : Z) : result Image :=
  f <- opt_ink (im_mode im) fill ;;
  o <- opt_ink (im_mode im) outline ;;
  let w := im_width im in
  let h := im_height im in
  Ok (mkImage (im_mode im) w h
        (fun x y =>
           match o with
           | Some po =>
               if negb (width =? 0) && raster_outline P w h s width x y then po
               else match f with
                    | Some pf => if raster_fill P w h s x y then pf
                                 else im_data im x y
                    | None => im_data im x y
                    end
           | None =>
               match f with
               | Some pf => if raster_fill P w h s x y then pf
                            else im_data im x y
               | None => im_data im x y
               end
           end)).

(** [draw.ellipse(xy, fill=...)] *)
Definition draw_ellipse (im : Image) (xy : list num) (fill : color)
  : result Image :=
  draw_shape im (Ellipse xy) (Some fill) None 1.

(** [draw.rectangle(xy, fill=...)] *)
Definition draw_rectangle (im : Image) (xy : list num) (fill : color)
  : result Image :=
  draw_shape im (Rectangle xy) (Some fill) None 1.

(** [draw.rounded_rectangle(xy, radius=..., fill=..., outline=..., width=...)] *)
Definition draw_rounded_rectangle (im : Image) (xy : list num) (radius : Z)
           (fill : color) (outline : option color) (width : Z) : result Image :=
  draw_shape im (RoundedRectangle xy radius) (Some fill) outline width.

(** [draw.line(xy, fill=..., width=..., joint=...)]: a line is painted with
    the ink of its [fill] argument. *)
Definition draw_line (im : Image) (xy : list (num * num)) (fill : color)
           (width : Z) (curve : bool) : result Image :=
  draw_shape im (Line xy width curve) (Some fill) None 1.

(** [im.filter(ImageFilter.GaussianBlur(radius))]: every band is blurred
    on its own and stored as bytes; mode and size are kept. *)
Definition band (im : Image) (b : nat) (x y : Z) : Z := nth b (im_data im x y) 0.

Definition gaussian_blur (radius : num) (im : Image) : Image :=
  mkImage (im_mode im) (im_width im) (im_height im)
    (fun x y =>
       map (fun b => clip8 (blur_band P radius (im_width im) (im_height im)
                              (band im b) x y))
           (seq 0 (bands (im_mode im)))).

(** A tuple or list display: elements are evaluated left to right. *)
Definition tuple_of {A} (es : list (result A)) : result (list A) :=
  mapM (fun e => e) es.

(** [enumerate(xs)] *)
Definition enumerate {A} (xs : list A) : list (Z * A) :=
  zip (map Z.of_nat (seq 0 (List.length xs))) xs.

(** [xs[k]] *)
Definition index {A} (xs : list A) (k : Z) : result A :=
  if k <? 0 then Raise IndexError
  else match nth_error xs (Z.to_nat k) with
       | Some a => Ok a
       | None => Raise IndexError
       end.

(** *** [paint_background] *)

Definition background_row (y : Z) (base : Image) : result Image :=
  t <- (int_ y / int_ (HEIGHT - 1))%num ;;
  color <- lerp_color (PALETTE navy_top) (PALETTE navy_bottom) t ;;
  for_each (range WIDTH) (fun x base => putpixel base x y color) base.

Definition overlay_column (x : Z) (overlay : Image) : result Image :=
  t <- (int_ x / int_ (WIDTH - 1))%num ;;
  color <- lerp_color (PALETTE overlay_start) (PALETTE overlay_end) t ;;
  alpha <- int_of (int_ 90 * (int_ 1 - abs_of (lit 5 10 - var t) * int_ 2))%num ;;
  for_each (range HEIGHT)
    (fun y overlay => putpixel overlay x y (color ++ [alpha])) overlay.

Definition paint_background : result Image :=
  let base := Image_new_black RGB WIDTH HEIGHT in
  base <- for_each (range HEIGHT) background_row base ;;
  overlay <- Image_new RGBA WIDTH HEIGHT [0; 0; 0; 0] ;;
  overlay <- for_each (range WIDTH) overlay_column overlay ;;
  alpha_composite (convert RGBA base) overlay.

(** *** [add_highlights] *)

Definition highlight_ring (cx cy max_radius radius : Z) (highlight : Image)
  : result Image :=
  alpha <- int_of (int_ 255 * sq (int_ 1 - int_ radius / int_ max_radius))%num ;;
  let bbox := [Int (cx - radius); Int (cy - radius);
               Int (cx + radius); Int (cy + radius)] in
  draw_ellipse highlight bbox [alpha].

Definition add_highlights (canvas : Image) : result Image :=
  highlight <- Image_new L WIDTH HEIGHT [0] ;;
  cx <- int_of (int_ WIDTH * lit 62 100)%num ;;
  cy <- int_of (int_ HEIGHT * lit 38 100)%num ;;
  max_radius <- int_of (int_ WIDTH * lit 75 100)%num ;;
  highlight <- for_each (range3 max_radius 0 (-12))
                 (highlight_ring cx cy max_radius) highlight ;;
  let soft := gaussian_blur (Int 180) highlight in
  layer <- Image_new RGBA WIDTH HEIGHT [110; 170; 255; 0] ;;
  layer <- putalpha layer soft ;;
  alpha_composite canvas layer.

(** *** [add_grid] *)

Definition add_grid (canvas : Image) : result Image :=
  grid <- Image_new RGBA WIDTH HEIGHT [0; 0; 0; 0] ;;
  let line_color := [255; 255; 255; 28] in
  grid <- for_each (range3 0 WIDTH 120)
            (fun x grid =>
               draw_line grid [(Int x, Int 0); (Int x, Int HEIGHT)] line_color 1 false)
            grid ;;
  grid <- for_each (range3 0 HEIGHT 120)
            (fun y grid =>
               draw_line grid [(Int 0, Int y); (Int WIDTH, Int y)] line_color 1 false)
            grid ;;
  let grid := gaussian_blur (Flt (F64.dec 12 10)) grid in
  alpha_composite canvas grid.

(** *** [add_panels] *)

Definition light_radius : Z := 14.
Definition bar_width : Z := 42.
Definition accents : list color :=
  [PALETTE cyan; PALETTE magenta; PALETTE amber; PALETTE indigo].

Definition traffic_light (main_panel0 main_panel1 : num) (ic : Z * color)
           (layer : Image) : result Image :=
  let '(idx, color) := ic in
  cx <- (var main_panel0 + int_ 48 + int_ idx * int_ 46)%num ;;
  cy <- (var main_panel1 + int_ 46)%num ;;
  xy <- tuple_of [(var cx - int_ light_radius)%num; (var cy - int_ light_radius)%num;
                  (var cx + int_ light_radius)%num; (var cy + int_ light_radius)%num] ;;
  draw_ellipse layer xy (color ++ [220]).

Definition nav_block (nav_x nav_top : num) (i : Z) (layer : Image)
  : result Image :=
  let block_height := 48 in
  y0 <- (var nav_top + int_ i * (int_ block_height + int_ 18))%num ;;
  y1 <- (var y0 + int_ block_height)%num ;;
  alpha <- int_of (int_ 160 - int_ i * int_ 14)%num ;;
  let color := PALETTE indigo ++ [alpha] in
  xy <- tuple_of [var nav_x; var y0; (var nav_x + int_ 220)%num; var y1] ;;
  draw_rounded_rectangle layer xy 14 color None 1.

Definition chart_bar (chart_left baseline : num) (row col : Z) (layer : Image)
  : result Image :=
  value <- (math_sin ((int_ row + int_ col / int_ 2) * lit 7 10)
            * lit 3 10 + lit 6 10)%num ;;
  height_value <- (var value * int_ 120)%num ;;
  x0 <- (var chart_left + int_ col * (int_ bar_width + int_ 22))%num ;;
  x1 <- (var x0 + int_ bar_width)%num ;;
  y0 <- (var baseline - var height_value)%num ;;
  let y1 := baseline in
  color <- index accents ((row + col) mod Z.of_nat (List.length accents)) ;;
  draw_rounded_rectangle layer [x0; y0; x1; y1] 12 (color ++ [220]) None 1.

Definition chart_row (chart_left chart_top : num) (row : Z) (layer : Image)
  : result Image :=
  baseline <- (var chart_top + int_ row * int_ 160)%num ;;
  for_each (range 7) (chart_bar chart_left baseline row) layer.

Definition sparkline_point (chart_left chart_right chart_bottom : num) (idx : Z)
           (sparkline_points : list (num * num)) : result (list (num * num)) :=
  x <- (var chart_left + int_ idx * ((var chart_right - var chart_left) / int_ 9))%num ;;
  y <- (var chart_bottom - int_ 120 - math_cos (int_ idx * lit 6 10) * int_ 70)%num ;;
  Ok (sparkline_points ++ [(x, y)]).

Definition sparkline_dot (pt : num * num) (layer : Image) : result Image :=
  let '(x, y) := pt in
  xy <- tuple_of [(var x - int_ 9)%num; (var y - int_ 9)%num;
                  (var x + int_ 9)%num; (var y + int_ 9)%num] ;;
  draw_ellipse layer xy [15; 255; 204; 230].

Definition float_card (card : list (result num) * color) (layer : Image)
  : result Image :=
  let '(corners, color) := card in
  xy <- tuple_of corners ;;
  match xy with
  | [x0; y0; x1; y1] =>
      layer <- draw_rounded_rectangle layer [x0; y0; x1; y1] 36
                 [18; 28; 58; 200] (Some (color ++ [180])) 4 ;;
      cx <- (var x0 + int_ 64)%num ;;
      cy <- ((var y0 + var y1) / int_ 2)%num ;;
      outer <- tuple_of [(var cx - int_ 28)%num; (var cy - int_ 28)%num;
                         (var cx + int_ 28)%num; (var cy + int_ 28)%num] ;;
      layer <- draw_ellipse layer outer (color ++ [210]) ;;
      inner <- tuple_of [(var cx - int_ 16)%num; (var cy - int_ 16)%num;
                         (var cx + int_ 16)%num; (var cy + int_ 16)%num] ;;
      layer <- draw_ellipse layer inner [15; 18; 40; 255] ;;
      ax <- (var cx + int_ 48)%num ;; ay <- (var cy - int_ 18)%num ;;
      bx <- (var x1 - int_ 36)%num ;; by_ <- (var cy - int_ 18)%num ;;
      layer <- draw_line layer [(ax, ay); (bx, by_)] (color ++ [160]) 10 false ;;
      ax <- (var cx + int_ 48)%num ;; ay <- (var cy + int_ 18)%num ;;
      bx <- (var x1 - int_ 48)%num ;; by_ <- (var cy + int_ 18)%num ;;
      draw_line layer [(ax, ay); (bx, by_)] [220; 225; 255; 140] 8 false
  | _ => Raise ValueError
  end.

Definition float_cards : list (list (result num) * color) :=
  [ ([(int_ WIDTH * lit 74 100)%num; (int_ HEIGHT * lit 24 100)%num;
      (int_ WIDTH * lit 92 100)%num; (int_ HEIGHT * lit 42 100)%num],
     PALETTE cyan);
    ([(int_ WIDTH * lit 74 100)%num; (int_ HEIGHT * lit 46 100)%num;
      (int_ WIDTH * lit 94 100)%num; (int_ HEIGHT * lit 62 100)%num],
     PALETTE magenta);
    ([(int_ WIDTH * lit 70 100)%num; (int_ HEIGHT * lit 66 100)%num;
      (int_ WIDTH * lit 92 100)%num; (int_ HEIGHT * lit 82 100)%num],
     PALETTE amber) ].

Definition main_panel : result (list num) :=
  tuple_of [(int_ WIDTH * lit 2 10)%num; (int_ HEIGHT * lit 18 100)%num;
            (int_ WIDTH * lit 68 100)%num; (int_ HEIGHT * lit 74 100)%num].

Definition add_panels (canvas : Image) : result Image :=
  layer <- Image_new RGBA WIDTH HEIGHT [0; 0; 0; 0] ;;
  main_panel <- main_panel ;;
  mp0 <- index main_panel 0 ;; mp1 <- index main_panel 1 ;;
  mp2 <- index main_panel 2 ;; mp3 <- index main_panel 3 ;;
  layer <- draw_rounded_rectangle layer main_panel 48 (PALETTE panel)
             (Some [146; 161; 255; 140]) 4 ;;
  layer <- for_each (enumerate [PALETTE cyan; PALETTE magenta; PALETTE amber])
             (traffic_light mp0 mp1) layer ;;
  nav_x <- (var mp0 + int_ 48)%num ;;
  nav_top <- (var mp1 + int_ 96)%num ;;
  layer <- for_each (range 6) (nav_block nav_x nav_top) layer ;;
  chart_left <- (var nav_x + int_ 260)%num ;;
  chart_top <- (var mp1 + int_ 110)%num ;;
  chart_right <- (var mp2 - int_ 64)%num ;;
  chart_bottom <- (var mp3 - int_ 90)%num ;;
  layer <- for_each (range 3) (chart_row chart_left chart_top) layer ;;
  sparkline_points <- for_each (range 10)
                        (sparkline_point chart_left chart_right chart_bottom) [] ;;
  layer <- draw_line layer sparkline_points (PALETTE cyan ++ [200]) 6 true ;;
  layer <- for_each sparkline_points sparkline_dot layer ;;
  layer <- for_each float_cards float_card layer ;;
  alpha_composite canvas layer.

(** *** [add_vignette] *)

Definition add_vignette (canvas : Image) : result Image :=
  vignette <- Image_new L WIDTH HEIGHT [0] ;;
  vignette <- draw_rectangle vignette [Int 0; Int 0; Int WIDTH; Int HEIGHT] [255] ;;
  let vignette := gaussian_blur (Int 180) vignette in
  layer <- Image_new RGBA WIDTH HEIGHT [5; 10; 30; 0] ;;
  layer <- putalpha layer vignette ;;
  focus <- Image_new L WIDTH HEIGHT [0] ;;
  xy <- tuple_of [(int_ WIDTH * lit 2 10 - int_ 160)%num;
                  (int_ HEIGHT * lit 18 100 - int_ 120)%num;
                  (int_ WIDTH * lit 68 100 + int_ 160)%num;
                  (int_ HEIGHT * lit 74 100 + int_ 180)%num] ;;
  focus <- draw_ellipse focus xy [220] ;;
  let focus := gaussian_blur (Int 120) focus in
  focus_layer <- Image_new RGBA WIDTH HEIGHT [255; 255; 255; 0] ;;
  focus_layer <- putalpha focus_layer focus ;;
  result <- alpha_composite canvas layer ;;
  alpha_composite result focus_layer.

(** *** [add_particles] *)

Definition particle_options : list color :=
  [PALETTE cyan ++ [0]; PALETTE magenta ++ [0]; [180; 200; 255; 0]].

Definition particle (_ : Z) (particle_layer : Image) : IO Image :=
  (x <- random_randint 0 WIDTH ;;
   y <- random_randint 0 HEIGHT ;;
   r <- random_randint 2 5 ;;
   alpha <- random_randint 90 160 ;;
   base_color <- random_choice particle_options ;;
   pure (draw_ellipse particle_layer
           [Int (x - r); Int (y - r); Int (x + r); Int (y + r)]
           (firstn 3 base_color ++ [alpha])))%io.

Definition add_particles (canvas : Image) : IO Image :=
  (particle_layer <- pure (Image_new RGBA WIDTH HEIGHT [0; 0; 0; 0]) ;;
   random_seed 42 ;;
   particle_layer <- io_for_each (range 140) particle particle_layer ;;
   let particle_layer := gaussian_blur (Flt (F64.dec 6 10)) particle_layer in
   pure (alpha_composite canvas particle_layer))%io.

(** *** [render], [parse_args] and [main] *)

Definition render (destination : Path) : IO unit :=
  (canvas <- pure paint_background ;;
   canvas <- pure (add_highlights canvas) ;;
   canvas <- pure (add_grid canvas) ;;
   canvas <- pure (add_panels canvas) ;;
   canvas <- add_particles canvas ;;
   canvas <- pure (add_vignette canvas) ;;
   let final := convert RGB canvas in
   mkdir_parents (parent destination) ;;
   save final destination)%io.

Definition default_output : Path :=
  mkPath false ["src"; "assets"; "homepage"; "hero-base.png"]%string.

(** [parse_args().output] *)
Definition parse_args : IO Path :=
  fun w => (Ok (match cli_output w with
                | Some p => p
                | None => default_output
                end), w).

Definition get_cwd : IO Path := fun w => (Ok (cwd w), w).

Definition main : IO unit :=
  (output <- parse_args ;;
   render output ;;
   shown <- (if absolute output
             then (here <- get_cwd ;; pure (relative_to output here))
             else ret output) ;;
   print ("[hero-render] wrote " ++ path_str shown)%string)%io.

(** The exit status of the interpreter: zero when [main] returns, one
    when an exception reaches the top level. *)
Definition exit_status {A} (r : result A * World) : Z * World :=
  match r with
  | (Ok _, w') => (0, w')
  | (Raise _, w') => (1, w')
  end.

Definition run (w : World) : Z * World := exit_status (main w).
End Renderer.

(** * Definitions of the statements *)

Definition rem_loc (n m : Z) : location :=
  let r := m mod 2 ^ n in
  if r =? 0 then loc_Exact else loc_Inexact (2 * r ?= 2 ^ n).

Definition rne (n m : Z) : Z := round_nearest_even (m / 2 ^ n) (rem_loc n m).

(** The rounding of a positive exact value [X], counted in units of
    [2^-K], to binary64, in units of [2^-1074]. *)
Definition ulp_exp (K X : Z) : Z := fexp F64.prec F64.emax (Z.log2 X + 1 - K).

Definition RZ (K X : Z) : Z := rne (ulp_exp K X + K) X * 2 ^ (ulp_exp K X + 1074).

Definition RS (K X : Z) : Z :=
  match X with
  | Z0 => 0
  | Zpos _ => RZ K X
  | Zneg _ => - RZ K (- X)
  end.

Definition round_shift (m e : Z) : Z :=
  Z.max 0 (fexp F64.prec F64.emax (Zdigits2 m + e) - e).

Definition V (f : spec_float) : Z :=
  match f with
  | S754_finite s m e => cond_Zopp s (Zpos m * 2 ^ (e + 1074))
  | _ => 0
  end.

Definition wf (f : spec_float) : bool :=
  match f with
  | S754_zero _ => true
  | S754_finite _ _ e => -1074 <=? e
  | _ => false
  end.

Definition add_spec (x y : spec_float) : Z :=
  if F64.is_zero x then V y
  else if F64.is_zero y then V x
  else RS 1074 (V x + V y).

Definition valid (f : spec_float) : bool := valid_binary F64.prec F64.emax f.

Definition is_finite (f : spec_float) : bool :=
  match f with S754_zero _ | S754_finite _ _ _ => true | _ => false end.

(** [0.0 <= t <= 1.0] for a well-formed double. *)
Definition in_unit (t : F64.float) : bool :=
  valid t && F64.leb F64.zero t && F64.leb t F64.one.

(** The exact value of one interpolated channel, from the scaled value
    [vt] of [t]. *)
Definition lerp_sum (a P : Z) : Z :=
  if a =? 0 then P else RS 1074 (a * 2 ^ 1074 + P).

Definition lerp_value (a b vt : Z) : Z :=
  Z.quot (lerp_sum a (RS 2148 ((b - a) * 2 ^ 1074 * vt))) (2 ^ 1074).

(** A channel small enough for its conversions to be exact (every 8-bit
    sample is). *)
Definition channel (c : Z) : Prop := Z.abs c < 2 ^ 52.

(** [float(z)] when it does not overflow. *)
Definition fz (z : Z) : F64.float := binary_normalize F64.prec F64.emax z 0 false.

(** The double [a + (b - a) * t] of one channel. *)
Definition lerp_float (a b : Z) (t : F64.float) : F64.float :=
  F64.add (fz a) (F64.mul (fz (b - a)) t).

(** Two images of the same mode and size. *)
Definition same_shape (a b : Image) : Prop :=
  im_mode a = im_mode b /\ im_width a = im_width b /\ im_height a = im_height b.

(** Whether [(x, y)] is among the coordinates [coords]. *)
Definition hits (coords : list (Z * Z)) (x y : Z) : bool :=
  existsb (fun xy => (x =? fst xy) && (y =? snd xy)) coords.

(** The canvas format every stage works on. *)
Definition canvas_shape (im : Image) : Prop :=
  im_mode im = RGBA /\ im_width im = WIDTH /\ im_height im = HEIGHT.

(** A loop body that paints, for a key [k], the colour [color_of k] along
    the coordinates [line k]; the pixel it stores; and when it succeeds. *)
Definition line_body (color_of : Z -> result color) (line : Z -> list (Z * Z))
           (k : Z) (im : Image) : result Image :=
  c <- color_of k ;;
  for_each (line k) (fun xy im => putpixel im (fst xy) (snd xy) c) im.

Definition line_pixel (color_of : Z -> result color) (m : mode) (k : Z) : pixel :=
  match color_of k with
  | Ok c => match ink m c with Ok p => p | Raise _ => [] end
  | Raise _ => []
  end.

Definition line_ok (color_of : Z -> result color) (line : Z -> list (Z * Z))
           (im : Image) (k : Z) : Prop :=
  (exists c p, color_of k = Ok c /\ ink (im_mode im) c = Ok p) /\
  forall xy, In xy (line k) -> in_bounds im (fst xy) (snd xy) = true.

(** [lerp_color(navy_top, navy_bottom, y / (HEIGHT - 1))] *)
Definition row_color (y : Z) : result color :=
  t <- (int_ y / int_ (HEIGHT - 1))%num ;;
  lerp_color (PALETTE navy_top) (PALETTE navy_bottom) t.

(** [lerp_color(overlay_start, overlay_end, x / (WIDTH - 1))] *)
Definition column_color (x : Z) : result color :=
  t <- (int_ x / int_ (WIDTH - 1))%num ;;
  lerp_color (PALETTE overlay_start) (PALETTE overlay_end) t.

(** [int(90 * (1 - abs(0.5 - t) * 2))] with [t = x / (WIDTH - 1)] *)
Definition column_alpha (x : Z) : result Z :=
  t <- (int_ x / int_ (WIDTH - 1))%num ;;
  int_of (int_ 90 * (int_ 1 - abs_of (lit 5 10 - var t) * int_ 2))%num.

(** The colour with its alpha that the overlay loop stores in column [x]. *)
Definition column_rgba (x : Z) : result color :=
  t <- (int_ x / int_ (WIDTH - 1))%num ;;
  color <- lerp_color (PALETTE overlay_start) (PALETTE overlay_end) t ;;
  alpha <- int_of (int_ 90 * (int_ 1 - abs_of (lit 5 10 - var t) * int_ 2))%num ;;
  Ok (color ++ [alpha]).

Definition row_line (y : Z) : list (Z * Z) := map (fun x => (x, y)) (range WIDTH).
Definition column_line (x : Z) : list (Z * Z) := map (fun y => (x, y)) (range HEIGHT).

Definition color_eqb (a b : color) : bool :=
  if list_eq_dec Z.eq_dec a b then true else false.

(** The table checks behind the background lemmas: every row colour is an
    RGB triple of bytes; every overlay column is an RGBA quadruple of bytes
    whose alpha is the tent [180 * min(x, 1439 - x) / 1439]. *)
Definition row_check (y : Z) : bool :=
  match row_color y with
  | Ok [r; g; b] =>
      match ink RGB [r; g; b] with
      | Ok p => color_eqb p [r; g; b]
      | Raise _ => false
      end
  | _ => false
  end.

Definition column_check (x : Z) : bool :=
  match column_color x, column_alpha x, column_rgba x with
  | Ok [r; g; b], Ok a, Ok c =>
      color_eqb c [r; g; b; a] &&
      match ink RGBA c with
      | Ok p => color_eqb p c
      | Raise _ => false
      end &&
      (a =? 180 * Z.min x (WIDTH - 1 - x) / (WIDTH - 1))
  | _, _, _ => false
  end.

(** Straight alpha-over of one sample onto an opaque one, rounded to the
    nearest byte: [round((over * a + base * (255 - a)) / 255)]. *)
Definition alpha_over (a base over : Z) : Z :=
  (2 * (over * a + base * (255 - a)) + 255) / 510.

Definition kernel_check (T : Z) : bool :=
  Z.shiftr (shift_for_div255 (T * 128 + Z.shiftl 128 7)) 7 =? (2 * T + 255) / 510.

(** [check k && check (k + 1) && ...], [n] values in all. *)
Fixpoint all_from (check : Z -> bool) (n : nat) (k : Z) : bool :=
  match n with
  | O => true
  | S n' => check k && all_from check n' (k + 1)
  end.

Definition byte (v : Z) : Prop := 0 <= v <= 255.

(** A double in [[0, 1]], by its value. *)
Definition unit_value (f : F64.float) : Prop := wf f = true /\ 0 <= V f <= 2 ^ 1074.

(** What the renderer relies on from the C library's [pow(x, 2.0)]: on
    [[0, 1]] the result stays in [[0, 1]] and the function is monotone. *)
Definition pow_contract (P : Platform) : Prop :=
  (forall x, unit_value x -> unit_value (libm_pow P x two)) /\
  (forall x y, unit_value x -> unit_value y -> V x <= V y ->
     V (libm_pow P x two) <= V (libm_pow P y two)).

(** The radius of the [k]-th ring drawn. *)
Definition ring_radius (k : Z) : Z := 1080 - 12 * k.

(** [1 - radius / max_radius] *)
Definition ring_t (r : Z) : F64.float :=
  match (int_ 1 - int_ r / int_ 1080)%num with
  | Ok (Flt t) => t
  | _ => S754_nan
  end.

(** [int(255 * (1 - radius / max_radius) ** 2)] *)
Definition ring_alpha (P : Platform) (r : Z) : result Z :=
  int_of (int_ 255 * sq P (int_ 1 - int_ r / int_ 1080))%num.

(** [[center[0] - radius, center[1] - radius, center[0] + radius, center[1] + radius]] *)
Definition ring_bbox (r : Z) : list num :=
  [Int (892 - r); Int (364 - r); Int (892 + r); Int (364 + r)].

(** The table check behind the ring lemmas: [1 - radius / max_radius] is a
    double in [[0, 1)], and not smaller than for the ring drawn before. *)
Definition ring_check (k : Z) : bool :=
  let r := ring_radius k in
  match (int_ 1 - int_ r / int_ 1080)%num with
  | Ok (Flt t) =>
      wf t && (0 <=? V t) && (V t <=? 2 ^ 1074) && negb (is_neg t)
      && negb (F64.eqb t F64.one) && (V (ring_t (r + 12)) <=? V t)
  | _ => false
  end.

(** The integer a product [255 * p] truncates to, from the value of [p]. *)
Definition alpha_of_V (v : Z) : Z := Z.quot (RS 2148 (255 * 2 ^ 1074 * v)) (2 ^ 1074).

(** The value of [t ** 2]. *)
Definition sqV (P : Platform) (t : F64.float) : Z :=
  if F64.is_zero t then 0 else V (libm_pow P t two).

(** The mask before the rings are drawn. *)
Definition mask0 : Image := mkImage L WIDTH HEIGHT (fun _ _ => [0]).

(** Painter's order: the pixel of the last shape drawn that covers [(x, y)]. *)
Definition painted {K} (P : Platform) (w h : Z) (shape_of : K -> shape)
           (pix : K -> pixel) (keys : list K) (under : pixel) (x y : Z) : pixel :=
  match find (fun k => raster_fill P w h (shape_of k) x y) (rev keys) with
  | Some k => pix k
  | None => under
  end.

(** The intensity of the ring of radius [r] ([0] if the expression fails). *)
Definition ring_value (P : Platform) (r : Z) : Z :=
  match ring_alpha P r with Ok a => a | Raise _ => 0 end.

(** A platform whose [pow(x, 2.0)] is the correctly rounded square, whose
    [sin] and [cos] are placeholders, that rasterises nothing and does not
    blur. *)
Definition reference_platform : Platform :=
  mkPlatform (fun x => x) (fun x => x) (fun x _ => F64.mul x x)
             (fun _ _ _ _ _ => false) (fun _ _ _ _ _ _ => false)
             (fun _ _ _ band x y => band x y).

(** The cells [(row, col)] of the bar chart, in the order the two loops
    visit them. *)
Definition chart_cells : list (Z * Z) :=
  flat_map (fun row => map (fun col => (row, col)) (range 7)) (range 3).

(** [(row + col / 2) * 0.7] *)
Definition bar_angle (row col : Z) : F64.float :=
  match ((int_ row + int_ col / int_ 2) * lit 7 10)%num with
  | Ok (Flt a) => a
  | _ => S754_nan
  end.

(** The height the claim gives a bar:
    [(sin((row + col / 2) * 0.7) * 0.3 + 0.6) * 120]. *)
Definition bar_height (P : Platform) (row col : Z) : F64.float :=
  F64.mul (F64.add (F64.mul (libm_sin P (bar_angle row col)) (F64.dec 3 10))
                   (F64.dec 6 10))
          (fz 120).

(** The baseline of a row, [chart_top + row * 160], and the left edge of a
    column, [chart_left + col * (bar_width + 22)]. *)
Definition bar_baseline (chart_top : F64.float) (row : Z) : F64.float :=
  F64.add chart_top (fz (row * 160)).

Definition bar_left (chart_left : F64.float) (col : Z) : F64.float :=
  F64.add chart_left (fz (col * (42 + 22))).

(** The box of a bar: 42 wide, from [bar_height] above the baseline down to
    the baseline. *)
Definition bar_box (P : Platform) (chart_left chart_top : F64.float) (cell : Z * Z)
  : list num :=
  let '(row, col) := cell in
  [Flt (bar_left chart_left col);
   Flt (F64.sub (bar_baseline chart_top row) (bar_height P row col));
   Flt (F64.add (bar_left chart_left col) (fz 42));
   Flt (bar_baseline chart_top row)].

Definition bar_shape (P : Platform) (chart_left chart_top : F64.float) (cell : Z * Z)
  : shape :=
  RoundedRectangle (bar_box P chart_left chart_top cell) 12.

(** The accent of a bar, cycling with [(row + col) mod 4], at alpha 220. *)
Definition bar_color (cell : Z * Z) : color :=
  let '(row, col) := cell in
  nth (Z.to_nat ((row + col) mod 4)) accents [] ++ [220].

(** The float an expression of the panel stage evaluates to. *)
Definition float_of (e : result num) : F64.float :=
  match e with
  | Ok (Flt f) => f
  | _ => S754_nan
  end.

(** The corners of the main panel, [WIDTH * 0.2], [HEIGHT * 0.18],
    [WIDTH * 0.68] and [HEIGHT * 0.74], and what [add_panels] derives from
    them: [nav_x = main_panel[0] + 48], [nav_top = main_panel[1] + 96],
    [chart_left = nav_x + 260], [chart_top = main_panel[1] + 110],
    [chart_right = main_panel[2] - 64], [chart_bottom = main_panel[3] - 90]. *)
Definition panel_x0 : F64.float := float_of (int_ WIDTH * lit 2 10)%num.
Definition panel_y0 : F64.float := float_of (int_ HEIGHT * lit 18 100)%num.
Definition panel_x1 : F64.float := float_of (int_ WIDTH * lit 68 100)%num.
Definition panel_y1 : F64.float := float_of (int_ HEIGHT * lit 74 100)%num.
Definition panel_nav_x : F64.float := float_of (fl panel_x0 + int_ 48)%num.
Definition panel_nav_top : F64.float := float_of (fl panel_y0 + int_ 96)%num.
Definition panel_chart_left : F64.float := float_of (fl panel_nav_x + int_ 260)%num.
Definition panel_chart_top : F64.float := float_of (fl panel_y0 + int_ 110)%num.
Definition panel_chart_right : F64.float := float_of (fl panel_x1 - int_ 64)%num.
Definition panel_chart_bottom : F64.float := float_of (fl panel_y1 - int_ 90)%num.

(** What [add_panels] does after the chart loop: the sparkline, its dots
    and the floating cards are drawn on the layer, and the layer is
    composited over the canvas. *)
Definition panel_overlays (P : Platform) (chart_left chart_right chart_bottom : num)
           (canvas layer : Image) : result Image :=
  sparkline_points <- for_each (range 10)
                        (sparkline_point P chart_left chart_right chart_bottom) [] ;;
  layer <- draw_line P layer sparkline_points (PALETTE cyan ++ [200]) 6 true ;;
  layer <- for_each sparkline_points (sparkline_dot P) layer ;;
  layer <- for_each float_cards (float_card P) layer ;;
  alpha_composite canvas layer.

(** One bar of the chart as a draw call on the layer. *)
Definition draw_bar (P : Platform) (chart_left chart_top : F64.float) (cell : Z * Z)
           (layer : Image) : result Image :=
  draw_rounded_rectangle P layer (bar_box P chart_left chart_top cell) 12
    (bar_color cell) None 1.

(** A world that holds nothing but a generator state, and a world [w]
    continued with the generator and the journal of a run started from the
    bare world. *)
Definition bare (s : MT.state) : World :=
  mkWorld s [] (mkPath true []) None (fun _ => false) (fun _ => false) [] [].

Definition graft (w wb : World) : World :=
  mkWorld (rng wb) (rng_journal w ++ rng_journal wb) (cwd w) (cli_output w)
          (can_mkdir w) (can_save w) (files w) (stdout w).

(** A computation that touches the world through the generator only. *)
Definition rng_only {A} (m : IO A) : Prop :=
  forall w, m w = (fst (m (bare (rng w))), graft w (snd (m (bare (rng w))))).

(** One particle as drawn from the generator: [(x, y, r, alpha, index)],
    the calls it stands for, and the ranges of its components. *)
Definition draw : Type := Z * Z * Z * Z * Z.

Definition particle_events (p : draw) : list rng_event :=
  let '(x, y, r, alpha, i) := p in
  [EvRandint 0 WIDTH x; EvRandint 0 HEIGHT y; EvRandint 2 5 r;
   EvRandint 90 160 alpha; EvChoice 3 i].

Definition in_ranges (p : draw) : bool :=
  let '(x, y, r, alpha, i) := p in
  (0 <=? x) && (x <=? WIDTH) && (0 <=? y) && (y <=? HEIGHT) &&
  (2 <=? r) && (r <=? 5) && (90 <=? alpha) && (alpha <=? 160) &&
  (0 <=? i) && (i <? 3).

Definition event_value (ev : rng_event) : Z :=
  match ev with
  | EvSeed a => a
  | EvRandint _ _ v => v
  | EvChoice _ v => v
  end.

(** The values of a journal, five by five. *)
Fixpoint draws_of (j : list rng_event) : list draw :=
  match j with
  | e1 :: e2 :: e3 :: e4 :: e5 :: rest =>
      (event_value e1, event_value e2, event_value e3, event_value e4, event_value e5)
      :: draws_of rest
  | _ => []
  end.

Definition event_eqb (a b : rng_event) : bool :=
  match a, b with
  | EvSeed x, EvSeed y => x =? y
  | EvRandint a1 b1 v1, EvRandint a2 b2 v2 => (a1 =? a2) && (b1 =? b2) && (v1 =? v2)
  | EvChoice n1 v1, EvChoice n2 v2 => (n1 =? n2) && (v1 =? v2)
  | _, _ => false
  end.

Fixpoint events_eqb (a b : list rng_event) : bool :=
  match a, b with
  | [], [] => true
  | x :: a', y :: b' => event_eqb x y && events_eqb a' b'
  | _, _ => false
  end.

(** The particle layer before the first particle, and the run of the
    particle loop from the freshly seeded generator. *)
Definition layer0 : Image := mkImage RGBA WIDTH HEIGHT (fun _ _ => [0; 0; 0; 0]).

Definition particle_run (P : Platform) : result Image * World :=
  io_for_each (range 140) (particle P) layer0 (bare (MT.seed 42)).

Definition particle_stream (P : Platform) : list draw :=
  draws_of (rng_journal (snd (particle_run P))).

Definition canvas_check (r : result Image) : bool :=
  match r with
  | Ok im => mode_eqb (im_mode im) RGBA && (im_width im =? WIDTH)
             && (im_height im =? HEIGHT)
  | Raise _ => false
  end.

(** Every pixel has four samples and full alpha. *)
Definition opaque (im : Image) : Prop :=
  forall x y, 0 <= x < im_width im -> 0 <= y < im_height im ->
    exists r g b, im_data im x y = [r; g; b; 255].

(** The format of the artifact: ["RGB"], 1440x960, three samples a pixel. *)
Definition rgb_artifact (im : Image) : Prop :=
  im_mode im = RGB /\ im_width im = WIDTH /\ im_height im = HEIGHT /\
  forall x y, 0 <= x < WIDTH -> 0 <= y < HEIGHT ->
    exists r g b, im_data im x y = [r; g; b].

(** The state of the generator and the journal after the particle stage. *)
Definition after_particles (P : Platform) (w : World) : World :=
  graft (set_rng (MT.seed 42) (EvSeed 42) w) (snd (particle_run P)).

(** The stages before the particles, and the stages from the particles on,
    as functions of nothing but the platform. *)
Definition before_particles (P : Platform) : result Image :=
  canvas <- paint_background ;;
  canvas <- add_highlights P canvas ;;
  canvas <- add_grid P canvas ;;
  add_panels P canvas.

Definition from_particles (P : Platform) (canvas : Image) : result Image :=
  canvas <- fst (add_particles P canvas (bare (MT.seed 0))) ;;
  canvas <- add_vignette P canvas ;;
  Ok (convert RGB canvas).

(** The image the pipeline computes, whatever the destination and the
    state of the process. *)
Definition rendered (P : Platform) : result Image :=
  bind (before_particles P) (from_particles P).

(** The end of [render]: the directory, then the file. *)
Definition write_out (d : Path) (final : Image) : IO unit :=
  (mkdir_parents (parent d) ;; save final d)%io.

(** The path [main] renders to. *)
Definition output_of (w : World) : Path :=
  match cli_output w with
  | Some p => p
  | None => default_output
  end.

(** The line [main] prints for the path [shown]. *)
Definition report (shown : Path) : string :=
  ("[hero-render] wrote " ++ path_str shown)%string.

(** A world in which the file [d] can be written. *)
Definition writable (w : World) (d : Path) : Prop :=
  can_mkdir w (parent d) = true /\ can_save w d = true.

(** What [main] does once [render] has returned: the path to show, then
    the line printed. *)
Definition shown_path (output : Path) (w : World) : result Path :=
  if absolute output then relative_to output (cwd w) else Ok output.

(** A process started in [/home/user/project] that may write anywhere,
    with the given [--output]. *)
Definition example_world (output : option Path) : World :=
  mkWorld (MT.seed 0) [] (mkPath true ["home"; "user"; "project"]%string) output
          (fun _ => true) (fun _ => true) [] [].

Definition tmp_hero : Path := mkPath true ["tmp"; "hero.png"]%string.

(** The lines of the grid: the vertical one through [x] or the horizontal
    one through [y], each from edge to edge. *)
Definition grid_vertical (x : Z) : shape :=
  Line [(Int x, Int 0); (Int x, Int HEIGHT)] 1 false.

Definition grid_horizontal (y : Z) : shape :=
  Line [(Int 0, Int y); (Int WIDTH, Int y)] 1 false.

(** Whether one of the grid's lines covers the pixel [(x, y)]. *)
Definition on_grid (P : Platform) (x y : Z) : bool :=
  existsb (fun k => raster_fill P WIDTH HEIGHT (grid_vertical k) x y)
          [0; 120; 240; 360; 480; 600; 720; 840; 960; 1080; 1200; 1320]
  || existsb (fun k => raster_fill P WIDTH HEIGHT (grid_horizontal k) x y)
             [0; 120; 240; 360; 480; 600; 720; 840].

(** A platform as [reference_platform] whose [pow] overflows. *)
Definition overflow_platform : Platform :=
  mkPlatform (fun x => x) (fun x => x) (fun _ _ => S754_infinity false)
             (fun _ _ _ _ _ => false) (fun _ _ _ _ _ _ => false)
             (fun _ _ _ band x y => band x y).

(** The world [example_world output] on a file system where nothing can be
    saved. *)
Definition read_only_world (output : option Path) : World :=
  mkWorld (MT.seed 0) [] (mkPath true ["home"; "user"; "project"]%string) output
          (fun _ => true) (fun _ => false) [] [].


(** The ellipse of a particle, [[x - r, y - r, x + r, y + r]], and its
    fill, [base_color[:3] + (alpha,)] for the option drawn. *)
Definition particle_shape (p : draw) : shape :=
  let '(x, y, r, alpha, i) := p in
  Ellipse [Int (x - r); Int (y - r); Int (x + r); Int (y + r)].

Definition particle_fill (p : draw) : color :=
  let '(x, y, r, alpha, i) := p in
  firstn 3 (nth (Z.to_nat i) particle_options (PALETTE cyan ++ [0])) ++ [alpha].

(** The layer after one more particle. *)
Definition with_particle (P : Platform) (layer : Image) (p : draw) : Image :=
  mkImage (im_mode layer) (im_width layer) (im_height layer)
    (fun x y =>
       if raster_fill P (im_width layer) (im_height layer) (particle_shape p) x y
       then map clip8 (particle_fill p) else im_data layer x y).

(** The masks of the vignette stage before they are blurred: [255] where
    the rectangle over the whole canvas is rasterised, [220] where the
    focus ellipse is; and an ["RGBA"] layer of one colour whose alpha is
    taken from a mask. *)
Definition vignette_mask (P : Platform) : Image :=
  mkImage L WIDTH HEIGHT
    (fun x y =>
       if raster_fill P WIDTH HEIGHT (Rectangle [Int 0; Int 0; Int WIDTH; Int HEIGHT]) x y
       then [255] else [0]).

Definition focus_box : list num :=
  [Flt (float_of (int_ WIDTH * lit 2 10 - int_ 160)%num);
   Flt (float_of (int_ HEIGHT * lit 18 100 - int_ 120)%num);
   Flt (float_of (int_ WIDTH * lit 68 100 + int_ 160)%num);
   Flt (float_of (int_ HEIGHT * lit 74 100 + int_ 180)%num)].

Definition focus_mask (P : Platform) : Image :=
  mkImage L WIDTH HEIGHT
    (fun x y => if raster_fill P WIDTH HEIGHT (Ellipse focus_box) x y then [220] else [0]).

Definition tinted (rgb : color) (mask : Image) : Image :=
  mkImage RGBA WIDTH HEIGHT (fun x y => rgb ++ firstn 1 (im_data mask x y)).

(** * Lemmas and theorems *)

Local Open Scope py_scope.

Example lerp_half :
  lerp_color (PALETTE navy_top) (PALETTE navy_bottom) (Flt (F64.dec 5 10))
  = Ok [22; 17; 56].
Proof. vm_compute. reflexivity. Qed.

Example mt_seed_42_first_words :
  let '(a, s) := MT.genrand_uint32 (MT.seed 42) in
  let '(b, s) := MT.genrand_uint32 s in
  let '(c, _) := MT.genrand_uint32 s in
  [a; b; c] = [2746317213; 478163327; 107420369].
Proof. vm_compute. reflexivity. Qed.

Lemma iter_pos_nat {A} (f : A -> A) p x :
  iter_pos f p x = Nat.iter (Pos.to_nat p) f x.
Proof.
  revert x. induction p as [p IH | p IH |]; intros x; cbn [iter_pos].
  - rewrite !IH, Pos2Nat.inj_xI.
    replace (S (2 * Pos.to_nat p))%nat with (Pos.to_nat p + S (Pos.to_nat p))%nat by lia.
    rewrite Nat.iter_add, Nat.iter_succ_r. reflexivity.
  - rewrite !IH, Pos2Nat.inj_xO.
    replace (2 * Pos.to_nat p)%nat with (Pos.to_nat p + Pos.to_nat p)%nat by lia.
    rewrite Nat.iter_add. reflexivity.
  - reflexivity.
Qed.

Lemma shr_1_spec mrs :
  0 <= shr_m mrs ->
  shr_m (shr_1 mrs) = shr_m mrs / 2 /\
  shr_r (shr_1 mrs) = Z.odd (shr_m mrs) /\
  shr_s (shr_1 mrs) = shr_r mrs || shr_s mrs.
Proof.
  destruct mrs as [m r s]. simpl. intros Hm.
  destruct m as [|p|p]; [| |lia].
  - simpl. auto.
  - destruct p as [p|p|]; simpl; repeat split; try reflexivity.
    + rewrite Pos2Z.inj_xI. apply Z.div_unique with (r := 1); lia.
    + rewrite Pos2Z.inj_xO. apply Z.div_unique with (r := 0); lia.
Qed.

Lemma shr_iter (n : nat) (m : Z) :
  0 <= m ->
  let mrs := Nat.iter n shr_1 (Build_shr_record m false false) in
  shr_m mrs = m / 2 ^ Z.of_nat n /\
  loc_of_shr_record mrs = rem_loc (Z.of_nat n) m /\
  shr_r mrs || shr_s mrs = negb (m mod 2 ^ Z.of_nat n =? 0).
Proof.
  intros Hm. induction n as [|n IH].
  - simpl. unfold rem_loc. rewrite !Z.mod_1_r, Z.div_1_r. simpl. auto.
  - cbv zeta in *. rewrite Nat.iter_succ.
    set (mrs := Nat.iter n shr_1 _) in *.
    destruct IH as (IHm & IHl & IHs).
    assert (H0 : 0 <= shr_m mrs).
    { rewrite IHm. apply Z.div_pos; [lia|]. apply Z.pow_pos_nonneg; lia. }
    destruct (shr_1_spec mrs H0) as (Em & Er & Es).
    assert (P2 : 0 < 2 ^ Z.of_nat n) by (apply Z.pow_pos_nonneg; lia).
    assert (E2 : 2 ^ Z.of_nat (S n) = 2 ^ Z.of_nat n * 2).
    { rewrite Nat2Z.inj_succ, Z.pow_succ_r by lia. lia. }
    assert (Erem : m mod 2 ^ Z.of_nat (S n)
                   = m mod 2 ^ Z.of_nat n + 2 ^ Z.of_nat n * ((m / 2 ^ Z.of_nat n) mod 2)).
    { rewrite E2. apply Z.rem_mul_r; lia. }
    assert (Ediv : m / 2 ^ Z.of_nat (S n) = m / 2 ^ Z.of_nat n / 2).
    { rewrite E2. rewrite Z.div_div by lia. reflexivity. }
    pose proof (Z.mod_pos_bound m (2 ^ Z.of_nat n) P2) as Hb.
    assert (Hodd : (m / 2 ^ Z.of_nat n) mod 2 = if Z.odd (shr_m mrs) then 1 else 0).
    { rewrite <- IHm. rewrite Zmod_odd. reflexivity. }
    split; [rewrite Em, IHm; symmetry; exact Ediv|].
    destruct (shr_1 mrs) as [m' r' s'] eqn:E1. simpl in Em, Er, Es. subst r' s'.
    unfold rem_loc. rewrite Erem, Hodd, E2. rewrite IHs.
    destruct (Z.odd (shr_m mrs));
      destruct (Z.eqb_spec (m mod 2 ^ Z.of_nat n) 0) as [Hz|Hz];
      cbn [negb orb loc_of_shr_record].
    + rewrite Hz. replace (0 + 2 ^ Z.of_nat n * 1) with (2 ^ Z.of_nat n) by lia.
      destruct (Z.eqb_spec (2 ^ Z.of_nat n) 0); [lia|].
      split; [|reflexivity]. f_equal. symmetry. apply Z.compare_eq_iff. lia.
    + destruct (Z.eqb_spec (m mod 2 ^ Z.of_nat n + 2 ^ Z.of_nat n * 1) 0); [lia|].
      split; [|reflexivity]. f_equal. symmetry. apply Z.compare_gt_iff. lia.
    + rewrite Hz, Z.mul_0_r. cbn [Z.add Z.eqb]. auto.
    + replace (m mod 2 ^ Z.of_nat n + 2 ^ Z.of_nat n * 0) with (m mod 2 ^ Z.of_nat n) by lia.
      destruct (Z.eqb_spec (m mod 2 ^ Z.of_nat n) 0); [lia|].
      split; [|reflexivity]. f_equal. symmetry. apply Z.compare_lt_iff. lia.
Qed.

Lemma pow2_pos n : 0 <= n -> 0 < 2 ^ n.
Proof. intros. apply Z.pow_pos_nonneg; lia. Qed.

Lemma rne_cases n m :
  0 <= n ->
  let q := m / 2 ^ n in
  let r := m mod 2 ^ n in
  (2 * r < 2 ^ n /\ rne n m = q) \/
  (2 * r > 2 ^ n /\ rne n m = q + 1) \/
  (2 * r = 2 ^ n /\ rne n m = if Z.even q then q else q + 1).
Proof.
  intros Hn q r. unfold rne, rem_loc. fold q r.
  pose proof (pow2_pos n Hn) as P2.
  pose proof (Z.mod_pos_bound m (2 ^ n) P2) as Hb. fold r in Hb.
  destruct (Z.eqb_spec r 0) as [Hz|Hz].
  - left. cbn [round_nearest_even]. split; [lia|reflexivity].
  - destruct (Z.compare_spec (2 * r) (2 ^ n)) as [E|E|E]; cbn [round_nearest_even].
    + right. right. auto.
    + left. auto.
    + right. left. split; [lia|reflexivity].
Qed.

Lemma rne_bounds n m :
  0 <= n -> m / 2 ^ n <= rne n m <= m / 2 ^ n + 1.
Proof.
  intros Hn. destruct (rne_cases n m Hn) as [[_ E]|[[_ E]|[_ E]]]; rewrite E;
    try destruct (Z.even _); lia.
Qed.

Lemma rne_mono n m1 m2 :
  0 <= n -> m1 <= m2 -> rne n m1 <= rne n m2.
Proof.
  intros Hn Hle.
  pose proof (pow2_pos n Hn) as P2.
  assert (Hq : m1 / 2 ^ n <= m2 / 2 ^ n) by (apply Z.div_le_mono; lia).
  destruct (Z.eq_dec (m1 / 2 ^ n) (m2 / 2 ^ n)) as [Eq|Nq].
  - pose proof (Z.div_mod m1 (2 ^ n)) as D1. pose proof (Z.div_mod m2 (2 ^ n)) as D2.
    assert (Hr : m1 mod 2 ^ n <= m2 mod 2 ^ n) by nia.
    destruct (rne_cases n m1 Hn) as [[C1 E1]|[[C1 E1]|[C1 E1]]];
      destruct (rne_cases n m2 Hn) as [[C2 E2]|[[C2 E2]|[C2 E2]]];
      rewrite E1, E2, <- ?Eq; try destruct (Z.even (m1 / 2 ^ n)); lia.
  - pose proof (rne_bounds n m1 Hn). pose proof (rne_bounds n m2 Hn). lia.
Qed.

Lemma rne_exact n q :
  0 <= n -> rne n (q * 2 ^ n) = q.
Proof.
  intros Hn. pose proof (pow2_pos n Hn) as P2.
  unfold rne, rem_loc. rewrite Z.mod_mul, Z.div_mul by lia. reflexivity.
Qed.

Lemma rne_scale n j m :
  0 <= n -> 0 <= j -> rne (n + j) (m * 2 ^ j) = rne n m.
Proof.
  intros Hn Hj. pose proof (pow2_pos n Hn) as Pn. pose proof (pow2_pos j Hj) as Pj.
  unfold rne, rem_loc. rewrite Z.pow_add_r by lia.
  rewrite Z.div_mul_cancel_r by lia.
  rewrite Z.mul_mod_distr_r by lia.
  destruct (Z.eqb_spec (m mod 2 ^ n) 0) as [Hz|Hz].
  - rewrite Hz. reflexivity.
  - destruct (Z.eqb_spec (m mod 2 ^ n * 2 ^ j) 0) as [Hz'|Hz']; [nia|].
    f_equal. f_equal.
    destruct (Z.compare_spec (2 * (m mod 2 ^ n)) (2 ^ n)) as [E|E|E].
    + apply Z.compare_eq_iff. nia.
    + apply Z.compare_lt_iff. nia.
    + apply Z.compare_gt_iff. nia.
Qed.

Lemma rne_nonneg n m : 0 <= n -> 0 <= m -> 0 <= rne n m.
Proof.
  intros Hn Hm. pose proof (rne_bounds n m Hn).
  assert (0 <= m / 2 ^ n) by (apply Z.div_pos; [lia | apply pow2_pos; lia]). lia.
Qed.

Lemma ulp_exp_ge K X : -1074 <= ulp_exp K X.
Proof. unfold ulp_exp, fexp, emin, F64.prec, F64.emax. lia. Qed.

Lemma ulp_exp_mono K X Y : 0 < X <= Y -> ulp_exp K X <= ulp_exp K Y.
Proof.
  intros H. unfold ulp_exp, fexp.
  assert (Z.log2 X <= Z.log2 Y) by (apply Z.log2_le_mono; lia). lia.
Qed.

Lemma RZ_nonneg K X : 1074 <= K -> 0 < X -> 0 <= RZ K X.
Proof.
  intros HK HX. unfold RZ. pose proof (ulp_exp_ge K X).
  apply Z.mul_nonneg_nonneg; [apply rne_nonneg; lia | apply Z.lt_le_incl, pow2_pos; lia].
Qed.

Lemma RZ_mono K X Y :
  1074 <= K -> 0 < X <= Y -> RZ K X <= RZ K Y.
Proof.
  intros HK HXY.
  pose proof (ulp_exp_mono K X Y HXY) as He.
  pose proof (ulp_exp_ge K X) as Hx. pose proof (ulp_exp_ge K Y) as Hy.
  unfold RZ.
  destruct (Z.eq_dec (ulp_exp K X) (ulp_exp K Y)) as [E|NE].
  - rewrite E. apply Z.mul_le_mono_nonneg_r.
    + apply Z.lt_le_incl, pow2_pos; lia.
    + apply rne_mono; lia.
  - set (ex := ulp_exp K X) in *. set (ey := ulp_exp K Y) in *.
    assert (Hlt : ex < ey) by lia.
    (* the rounded X is at most 2^(53 + ex), the rounded Y at least 2^(52 + ey) *)
    assert (Hdx : Z.log2 X + 1 - K - 53 <= ex).
    { unfold ex, ulp_exp, fexp, F64.prec. lia. }
    assert (Hdy : ey = Z.log2 Y + 1 - K - 53).
    { unfold ey, ex, ulp_exp, fexp, emin, F64.prec, F64.emax in *. lia. }
    pose proof (Z.log2_spec X ltac:(lia)) as [_ HX2].
    pose proof (Z.log2_spec Y ltac:(lia)) as [HY1 _].
    assert (Bx : rne (ex + K) X <= 2 ^ 53).
    { pose proof (rne_bounds (ex + K) X ltac:(lia)) as [_ B].
      assert (X / 2 ^ (ex + K) < 2 ^ 53); [|lia].
      apply Z.div_lt_upper_bound; [apply pow2_pos; lia|].
      rewrite <- Z.pow_add_r by lia.
      eapply Z.lt_le_trans; [exact HX2|].
      apply Z.pow_le_mono_r; lia. }
    assert (By : 2 ^ 52 <= rne (ey + K) Y).
    { pose proof (rne_bounds (ey + K) Y ltac:(lia)) as [B _].
      assert (2 ^ 52 <= Y / 2 ^ (ey + K)); [|lia].
      apply Z.div_le_lower_bound; [apply pow2_pos; lia|].
      rewrite <- Z.pow_add_r by lia.
      eapply Z.le_trans; [|exact HY1].
      apply Z.pow_le_mono_r; lia. }
    apply Z.le_trans with (2 ^ 53 * 2 ^ (ex + 1074)).
    + apply Z.mul_le_mono_nonneg_r; [apply Z.lt_le_incl, pow2_pos; lia | exact Bx].
    + apply Z.le_trans with (2 ^ 52 * 2 ^ (ey + 1074)).
      * rewrite <- !Z.pow_add_r by lia. apply Z.pow_le_mono_r; lia.
      * apply Z.mul_le_mono_nonneg_r; [apply Z.lt_le_incl, pow2_pos; lia | exact By].
Qed.

Lemma RS_mono K X Y : 1074 <= K -> X <= Y -> RS K X <= RS K Y.
Proof.
  intros HK H. destruct X as [|x|x], Y as [|y|y]; cbn [RS]; try lia.
  - apply RZ_nonneg; lia.
  - apply RZ_mono; lia.
  - pose proof (RZ_nonneg K (- Z.neg x) HK ltac:(lia)). lia.
  - pose proof (RZ_nonneg K (- Z.neg x) HK ltac:(lia)).
    pose proof (RZ_nonneg K (Z.pos y) HK ltac:(lia)). lia.
  - pose proof (RZ_mono K (- Z.neg y) (- Z.neg x) HK ltac:(lia)). lia.
Qed.

Lemma digits2_pos_size p : digits2_pos p = Pos.size p.
Proof. induction p; simpl; congruence. Qed.

Lemma Zdigits2_log2 p : Zdigits2 (Zpos p) = Z.log2 (Zpos p) + 1.
Proof.
  unfold Zdigits2. rewrite digits2_pos_size.
  destruct p; simpl; rewrite ?Pos2Z.inj_succ; lia.
Qed.

Lemma shr_spec m e n :
  0 <= m ->
  let res := shr (Build_shr_record m false false) e n in
  shr_m (fst res) = m / 2 ^ Z.max 0 n /\
  loc_of_shr_record (fst res) = rem_loc (Z.max 0 n) m /\
  snd res = e + Z.max 0 n.
Proof.
  intros Hm. destruct n as [|p|p]; cbn [shr fst snd].
  - unfold rem_loc. cbn [Z.max Z.compare]. rewrite !Z.add_0_r.
    change (2 ^ 0) with 1. rewrite Z.div_1_r, Z.mod_1_r. auto.
  - rewrite iter_pos_nat.
    destruct (shr_iter (Pos.to_nat p) m Hm) as (A & B & _).
    rewrite positive_nat_Z in A, B.
    replace (Z.max 0 (Z.pos p)) with (Z.pos p) by lia. auto.
  - unfold rem_loc. replace (Z.max 0 (Z.neg p)) with 0 by lia. rewrite !Z.add_0_r.
    change (2 ^ 0) with 1. rewrite Z.div_1_r, Z.mod_1_r. auto.
Qed.

Lemma shr_fexp_exact m e :
  0 <= m ->
  let res := shr_fexp F64.prec F64.emax m e loc_Exact in
  shr_m (fst res) = m / 2 ^ round_shift m e /\
  loc_of_shr_record (fst res) = rem_loc (round_shift m e) m /\
  snd res = e + round_shift m e.
Proof.
  intros Hm. unfold shr_fexp. cbn [shr_record_of_loc]. apply shr_spec. exact Hm.
Qed.

Lemma bra_unfold s m e :
  binary_round_aux F64.prec F64.emax s (Zpos m) e loc_Exact =
  let n1 := round_shift (Zpos m) e in
  let m1 := rne n1 (Zpos m) in
  let e1 := e + n1 in
  let n2 := round_shift m1 e1 in
  match m1 / 2 ^ n2 with
  | Z0 => S754_zero s
  | Zpos m2 => if e1 + n2 <=? F64.emax - F64.prec
               then S754_finite s m2 (e1 + n2) else S754_infinity s
  | Zneg _ => S754_nan
  end.
Proof.
  unfold binary_round_aux.
  destruct (shr_fexp_exact (Zpos m) e ltac:(lia)) as (A1 & B1 & C1).
  destruct (shr_fexp F64.prec F64.emax (Z.pos m) e loc_Exact) as [mrs' e'].
  cbn [fst snd] in A1, B1, C1.
  assert (Em1 : round_nearest_even (shr_m mrs') (loc_of_shr_record mrs')
                = rne (round_shift (Zpos m) e) (Zpos m)).
  { unfold rne. rewrite A1, B1. reflexivity. }
  rewrite Em1, C1. cbv zeta.
  set (m1 := rne _ _). set (e1 := e + _).
  assert (H1 : 0 <= m1).
  { apply rne_nonneg; [unfold round_shift|]; lia. }
  destruct (shr_fexp_exact m1 e1 H1) as (A2 & B2 & C2).
  destruct (shr_fexp F64.prec F64.emax m1 e1 loc_Exact) as [mrs'' e''].
  cbn [fst snd] in A2, B2, C2. rewrite A2, C2. reflexivity.
Qed.

Lemma fexp_unfold d : fexp F64.prec F64.emax d = Z.max (d - 53) (-1074).
Proof. reflexivity. Qed.

Lemma pow2_lt_inv a b : 0 <= b -> 2 ^ a < 2 ^ b -> a < b.
Proof.
  intros Hb H. destruct (Z.lt_ge_cases a b) as [|Hge]; [assumption|].
  assert (2 ^ b <= 2 ^ a) by (apply Z.pow_le_mono_r; lia). lia.
Qed.

Lemma bra_value s m e K :
  1074 <= K -> 0 <= e + K ->
  let X := Zpos m * 2 ^ (e + K) in
  RZ K X < 2 ^ 2046 ->
  let f := binary_round_aux F64.prec F64.emax s (Zpos m) e loc_Exact in
  wf f = true /\ V f = cond_Zopp s (RZ K X).
Proof.
  intros HK HeK X Hsmall. cbv zeta. rewrite bra_unfold.
  assert (PK : 0 < 2 ^ (e + K)) by (apply pow2_pos; lia).
  assert (HX : 0 < X) by (unfold X; lia).
  assert (Hlog : Z.log2 X = Z.log2 (Zpos m) + (e + K)).
  { unfold X. rewrite Z.log2_mul_pow2 by lia. lia. }
  assert (Hue : ulp_exp K X = fexp F64.prec F64.emax (Zdigits2 (Zpos m) + e)).
  { unfold ulp_exp. rewrite Hlog, Zdigits2_log2. f_equal. lia. }
  pose proof (ulp_exp_ge K X) as Hge.
  unfold RZ in *. set (ue := ulp_exp K X) in *.
  assert (Hn1 : round_shift (Zpos m) e = Z.max 0 (ue - e)).
  { unfold round_shift. rewrite <- Hue. reflexivity. }
  cbv zeta. rewrite !Hn1.
  destruct (Z.le_gt_cases ue e) as [Hle|Hgt].
  - (* the value is representable as it stands *)
    replace (Z.max 0 (ue - e)) with 0 in * by lia.
    assert (E0 : rne 0 (Zpos m) = Zpos m).
    { rewrite <- (rne_exact 0 (Zpos m)) at 2 by lia. f_equal. change (2 ^ 0) with 1. lia. }
    rewrite !E0, !Z.add_0_r, !Hn1.
    change (2 ^ 0) with 1. rewrite Z.div_1_r, Z.add_0_r.
    assert (ER : rne (ue + K) X = Zpos m * 2 ^ (e - ue)).
    { unfold X. replace (e + K) with ((e - ue) + (ue + K)) by lia.
      rewrite Z.pow_add_r by lia. rewrite Z.mul_assoc. apply rne_exact. lia. }
    rewrite ER in *.
    assert (EV : Zpos m * 2 ^ (e - ue) * 2 ^ (ue + 1074) = Zpos m * 2 ^ (e + 1074)).
    { rewrite <- Z.mul_assoc, <- Z.pow_add_r by lia. do 2 f_equal. lia. }
    rewrite EV in *.
    assert (He : e + 1074 < 2046).
    { apply pow2_lt_inv; [lia|].
      assert (0 < 2 ^ (e + 1074)) by (apply pow2_pos; lia). nia. }
    destruct (Z.leb_spec e (F64.emax - F64.prec)) as [_|Hbad];
      [|unfold F64.emax, F64.prec in Hbad; lia].
    cbn [wf V]. split; [apply Z.leb_le; lia | reflexivity].
  - (* low bits are dropped *)
    replace (Z.max 0 (ue - e)) with (ue - e) in * by lia.
    assert (ES : rne (ue - e) (Zpos m) = rne (ue + K) X).
    { unfold X. replace (ue + K) with ((ue - e) + (e + K)) by lia.
      symmetry. apply rne_scale; lia. }
    rewrite !ES. replace (e + (ue - e)) with ue by lia.
    set (m1 := rne (ue + K) X) in *.
    assert (H1 : 0 <= m1) by (apply rne_nonneg; lia).
    assert (B1 : m1 <= 2 ^ 53).
    { pose proof (rne_bounds (ue + K) X ltac:(lia)) as [_ B]. fold m1 in B.
      assert (X / 2 ^ (ue + K) < 2 ^ 53); [|lia].
      apply Z.div_lt_upper_bound; [apply pow2_pos; lia|].
      rewrite <- Z.pow_add_r by lia.
      pose proof (Z.log2_spec X HX) as [_ HX2].
      eapply Z.lt_le_trans; [exact HX2|].
      apply Z.pow_le_mono_r; [lia|].
      assert (Z.log2 X + 1 - K - 53 <= ue); [|lia].
      unfold ue, ulp_exp. rewrite fexp_unfold. lia. }
    assert (PU : 0 < 2 ^ (ue + 1074)) by (apply pow2_pos; lia).
    destruct (Z.eq_dec m1 0) as [Z1|NZ1].
    + rewrite Z1. unfold round_shift. cbn [Zdigits2]. rewrite fexp_unfold.
      replace (Z.max 0 (Z.max (0 + ue - 53) (-1074) - ue)) with 0 by lia.
      change (2 ^ 0) with 1. rewrite Z.div_1_r. cbn [wf V].
      split; [reflexivity|]. destruct s; reflexivity.
    + destruct m1 as [|p1|p1] eqn:Em1; [lia| |lia].
      destruct (Z.eq_dec (Zpos p1) (2 ^ 53)) as [Top|NTop].
      * (* the mantissa was rounded up to the next binade *)
        assert (Ed : Zdigits2 (Zpos p1) = 54) by (rewrite Top; reflexivity).
        unfold round_shift. rewrite Ed, fexp_unfold.
        replace (Z.max 0 (Z.max (54 + ue - 53) (-1074) - ue)) with 1 by lia.
        rewrite Top. change (2 ^ 53 / 2 ^ 1) with (Zpos 4503599627370496).
        rewrite Top in Hsmall.
        assert (Hu : 53 + (ue + 1074) < 2046).
        { apply pow2_lt_inv; [lia|]. rewrite Z.pow_add_r by lia. exact Hsmall. }
        destruct (Z.leb_spec (ue + 1) (F64.emax - F64.prec)) as [_|Hbad];
          [|unfold F64.emax, F64.prec in Hbad; lia].
        cbn [wf V]. split; [apply Z.leb_le; lia|].
        f_equal. replace (ue + 1 + 1074) with (1 + (ue + 1074)) by lia.
        rewrite Z.pow_add_r by lia. change (2 ^ 53) with (9007199254740992).
        change (2 ^ 1) with 2. lia.
      * assert (Ed : Zdigits2 (Zpos p1) <= 53).
        { rewrite Zdigits2_log2.
          assert (Z.log2 (Zpos p1) < 53); [|lia].
          apply Z.log2_lt_pow2; lia. }
        assert (Ed0 : 0 < Zdigits2 (Zpos p1)).
        { rewrite Zdigits2_log2. pose proof (Z.log2_nonneg (Zpos p1)). lia. }
        unfold round_shift. rewrite fexp_unfold.
        replace (Z.max 0 (Z.max (Zdigits2 (Z.pos p1) + ue - 53) (-1074) - ue)) with 0 by lia.
        change (2 ^ 0) with 1. rewrite Z.div_1_r, Z.add_0_r.
        assert (Hu : ue + 1074 < 2046).
        { apply pow2_lt_inv; [lia|]. nia. }
        destruct (Z.leb_spec ue (F64.emax - F64.prec)) as [_|Hbad];
          [|unfold F64.emax, F64.prec in Hbad; lia].
        cbn [wf V]. split; [apply Z.leb_le; lia | reflexivity].
Qed.

Lemma iter_xO m d : Zpos (Pos.iter xO m d) = Zpos m * 2 ^ Zpos d.
Proof.
  induction d as [|d IH] using Pos.peano_ind.
  - cbn [Pos.iter]. rewrite Pos2Z.inj_xO. change (2 ^ 1) with 2. lia.
  - rewrite Pos.iter_succ, Pos2Z.inj_xO, IH, Pos2Z.inj_succ, Z.pow_succ_r by lia. lia.
Qed.

Lemma shl_align_spec m e e' :
  let res := shl_align m e e' in
  snd res = Z.min e e' /\ Zpos (fst res) = Zpos m * 2 ^ (e - Z.min e e').
Proof.
  unfold shl_align. destruct (e' - e) as [|d|d] eqn:E; cbn [fst snd].
  - replace (Z.min e e') with e by lia. rewrite Z.sub_diag. change (2 ^ 0) with 1. lia.
  - replace (Z.min e e') with e by lia. rewrite Z.sub_diag. change (2 ^ 0) with 1. lia.
  - replace (Z.min e e') with e' by lia. split; [reflexivity|].
    rewrite iter_xO. do 2 f_equal. lia.
Qed.

Lemma RZ_exact K X q :
  1074 <= K -> 0 < X -> X = q * 2 ^ (ulp_exp K X + K) ->
  RZ K X = q * 2 ^ (ulp_exp K X + 1074).
Proof.
  intros HK HX E. pose proof (ulp_exp_ge K X). unfold RZ.
  rewrite E at 2. rewrite rne_exact by lia. reflexivity.
Qed.

Lemma RZ_pow2 K j : 1074 <= K -> K - 1074 <= j -> RZ K (2 ^ j) = 2 ^ (j - K + 1074).
Proof.
  intros HK Hj.
  assert (Pj : 0 < 2 ^ j) by (apply pow2_pos; lia).
  assert (Hu : ulp_exp K (2 ^ j) <= j - K).
  { unfold ulp_exp. rewrite Z.log2_pow2 by lia. rewrite fexp_unfold. lia. }
  pose proof (ulp_exp_ge K (2 ^ j)) as Hg.
  rewrite (RZ_exact K (2 ^ j) (2 ^ (j - K - ulp_exp K (2 ^ j)))); try lia.
  - rewrite <- Z.pow_add_r by lia. f_equal. lia.
  - rewrite <- Z.pow_add_r by lia. f_equal. lia.
Qed.

(** Values below [2^(K+900)] round far below the overflow threshold. *)
Lemma RZ_small K X :
  1074 <= K -> 0 < X <= 2 ^ (K + 900) -> RZ K X < 2 ^ 2046.
Proof.
  intros HK HX.
  apply Z.le_lt_trans with (RZ K (2 ^ (K + 900))).
  - apply RZ_mono; lia.
  - rewrite RZ_pow2 by lia. apply Z.pow_lt_mono_r; lia.
Qed.

Lemma binary_round_value s m e K :
  1074 <= K -> 0 <= e + K ->
  let X := Zpos m * 2 ^ (e + K) in
  RZ K X < 2 ^ 2046 ->
  let f := binary_round F64.prec F64.emax s m e in
  wf f = true /\ V f = cond_Zopp s (RZ K X).
Proof.
  intros HK HeK X Hsmall. cbv zeta. unfold binary_round.
  pose proof (shl_align_spec m e (fexp F64.prec F64.emax (Zpos (digits2_pos m) + e)))
    as [A B].
  destruct (shl_align m e _) as [mz ez]. cbn [fst snd] in A, B.
  assert (Hf : -1074 <= fexp F64.prec F64.emax (Zpos (digits2_pos m) + e)).
  { rewrite fexp_unfold. lia. }
  assert (HX : Zpos mz * 2 ^ (ez + K) = X).
  { unfold X. rewrite B, <- Z.mul_assoc, <- Z.pow_add_r by lia. do 2 f_equal. lia. }
  pose proof (bra_value s mz ez K HK ltac:(lia)) as H. cbv zeta in H.
  rewrite HX in H. apply H. exact Hsmall.
Qed.

Lemma binary_normalize_value z e K :
  1074 <= K -> 0 <= e + K ->
  Z.abs (z * 2 ^ (e + K)) <= 2 ^ (K + 900) ->
  let f := binary_normalize F64.prec F64.emax z e false in
  wf f = true /\ V f = RS K (z * 2 ^ (e + K)).
Proof.
  intros HK HeK Hs. cbv zeta.
  assert (PK : 0 < 2 ^ (e + K)) by (apply pow2_pos; lia).
  destruct z as [|p|p]; cbn [binary_normalize].
  - auto.
  - assert (Hp : 0 < Zpos p * 2 ^ (e + K)) by lia.
    destruct (Zpos p * 2 ^ (e + K)) as [|x|x] eqn:E; try lia.
    cbn [RS]. rewrite <- E.
    pose proof (binary_round_value false p e K HK HeK) as H. cbv zeta in H.
    apply H. apply RZ_small; lia.
  - assert (Hp : Zneg p * 2 ^ (e + K) < 0) by lia.
    destruct (Zneg p * 2 ^ (e + K)) as [|x|x] eqn:E; try lia.
    cbn [RS]. rewrite <- E.
    replace (- (Zneg p * 2 ^ (e + K))) with (Zpos p * 2 ^ (e + K)) by lia.
    pose proof (binary_round_value true p e K HK HeK) as H. cbv zeta in H.
    apply H. apply RZ_small; lia.
Qed.

Lemma RS_cond_Zopp K s X :
  0 < X -> RS K (cond_Zopp s X) = cond_Zopp s (RZ K X).
Proof.
  intros HX. destruct X as [|x|x]; try lia.
  destruct s; cbn [cond_Zopp Z.opp RS]; reflexivity.
Qed.

Lemma cond_Zopp_mul sx sy a b :
  cond_Zopp sx a * cond_Zopp sy b = cond_Zopp (xorb sx sy) (a * b).
Proof. destruct sx, sy; cbn [cond_Zopp xorb]; lia. Qed.

Lemma V_finite_abs (s : bool) m e : -1074 <= e -> 0 < Zpos m * 2 ^ (e + 1074).
Proof. intros. assert (0 < 2 ^ (e + 1074)) by (apply pow2_pos; lia). lia. Qed.

Lemma mul_value x y :
  wf x = true -> wf y = true ->
  Z.abs (V x * V y) <= 2 ^ (2148 + 900) ->
  wf (F64.mul x y) = true /\ V (F64.mul x y) = RS 2148 (V x * V y).
Proof.
  intros Hx Hy Hs.
  destruct x as [sx| | |sx mx ex], y as [sy| | |sy my ey]; try discriminate;
    cbn [F64.mul SFmul V wf]; rewrite ?Z.mul_0_l, ?Z.mul_0_r; auto.
  cbn [wf] in Hx, Hy. apply Z.leb_le in Hx, Hy.
  cbn [V] in Hs. rewrite cond_Zopp_mul in *.
  assert (E : Zpos mx * 2 ^ (ex + 1074) * (Zpos my * 2 ^ (ey + 1074))
              = Zpos (mx * my) * 2 ^ (ex + ey + 2148)).
  { clear - Hx Hy. rewrite Pos2Z.inj_mul.
    replace (ex + ey + 2148) with ((ex + 1074) + (ey + 1074)) by lia.
    rewrite (Z.pow_add_r 2 (ex + 1074) (ey + 1074)) by lia. ring. }
  rewrite E in *.
  assert (HX : 0 < Zpos (mx * my) * 2 ^ (ex + ey + 2148)).
  { clear - Hx Hy. assert (0 < 2 ^ (ex + ey + 2148)) by (apply pow2_pos; lia). lia. }
  rewrite RS_cond_Zopp by exact HX.
  apply (bra_value (xorb sx sy) (mx * my) (ex + ey) 2148); try lia.
  apply RZ_small; [lia|]. split; [exact HX|].
  destruct (xorb sx sy); cbn [cond_Zopp] in Hs; lia.
Qed.

Lemma add_value x y :
  wf x = true -> wf y = true ->
  Z.abs (V x + V y) <= 2 ^ (1074 + 900) ->
  wf (F64.add x y) = true /\ V (F64.add x y) = add_spec x y.
Proof.
  intros Hx Hy Hs. unfold add_spec.
  destruct x as [sx| | |sx mx ex], y as [sy| | |sy my ey]; try discriminate;
    cbn [F64.add SFadd F64.is_zero]; auto.
  - destruct sx, sy; auto.
  - cbn [wf] in Hx, Hy. apply Z.leb_le in Hx, Hy.
    pose proof (shl_align_spec mx ex (Z.min ex ey)) as [_ Bx].
    pose proof (shl_align_spec my ey (Z.min ex ey)) as [_ By].
    rewrite Bx, By.
    replace (Z.min ex (Z.min ex ey)) with (Z.min ex ey) by lia.
    replace (Z.min ey (Z.min ex ey)) with (Z.min ex ey) by lia.
    set (ez := Z.min ex ey).
    set (S := cond_Zopp sx _ + cond_Zopp sy _).
    assert (ES : S * 2 ^ (ez + 1074) = V (S754_finite sx mx ex) + V (S754_finite sy my ey)).
    { unfold S. cbn [V]. rewrite Z.mul_add_distr_r.
      assert (Hc : forall s a b, cond_Zopp s a * b = cond_Zopp s (a * b))
        by (intros [] ? ?; cbn [cond_Zopp]; lia).
      rewrite !Hc, <- !Z.mul_assoc, <- !Z.pow_add_r by lia.
      do 4 f_equal; lia. }
    rewrite <- ES in *.
    apply binary_normalize_value; lia.
Qed.

Lemma RZ_id X :
  0 < X -> X mod 2 ^ (ulp_exp 1074 X + 1074) = 0 -> RZ 1074 X = X.
Proof.
  intros HX Hm. pose proof (ulp_exp_ge 1074 X) as Hg.
  apply Z.div_exact in Hm; [|assert (0 < 2 ^ (ulp_exp 1074 X + 1074)) by (apply pow2_pos; lia); lia].
  rewrite (RZ_exact 1074 X (X / 2 ^ (ulp_exp 1074 X + 1074))); lia.
Qed.

Lemma RS_int z : Z.abs z < 2 ^ 53 -> RS 1074 (z * 2 ^ 1074) = z * 2 ^ 1074.
Proof.
  intros Hz.
  assert (Hpos : forall p, Zpos p < 2 ^ 53 -> RZ 1074 (Zpos p * 2 ^ 1074) = Zpos p * 2 ^ 1074).
  { intros p Hp. apply RZ_id; [lia|].
    assert (Hu : ulp_exp 1074 (Zpos p * 2 ^ 1074) <= 0).
    { unfold ulp_exp. rewrite Z.log2_mul_pow2 by lia. rewrite fexp_unfold.
      assert (Z.log2 (Zpos p) < 53) by (apply Z.log2_lt_pow2; lia). lia. }
    pose proof (ulp_exp_ge 1074 (Zpos p * 2 ^ 1074)) as Hg.
    set (u := ulp_exp 1074 _) in *.
    replace 1074 with ((- u) + (u + 1074)) at 1 by lia.
    rewrite Z.pow_add_r by lia. rewrite Z.mul_assoc. apply Z.mod_mul.
    assert (0 < 2 ^ (u + 1074)) by (apply pow2_pos; lia). lia. }
  destruct z as [|p|p].
  - reflexivity.
  - change (Zpos p * 2 ^ 1074) with (Zpos (p * Z.to_pos (2 ^ 1074))) at 1.
    cbn [RS]. change (Zpos (p * Z.to_pos (2 ^ 1074))) with (Zpos p * 2 ^ 1074).
    apply Hpos. lia.
  - change (Zneg p * 2 ^ 1074) with (Zneg (p * Z.to_pos (2 ^ 1074))) at 1.
    cbn [RS]. change (- Zneg (p * Z.to_pos (2 ^ 1074))) with (Zpos p * 2 ^ 1074).
    rewrite Hpos by lia. lia.
Qed.

Lemma of_int_small z :
  Z.abs z < 2 ^ 53 ->
  exists f, F64.of_int z = Ok f /\ wf f = true /\ V f = z * 2 ^ 1074
            /\ F64.is_zero f = (z =? 0).
Proof.
  intros Hz. unfold F64.of_int.
  assert (P : 0 < 2 ^ 1074) by (apply pow2_pos; lia).
  pose proof (binary_normalize_value z 0 1074 ltac:(lia) ltac:(lia)) as H.
  cbv zeta in H. rewrite Z.add_0_l in H.
  assert (Hs : Z.abs (z * 2 ^ 1074) <= 2 ^ (1074 + 900)).
  { rewrite Z.abs_mul, (Z.abs_eq (2 ^ 1074)) by lia.
    replace (1074 + 900) with (900 + 1074) by lia. rewrite (Z.pow_add_r 2 900) by lia.
    apply Z.mul_le_mono_nonneg_r; [lia|].
    apply Z.le_trans with (2 ^ 53); [lia | apply Z.pow_le_mono_r; lia]. }
  destruct (H Hs) as [Hwf HV]. rewrite RS_int in HV by exact Hz.
  exists (binary_normalize F64.prec F64.emax z 0 false).
  destruct (binary_normalize F64.prec F64.emax z 0 false) as [s| | |s m e] eqn:E;
    try discriminate; repeat split; auto; cbn [F64.is_zero].
  - cbn [V] in HV. symmetry. apply Z.eqb_eq. lia.
  - cbn [V wf] in HV, Hwf. apply Z.leb_le in Hwf.
    pose proof (V_finite_abs s m e Hwf). symmetry. apply Z.eqb_neq.
    destruct s; cbn [cond_Zopp] in HV; lia.
Qed.

Lemma to_int_value f :
  wf f = true -> F64.to_int f = Ok (Z.quot (V f) (2 ^ 1074)).
Proof.
  intros Hf. assert (P : 0 < 2 ^ 1074) by (apply pow2_pos; lia).
  destruct f as [s| | |s m e]; try discriminate; cbn [F64.to_int V].
  - reflexivity.
  - cbn [wf] in Hf. apply Z.leb_le in Hf. f_equal.
    assert (Habs : Z.quot (Zpos m * 2 ^ (e + 1074)) (2 ^ 1074)
                   = match e with
                     | Zneg p => Z.shiftr (Zpos m) (Zpos p)
                     | _ => Z.shiftl (Zpos m) e
                     end).
    { assert (Pe : 0 < 2 ^ (e + 1074)) by (apply pow2_pos; lia).
      rewrite Z.quot_div_nonneg by lia.
      destruct e as [|p|p].
      - rewrite Z.shiftl_0_r, Z.add_0_l, Z.div_mul by lia. reflexivity.
      - rewrite Z.shiftl_mul_pow2 by lia. rewrite Z.pow_add_r by lia.
        rewrite Z.mul_assoc, Z.div_mul by lia. reflexivity.
      - rewrite Z.shiftr_div_pow2 by lia.
        replace (2 ^ 1074) with (2 ^ Zpos p * 2 ^ (Zneg p + 1074)).
        + assert (0 < 2 ^ Zpos p) by (apply pow2_pos; lia).
          rewrite Z.div_mul_cancel_r by lia. reflexivity.
        + rewrite <- Z.pow_add_r by lia. f_equal. lia. }
    rewrite <- Habs. destruct s; cbn [cond_Zopp].
    + rewrite Z.quot_opp_l by lia. reflexivity.
    + reflexivity.
Qed.

Lemma to_int_mono x y :
  V x <= V y -> Z.quot (V x) (2 ^ 1074) <= Z.quot (V y) (2 ^ 1074).
Proof.
  intros H. apply Z.quot_le_mono; [apply pow2_pos; lia | exact H].
Qed.

Lemma canonical_bounds m e :
  canonical_mantissa F64.prec F64.emax m e = true ->
  -1074 <= e /\ Zpos m < 2 ^ 53 /\ (-1074 < e -> 2 ^ 52 <= Zpos m).
Proof.
  unfold canonical_mantissa. intros H. apply Z.eqb_eq in H.
  rewrite fexp_unfold in H.
  change (Zpos (digits2_pos m)) with (Zdigits2 (Zpos m)) in H.
  rewrite Zdigits2_log2 in H.
  pose proof (Z.log2_spec (Zpos m) ltac:(lia)) as [L U].
  pose proof (Z.log2_nonneg (Zpos m)) as N.
  split; [lia|]. split.
  - eapply Z.lt_le_trans; [exact U|]. apply Z.pow_le_mono_r; lia.
  - intros He. eapply Z.le_trans; [|exact L]. apply Z.pow_le_mono_r; lia.
Qed.

Lemma valid_finite_wf f : valid f = true -> is_finite f = true -> wf f = true.
Proof.
  destruct f as [s| | |s m e]; try discriminate; auto.
  unfold valid. cbn [valid_binary wf]. unfold bounded. intros H _.
  apply andb_true_iff in H. destruct H as [H _].
  apply canonical_bounds in H. apply Z.leb_le. lia.
Qed.

Lemma canonical_lt m1 e1 m2 e2 :
  canonical_mantissa F64.prec F64.emax m1 e1 = true ->
  canonical_mantissa F64.prec F64.emax m2 e2 = true ->
  e1 < e2 ->
  Zpos m1 * 2 ^ (e1 + 1074) < Zpos m2 * 2 ^ (e2 + 1074).
Proof.
  intros C1 C2 Hlt.
  apply canonical_bounds in C1, C2.
  destruct C1 as (L1 & U1 & _). destruct C2 as (L2 & _ & B2).
  specialize (B2 ltac:(lia)).
  assert (P1 : 0 < 2 ^ (e1 + 1074)) by (apply pow2_pos; lia).
  assert (P2 : 0 < 2 ^ (e2 + 1074)) by (apply pow2_pos; lia).
  apply Z.lt_le_trans with (2 ^ 53 * 2 ^ (e1 + 1074)).
  - apply Z.mul_lt_mono_pos_r; assumption.
  - apply Z.le_trans with (2 ^ 52 * 2 ^ (e2 + 1074)).
    + rewrite <- !Z.pow_add_r by lia. apply Z.pow_le_mono_r; lia.
    + apply Z.mul_le_mono_nonneg_r; lia.
Qed.

Lemma valid_canonical s m e :
  valid (S754_finite s m e) = true ->
  canonical_mantissa F64.prec F64.emax m e = true.
Proof.
  unfold valid. cbn [valid_binary]. unfold bounded. intros H.
  apply andb_true_iff in H. tauto.
Qed.

Lemma leb_V x y :
  valid x = true -> valid y = true ->
  is_finite x = true -> is_finite y = true ->
  F64.leb x y = true -> V x <= V y.
Proof.
  intros Vx Vy Fx Fy H.
  destruct x as [sx| | |sx mx ex], y as [sy| | |sy my ey]; try discriminate;
    cbn [V]; try lia.
  - (* zero <= finite *)
    pose proof (valid_canonical _ _ _ Vy) as Cy. apply canonical_bounds in Cy.
    pose proof (V_finite_abs sy my ey ltac:(lia)).
    destruct sy; [discriminate|]. cbn [cond_Zopp]. lia.
  - (* finite <= zero *)
    pose proof (valid_canonical _ _ _ Vx) as Cx. apply canonical_bounds in Cx.
    pose proof (V_finite_abs sx mx ex ltac:(lia)).
    destruct sx; [|discriminate]. cbn [cond_Zopp]. lia.
  - pose proof (valid_canonical _ _ _ Vx) as Cx.
    pose proof (valid_canonical _ _ _ Vy) as Cy.
    pose proof (canonical_bounds _ _ Cx) as Bx.
    pose proof (canonical_bounds _ _ Cy) as By.
    pose proof (V_finite_abs sx mx ex ltac:(lia)).
    pose proof (V_finite_abs sy my ey ltac:(lia)).
    unfold F64.leb, SFleb, SFcompare in H.
    destruct sx, sy; cbn [cond_Zopp]; try lia; try discriminate.
    + destruct (Z.compare_spec ex ey) as [E|E|E]; try discriminate.
      * subst ey. rewrite Pos.compare_cont_spec in H. cbn [Pos.switch_Eq] in H.
        destruct (Pos.compare_spec mx my) as [E'|E'|E']; try discriminate.
        -- subst. lia.
        -- assert (Zpos my < Zpos mx) by lia. nia.
      * pose proof (canonical_lt _ _ _ _ Cy Cx E). lia.
    + destruct (Z.compare_spec ex ey) as [E|E|E]; try discriminate.
      * subst ey. rewrite Pos.compare_cont_spec in H. cbn [Pos.switch_Eq] in H.
        destruct (Pos.compare_spec mx my) as [E'|E'|E']; try discriminate.
        -- subst. lia.
        -- assert (Zpos mx < Zpos my) by lia. nia.
      * pose proof (canonical_lt _ _ _ _ Cx Cy E). lia.
Qed.

Lemma in_unit_V t :
  in_unit t = true -> wf t = true /\ 0 <= V t <= 2 ^ 1074.
Proof.
  unfold in_unit. intros H.
  apply andb_true_iff in H. destruct H as [H H1].
  apply andb_true_iff in H. destruct H as [Hv H0].
  assert (Hf : is_finite t = true).
  { destruct t as [s|s| |s m e]; auto; try discriminate.
    destruct s; discriminate. }
  split; [apply valid_finite_wf; assumption|].
  pose proof (leb_V F64.zero t eq_refl Hv eq_refl Hf H0) as A.
  pose proof (leb_V t F64.one Hv eq_refl Hf eq_refl H1) as B.
  cbn [V F64.zero] in A. split; [exact A|].
  etransitivity; [exact B|]. vm_compute. discriminate.
Qed.

Lemma RZ_int K p :
  1074 <= K -> Zpos p < 2 ^ 53 -> RZ K (Zpos p * 2 ^ K) = Zpos p * 2 ^ 1074.
Proof.
  intros HK Hp.
  assert (PK : 0 < 2 ^ K) by (apply pow2_pos; lia).
  assert (Hu : ulp_exp K (Zpos p * 2 ^ K) <= 0).
  { unfold ulp_exp. rewrite Z.log2_mul_pow2 by lia. rewrite fexp_unfold.
    assert (Z.log2 (Zpos p) < 53) by (apply Z.log2_lt_pow2; lia). lia. }
  pose proof (ulp_exp_ge K (Zpos p * 2 ^ K)) as Hg.
  set (u := ulp_exp K _) in *.
  rewrite (RZ_exact K (Zpos p * 2 ^ K) (Zpos p * 2 ^ (- u))); fold u; try lia.
  - rewrite <- Z.mul_assoc, <- Z.pow_add_r by lia. do 2 f_equal. lia.
  - rewrite <- Z.mul_assoc, <- Z.pow_add_r by lia. do 2 f_equal. lia.
Qed.

Lemma RS_int_scaled K z :
  1074 <= K -> Z.abs z < 2 ^ 53 -> RS K (z * 2 ^ K) = z * 2 ^ 1074.
Proof.
  intros HK Hz. assert (PK : 0 < 2 ^ K) by (apply pow2_pos; lia).
  destruct z as [|p|p].
  - reflexivity.
  - destruct (Zpos p * 2 ^ K) as [|x|x] eqn:E; try lia.
    cbn [RS]. rewrite <- E. apply RZ_int; lia.
  - destruct (Zneg p * 2 ^ K) as [|x|x] eqn:E; try lia.
    cbn [RS]. rewrite <- E.
    replace (- (Zneg p * 2 ^ K)) with (Zpos p * 2 ^ K) by lia.
    rewrite RZ_int by lia. lia.
Qed.

Lemma RS_opp K X : RS K (- X) = - RS K X.
Proof. destruct X; cbn [RS Z.opp]; lia. Qed.

Lemma RS_bound K X j :
  1074 <= K -> K - 1074 <= j -> Z.abs X <= 2 ^ j ->
  Z.abs (RS K X) <= 2 ^ (j - K + 1074).
Proof.
  intros HK Hj HX.
  assert (Pj : 0 < 2 ^ j) by (apply pow2_pos; lia).
  assert (E : RS K (2 ^ j) = 2 ^ (j - K + 1074)).
  { destruct (2 ^ j) as [|x|x] eqn:E2; try lia. cbn [RS]. rewrite <- E2.
    apply RZ_pow2; lia. }
  pose proof (RS_mono K X (2 ^ j) HK ltac:(lia)) as U.
  pose proof (RS_mono K (- 2 ^ j) X HK ltac:(lia)) as L.
  rewrite RS_opp in L. rewrite E in *. lia.
Qed.

Lemma lerp_sum_mono a P Q : P <= Q -> lerp_sum a P <= lerp_sum a Q.
Proof.
  intros H. unfold lerp_sum. destruct (a =? 0); [exact H|].
  apply RS_mono; lia.
Qed.

Lemma pow2_le_mono a b : 0 <= a <= b -> 2 ^ a <= 2 ^ b.
Proof. intros. apply Z.pow_le_mono_r; lia. Qed.

Lemma of_int_fz z :
  Z.abs z < 2 ^ 53 ->
  F64.of_int z = Ok (fz z) /\ wf (fz z) = true /\ V (fz z) = z * 2 ^ 1074
  /\ F64.is_zero (fz z) = (z =? 0).
Proof.
  intros Hz. destruct (of_int_small z Hz) as (f & E & W & HV & Z0).
  assert (Ef : f = fz z).
  { unfold F64.of_int in E. fold (fz z) in E.
    destruct (fz z); inversion E; reflexivity. }
  subst f. auto.
Qed.

Lemma lerp_channel_to_int t a b :
  channel a -> channel b ->
  lerp_channel (Flt t) (a, b) = F64.to_int (lerp_float a b t).
Proof.
  unfold channel. intros Ha Hb.
  assert (P52 : 2 ^ 52 + 2 ^ 52 = 2 ^ 53) by reflexivity.
  destruct (of_int_fz (b - a) ltac:(lia)) as (Ed & _).
  destruct (of_int_fz a ltac:(lia)) as (Ea & _).
  unfold lerp_channel, int_of, lift2, int_, var. cbn [bind num_sub num_mul num_add].
  unfold float_op. cbn [to_float bind]. rewrite Ed. cbn [bind]. rewrite Ea.
  reflexivity.
Qed.

Lemma lerp_float_value t a b :
  wf t = true -> 0 <= V t <= 2 ^ 1074 ->
  channel a -> channel b ->
  wf (lerp_float a b t) = true /\
  V (lerp_float a b t) = lerp_sum a (RS 2148 ((b - a) * 2 ^ 1074 * V t)).
Proof.
  unfold channel. intros Ht Hvt Ha Hb.
  assert (P52 : 2 ^ 52 + 2 ^ 52 = 2 ^ 53) by reflexivity.
  destruct (of_int_fz (b - a) ltac:(lia)) as (_ & Wd & Vd & Zd).
  destruct (of_int_fz a ltac:(lia)) as (_ & Wa & Va & Za).
  unfold lerp_float. set (fd := fz (b - a)) in *. set (fa := fz a) in *.
  assert (P1074 : 0 < 2 ^ 1074) by (apply pow2_pos; lia).
  (* the product *)
  assert (Hprod : Z.abs (V fd * V t) <= 2 ^ 2201).
  { rewrite Vd, Z.abs_mul, Z.abs_mul, (Z.abs_eq (2 ^ 1074)), (Z.abs_eq (V t)) by lia.
    change (2 ^ 2201) with (2 ^ 53 * 2 ^ 1074 * 2 ^ 1074).
    apply Z.mul_le_mono_nonneg; try lia. }
  destruct (mul_value fd t Wd Ht) as [Wp Vp].
  { etransitivity; [exact Hprod|]. apply pow2_le_mono. lia. }
  pose proof (RS_bound 2148 (V fd * V t) 2201 ltac:(lia) ltac:(lia) Hprod) as Bp.
  rewrite <- Vp in Bp. change (2201 - 2148 + 1074) with 1127 in Bp.
  (* the sum *)
  assert (Hsum : Z.abs (V fa + V (F64.mul fd t)) <= 2 ^ (1074 + 900)).
  { apply Z.le_trans with (2 ^ 1126 + 2 ^ 1127).
    - rewrite Va.
      assert (Z.abs (a * 2 ^ 1074) <= 2 ^ 1126).
      { rewrite Z.abs_mul, (Z.abs_eq (2 ^ 1074)) by lia.
        change (2 ^ 1126) with (2 ^ 52 * 2 ^ 1074).
        apply Z.mul_le_mono_nonneg_r; lia. }
      lia.
    - apply Z.le_trans with (2 ^ 1128); [|apply pow2_le_mono; lia].
      change (2 ^ 1128) with (2 ^ 1127 + 2 ^ 1127).
      assert (2 ^ 1126 <= 2 ^ 1127) by (apply pow2_le_mono; lia). lia. }
  destruct (add_value fa (F64.mul fd t) Wa Wp Hsum) as [Ws Vs].
  split; [exact Ws|].
  rewrite Vs. unfold add_spec, lerp_sum. rewrite Za, Vp, Vd, Va.
  destruct (Z.eqb_spec a 0) as [E0|N0]; [reflexivity|].
  destruct (F64.is_zero (F64.mul fd t)) eqn:Zp; [|reflexivity].
  assert (V (F64.mul fd t) = 0) by (destruct (F64.mul fd t); try discriminate; reflexivity).
  rewrite <- Vd, <- Vp, H, Z.add_0_r. symmetry. apply RS_int. lia.
Qed.

Lemma lerp_channel_float t a b :
  wf t = true -> 0 <= V t <= 2 ^ 1074 ->
  channel a -> channel b ->
  lerp_channel (Flt t) (a, b) = Ok (lerp_value a b (V t)).
Proof.
  intros Ht Hvt Ha Hb.
  destruct (lerp_float_value t a b Ht Hvt Ha Hb) as [W E].
  rewrite lerp_channel_to_int by assumption.
  rewrite to_int_value by exact W. unfold lerp_value. rewrite E. reflexivity.
Qed.

Lemma lerp_channel_int k a b :
  lerp_channel (Int k) (a, b) = Ok (a + (b - a) * k).
Proof. reflexivity. Qed.

Lemma lerp_color_value a b t :
  Forall channel a -> Forall channel b ->
  wf t = true -> 0 <= V t <= 2 ^ 1074 ->
  lerp_color a b (Flt t)
  = Ok (map (fun ab => lerp_value (fst ab) (snd ab) (V t)) (zip a b)).
Proof.
  intros Ha. revert b. unfold lerp_color.
  induction Ha as [|x a Hx Ha IH]; intros b Hb Wt Vt.
  - reflexivity.
  - destruct Hb as [|y b Hy Hb]; [reflexivity|].
    cbn [zip mapM map fst snd].
    rewrite lerp_channel_float by (assumption || exact Hx || exact Hy).
    cbn [bind]. rewrite IH by assumption. reflexivity.
Qed.

Lemma zip_length {A B} (xs : list A) (ys : list B) :
  List.length (zip xs ys) = Nat.min (List.length xs) (List.length ys).
Proof.
  revert ys. induction xs as [|x xs IH]; intros [|y ys]; cbn [zip List.length Nat.min];
    try reflexivity. rewrite IH. reflexivity.
Qed.

Lemma zip_firstn {A B} (xs : list A) (ys : list B) :
  zip (firstn (Nat.min (List.length xs) (List.length ys)) xs)
      (firstn (Nat.min (List.length xs) (List.length ys)) ys) = zip xs ys.
Proof.
  revert ys. induction xs as [|x xs IH]; intros [|y ys];
    cbn [zip List.length Nat.min firstn]; try reflexivity.
  rewrite IH. reflexivity.
Qed.

Lemma nth_zip_map {A B C} (f : A * B -> C) (xs : list A) (ys : list B) i da db dc :
  (i < List.length xs)%nat -> List.length xs = List.length ys ->
  nth i (map f (zip xs ys)) dc = f (nth i xs da, nth i ys db).
Proof.
  revert ys i. induction xs as [|x xs IH]; intros [|y ys] i Hi Hl;
    cbn [List.length] in *; try lia.
  destruct i as [|i]; cbn [zip map nth]; [reflexivity|].
  apply IH; lia.
Qed.

Lemma Forall_nth_channel a i : Forall channel a -> channel (nth i a 0).
Proof.
  intros H. revert i. induction H as [|x a Hx Ha IH]; intros [|i]; cbn [nth];
    auto; unfold channel; cbn; lia.
Qed.

Lemma quot_truncates v :
  let k := Z.quot v (2 ^ 1074) in
  Z.abs k * 2 ^ 1074 <= Z.abs v < (Z.abs k + 1) * 2 ^ 1074 /\ 0 <= k * v.
Proof.
  cbv zeta. assert (P : 0 < 2 ^ 1074) by (apply pow2_pos; lia).
  set (d := 2 ^ 1074) in *. clearbody d.
  rewrite <- (Z.quot_abs v d) by lia. rewrite (Z.abs_eq d) by lia.
  rewrite Z.quot_div_nonneg by lia.
  pose proof (Z.div_mod (Z.abs v) d ltac:(lia)) as E.
  pose proof (Z.mod_pos_bound (Z.abs v) d P) as B.
  split; [lia|].
  destruct (Z.le_gt_cases 0 v) as [Hv|Hv].
  - apply Z.mul_nonneg_nonneg; [apply Z.quot_pos; lia | exact Hv].
  - replace v with (- (- v)) at 1 by lia. rewrite Z.quot_opp_l by lia.
    assert (0 <= Z.quot (- v) d) by (apply Z.quot_pos; lia). nia.
Qed.

Lemma lerp_value_mono a b u v :
  a <= b -> u <= v -> lerp_value a b u <= lerp_value a b v.
Proof.
  intros Hab Huv. unfold lerp_value.
  apply Z.quot_le_mono; [apply pow2_pos; lia|].
  apply lerp_sum_mono. apply RS_mono; [lia|].
  apply Z.mul_le_mono_nonneg_l; [|exact Huv].
  assert (0 < 2 ^ 1074) by (apply pow2_pos; lia). nia.
Qed.

Lemma lerp_value_anti a b u v :
  b <= a -> u <= v -> lerp_value a b v <= lerp_value a b u.
Proof.
  intros Hab Huv. unfold lerp_value.
  apply Z.quot_le_mono; [apply pow2_pos; lia|].
  apply lerp_sum_mono. apply RS_mono; [lia|].
  assert (0 < 2 ^ 1074) by (apply pow2_pos; lia).
  assert ((b - a) * 2 ^ 1074 <= 0) by nia. nia.
Qed.

Lemma lerp_value_0 a b : channel a -> lerp_value a b 0 = a.
Proof.
  unfold channel. intros Ha. unfold lerp_value, lerp_sum.
  assert (P : 0 < 2 ^ 1074) by (apply pow2_pos; lia).
  rewrite Z.mul_0_r. cbn [RS].
  destruct (Z.eqb_spec a 0) as [E|N].
  - subst. reflexivity.
  - rewrite Z.add_0_r, RS_int by lia. apply Z.quot_mul. lia.
Qed.

Lemma lerp_value_1 a b : channel a -> channel b -> lerp_value a b (2 ^ 1074) = b.
Proof.
  unfold channel. intros Ha Hb. unfold lerp_value, lerp_sum.
  assert (P : 0 < 2 ^ 1074) by (apply pow2_pos; lia).
  assert (P52 : 2 ^ 52 + 2 ^ 52 = 2 ^ 53) by reflexivity.
  replace ((b - a) * 2 ^ 1074 * 2 ^ 1074) with ((b - a) * 2 ^ 2148)
    by (rewrite <- Z.mul_assoc, <- Z.pow_add_r by lia; reflexivity).
  rewrite RS_int_scaled by lia.
  destruct (Z.eqb_spec a 0) as [E|N].
  - subst. rewrite Z.sub_0_r. apply Z.quot_mul. lia.
  - replace (a * 2 ^ 1074 + (b - a) * 2 ^ 1074) with (b * 2 ^ 1074) by lia.
    rewrite RS_int by lia. apply Z.quot_mul. lia.
Qed.

(** C2: with colours of the same number of channels and [0 <= t <= 1],
    [lerp_color] returns one channel per input channel, and channel [i] is
    [int(a_i + (b_i - a_i) * t)]: the double [a_i + (b_i - a_i) * t]
    truncated toward zero (the integer nearest to zero within one unit of
    it), not rounded to nearest. *)
Theorem lerp_color_channels_truncated (a b : color) (t : F64.float) :
  List.length a = List.length b ->
  Forall channel a -> Forall channel b -> in_unit t = true ->
  exists c,
    lerp_color a b (Flt t) = Ok c /\ List.length c = List.length a /\
    forall i, (i < List.length a)%nat ->
      let x := lerp_float (nth i a 0) (nth i b 0) t in
      wf x = true /\ F64.to_int x = Ok (nth i c 0) /\
      Z.abs (nth i c 0) * 2 ^ 1074 <= Z.abs (V x) < (Z.abs (nth i c 0) + 1) * 2 ^ 1074 /\
      0 <= nth i c 0 * V x.
Proof.
  intros Hl Ha Hb Ht. destruct (in_unit_V t Ht) as [Wt Vt].
  eexists. split; [apply lerp_color_value; assumption|].
  split; [rewrite length_map, zip_length; lia|].
  intros i Hi. cbv zeta.
  rewrite (nth_zip_map _ a b i 0 0 0) by assumption. cbn [fst snd].
  pose proof (Forall_nth_channel a i Ha) as Ca.
  pose proof (Forall_nth_channel b i Hb) as Cb.
  destruct (lerp_float_value t _ _ Wt Vt Ca Cb) as [W E].
  split; [exact W|]. split.
  - rewrite to_int_value by exact W. unfold lerp_value. rewrite E. reflexivity.
  - unfold lerp_value. rewrite <- E. apply quot_truncates.
Qed.

Lemma lerp_color_channels_truncated_witness :
  exists c, lerp_color [0; 255; 48] [255; 0; 64] (Flt (F64.dec 999 1000)) = Ok c /\
            c = [254; 0; 63].
Proof.
  destruct (lerp_color_channels_truncated [0; 255; 48] [255; 0; 64] (F64.dec 999 1000))
    as (c & E & _).
  - reflexivity.
  - repeat constructor; unfold channel; cbn; lia.
  - repeat constructor; unfold channel; cbn; lia.
  - vm_compute. reflexivity.
  - exists c. split; [exact E|].
    assert (E' : lerp_color [0; 255; 48] [255; 0; 64] (Flt (F64.dec 999 1000))
                 = Ok [254; 0; 63]) by (vm_compute; reflexivity).
    congruence.
Defined.

Lemma in_unit_finite t : in_unit t = true -> valid t = true /\ is_finite t = true.
Proof.
  unfold in_unit. intros H.
  apply andb_true_iff in H. destruct H as [H H1].
  apply andb_true_iff in H. destruct H as [Hv H0].
  split; [exact Hv|].
  destruct t as [s|s| |s m e]; try discriminate; try reflexivity.
  destruct s; discriminate.
Qed.

Lemma lerp_color_int k a b :
  List.length a = List.length b ->
  lerp_color a b (Int k) = Ok (map (fun ab => fst ab + (snd ab - fst ab) * k) (zip a b)).
Proof.
  unfold lerp_color. revert b.
  induction a as [|x a IH]; intros [|y b] Hl; cbn [List.length] in Hl;
    try discriminate; [reflexivity|].
  cbn [zip mapM map fst snd]. rewrite lerp_channel_int. cbn [bind].
  rewrite IH by lia. reflexivity.
Qed.

Lemma map_zip_fst (f : Z * Z -> Z) a b :
  List.length a = List.length b ->
  (forall x y, In x a -> In y b -> f (x, y) = x) ->
  map f (zip a b) = a.
Proof.
  revert b. induction a as [|x a IH]; intros [|y b] Hl Hf; cbn [List.length] in Hl;
    try discriminate; [reflexivity|].
  cbn [zip map]. rewrite Hf by (left; reflexivity). f_equal.
  apply IH; [lia|]. intros. apply Hf; right; assumption.
Qed.

Lemma map_zip_snd (f : Z * Z -> Z) a b :
  List.length a = List.length b ->
  (forall x y, In x a -> In y b -> f (x, y) = y) ->
  map f (zip a b) = b.
Proof.
  revert b. induction a as [|x a IH]; intros [|y b] Hl Hf; cbn [List.length] in Hl;
    try discriminate; [reflexivity|].
  cbn [zip map]. rewrite Hf by (left; reflexivity). f_equal.
  apply IH; [lia|]. intros. apply Hf; right; assumption.
Qed.

(** C3: for fixed endpoint colours and [0 <= t1 <= t2 <= 1], every channel
    of [lerp_color a b t] is monotonic in [t] (non-decreasing where
    [a_i <= b_i], non-increasing where [b_i <= a_i]), and the endpoints are
    reproduced exactly: [lerp_color a b 0 = a] and [lerp_color a b 1 = b],
    for the floats [0.0] and [1.0] and for the integers [0] and [1]. *)
Theorem lerp_color_monotone_endpoints (a b : color) (t1 t2 : F64.float) :
  List.length a = List.length b ->
  Forall channel a -> Forall channel b ->
  in_unit t1 = true -> in_unit t2 = true -> F64.leb t1 t2 = true ->
  (exists c1 c2,
      lerp_color a b (Flt t1) = Ok c1 /\ lerp_color a b (Flt t2) = Ok c2 /\
      forall i, (i < List.length a)%nat ->
        (nth i a 0 <= nth i b 0 -> nth i c1 0 <= nth i c2 0) /\
        (nth i b 0 <= nth i a 0 -> nth i c2 0 <= nth i c1 0)) /\
  lerp_color a b (Flt F64.zero) = Ok a /\
  lerp_color a b (Flt F64.one) = Ok b /\
  lerp_color a b (Int 0) = Ok a /\
  lerp_color a b (Int 1) = Ok b.
Proof.
  intros Hl Ha Hb H1 H2 Hle.
  destruct (in_unit_V t1 H1) as [W1 V1]. destruct (in_unit_V t2 H2) as [W2 V2].
  destruct (in_unit_finite t1 H1) as [Q1 F1].
  destruct (in_unit_finite t2 H2) as [Q2 F2].
  pose proof (leb_V t1 t2 Q1 Q2 F1 F2 Hle) as Hv.
  assert (P : 0 < 2 ^ 1074) by (apply pow2_pos; lia).
  rewrite Forall_forall in Ha, Hb.
  split; [|split; [|split; [|split]]].
  - eexists. eexists.
    split; [apply lerp_color_value; try assumption; apply Forall_forall; assumption|].
    split; [apply lerp_color_value; try assumption; apply Forall_forall; assumption|].
    intros i Hi.
    rewrite !(nth_zip_map _ a b i 0 0 0) by assumption. cbn [fst snd].
    split; intros Hab.
    + apply lerp_value_mono; assumption.
    + apply lerp_value_anti; assumption.
  - rewrite lerp_color_value; try (apply Forall_forall; assumption); try reflexivity.
    + apply f_equal. apply map_zip_fst; [exact Hl|].
      intros x y Hx Hy. cbn [fst snd V F64.zero]. apply lerp_value_0. auto.
    + cbn [V F64.zero]. lia.
  - rewrite lerp_color_value; try (apply Forall_forall; assumption); try reflexivity.
    + apply f_equal. apply map_zip_snd; [exact Hl|].
      intros x y Hx Hy. cbn [fst snd]. change (V F64.one) with (2 ^ 1074).
      apply lerp_value_1; auto.
    + change (V F64.one) with (2 ^ 1074). lia.
  - rewrite lerp_color_int by exact Hl. apply f_equal. apply map_zip_fst; [exact Hl|].
    intros x y _ _. cbn [fst snd]. lia.
  - rewrite lerp_color_int by exact Hl. apply f_equal. apply map_zip_snd; [exact Hl|].
    intros x y _ _. cbn [fst snd]. lia.
Qed.

Lemma lerp_color_monotone_endpoints_witness :
  lerp_color (PALETTE navy_top) (PALETTE navy_bottom) (Flt F64.zero)
    = Ok (PALETTE navy_top) /\
  lerp_color (PALETTE navy_top) (PALETTE navy_bottom) (Flt F64.one)
    = Ok (PALETTE navy_bottom).
Proof.
  destruct (lerp_color_monotone_endpoints
              (PALETTE navy_top) (PALETTE navy_bottom)
              (F64.dec 25 100) (F64.dec 75 100)) as (_ & E0 & E1 & _).
  - reflexivity.
  - repeat constructor; unfold channel; cbn; lia.
  - repeat constructor; unfold channel; cbn; lia.
  - vm_compute. reflexivity.
  - vm_compute. reflexivity.
  - vm_compute. reflexivity.
  - split; assumption.
Defined.

(** C10: given colours with different numbers of channels, [lerp_color] does
    not fail: it returns as many channels as the shorter colour has, namely
    the interpolation of the two colours cut to that length. *)
Theorem lerp_color_zip_truncates (a b : color) (t : F64.float) :
  Forall channel a -> Forall channel b -> in_unit t = true ->
  exists c,
    lerp_color a b (Flt t) = Ok c /\
    List.length c = Nat.min (List.length a) (List.length b) /\
    lerp_color (firstn (Nat.min (List.length a) (List.length b)) a)
               (firstn (Nat.min (List.length a) (List.length b)) b) (Flt t) = Ok c.
Proof.
  intros Ha Hb Ht. destruct (in_unit_V t Ht) as [Wt Vt].
  eexists. split; [apply lerp_color_value; assumption|].
  split; [rewrite length_map; apply zip_length|].
  unfold lerp_color at 1. rewrite zip_firstn.
  apply lerp_color_value; assumption.
Qed.

Lemma lerp_color_zip_truncates_witness :
  exists c,
    lerp_color (PALETTE navy_top) (PALETTE panel) (Flt (F64.dec 5 10)) = Ok c /\
    List.length c = 3%nat.
Proof.
  destruct (lerp_color_zip_truncates (PALETTE navy_top) (PALETTE panel) (F64.dec 5 10))
    as (c & E & L & _).
  - repeat constructor; unfold channel; cbn; lia.
  - repeat constructor; unfold channel; cbn; lia.
  - vm_compute. reflexivity.
  - exists c. split; [exact E | exact L].
Defined.

Lemma bind_assoc {A B C} (m : result A) (f : A -> result B) (g : B -> result C) :
  bind (bind m f) g = bind m (fun a => bind (f a) g).
Proof. destruct m; reflexivity. Qed.

Lemma for_each_map {A B S} (g : A -> B) (body : B -> S -> result S) xs s :
  for_each (map g xs) body s = for_each xs (fun x => body (g x)) s.
Proof.
  revert s. induction xs as [|x xs IH]; intros s; cbn [map for_each]; [reflexivity|].
  destruct (body (g x) s); cbn [bind]; auto.
Qed.

Lemma for_each_ext {A S} (f g : A -> S -> result S) xs s :
  (forall x s, In x xs -> f x s = g x s) ->
  for_each xs f s = for_each xs g s.
Proof.
  revert s. induction xs as [|x xs IH]; intros s H; cbn [for_each]; [reflexivity|].
  rewrite H by (left; reflexivity). destruct (g x s); cbn [bind]; [|reflexivity].
  apply IH. intros. apply H. right. assumption.
Qed.

Lemma for_each_app {A S} (body : A -> S -> result S) xs ys s :
  for_each (xs ++ ys) body s = bind (for_each xs body s) (for_each ys body).
Proof.
  revert s. induction xs as [|x xs IH]; intros s; cbn [app for_each bind]; [reflexivity|].
  destruct (body x s); cbn [bind]; auto.
Qed.

Lemma same_shape_refl a : same_shape a a.
Proof. unfold same_shape. auto. Qed.

Lemma same_shape_trans a b c : same_shape a b -> same_shape b c -> same_shape a c.
Proof. unfold same_shape. intuition congruence. Qed.

Lemma same_shape_sym a b : same_shape a b -> same_shape b a.
Proof. unfold same_shape. intuition congruence. Qed.

Lemma in_bounds_shape a b x y : same_shape a b -> in_bounds a x y = in_bounds b x y.
Proof. unfold same_shape, in_bounds. intros (_ & -> & ->). reflexivity. Qed.

Lemma range_len_pos n : range_len 0 n 1 = Z.max 0 n.
Proof.
  unfold range_len. cbn [Z.ltb Z.compare]. rewrite Z.div_1_r. f_equal. lia.
Qed.

Lemma In_range3 start stop step x :
  In x (range3 start stop step) <->
  exists k, 0 <= k < range_len start stop step /\ x = start + k * step.
Proof.
  unfold range3. rewrite in_map_iff. split.
  - intros (k & E & Hk). apply in_seq in Hk. exists (Z.of_nat k). split; [lia|auto].
  - intros (k & Hk & E). exists (Z.to_nat k). split.
    + rewrite Z2Nat.id by lia. auto.
    + apply in_seq. lia.
Qed.

Lemma In_range n x : In x (range n) <-> 0 <= x < n.
Proof.
  unfold range. rewrite In_range3, range_len_pos. split.
  - intros (k & Hk & ->). lia.
  - intros H. exists x. lia.
Qed.

Lemma range_length n : List.length (range n) = Z.to_nat n.
Proof.
  unfold range, range3. rewrite length_map, length_seq, range_len_pos.
  destruct n; cbn; lia.
Qed.

Lemma putpixel_ok im x y c p :
  in_bounds im x y = true -> ink (im_mode im) c = Ok p ->
  putpixel im x y c
  = Ok (mkImage (im_mode im) (im_width im) (im_height im)
          (fun x' y' => if (x' =? x) && (y' =? y) then p else im_data im x' y')).
Proof. intros Hb Hi. unfold putpixel. rewrite Hb, Hi. reflexivity. Qed.

Lemma for_each_putpixel coords c p :
  forall im,
    ink (im_mode im) c = Ok p ->
    (forall xy, In xy coords -> in_bounds im (fst xy) (snd xy) = true) ->
    exists im',
      for_each coords (fun xy im => putpixel im (fst xy) (snd xy) c) im = Ok im' /\
      same_shape im' im /\
      forall x y, im_data im' x y = if hits coords x y then p else im_data im x y.
Proof.
  induction coords as [|[x0 y0] coords IH]; intros im Hi Hb.
  - exists im. cbn [for_each hits existsb]. auto using same_shape_refl.
  - cbn [for_each]. rewrite (putpixel_ok im _ _ c p) by (auto; apply Hb; left; reflexivity).
    cbn [bind fst snd].
    set (im1 := mkImage _ _ _ _).
    assert (S1 : same_shape im1 im) by (unfold same_shape; auto).
    destruct (IH im1) as (im' & E & S & D).
    + exact Hi.
    + intros xy Hin. rewrite (in_bounds_shape im1 im) by exact S1. apply Hb. right. exact Hin.
    + exists im'. split; [exact E|]. split; [eapply same_shape_trans; eassumption|].
      intros x y. rewrite D. cbn [hits existsb fst snd].
      fold (hits coords x y). destruct (hits coords x y).
      * rewrite orb_true_r. reflexivity.
      * rewrite orb_false_r. reflexivity.
Qed.

Lemma line_ok_shape color_of line a b k :
  same_shape a b -> line_ok color_of line a k -> line_ok color_of line b k.
Proof.
  intros S [(c & p & E & I) B]. pose proof S as (Sm & _). split.
  - exists c, p. rewrite <- Sm. auto.
  - intros xy Hin. rewrite <- (in_bounds_shape a b) by exact S. auto.
Qed.

Lemma for_each_lines color_of line keys :
  forall im,
    (forall k, In k keys -> line_ok color_of line im k) ->
    exists im',
      for_each keys (line_body color_of line) im = Ok im' /\
      same_shape im' im /\
      forall x y,
        im_data im' x y
        = fold_left (fun acc k => if hits (line k) x y
                                  then line_pixel color_of (im_mode im) k else acc)
                    keys (im_data im x y).
Proof.
  induction keys as [|k keys IH]; intros im Hok.
  - exists im. cbn [for_each fold_left]. auto using same_shape_refl.
  - destruct (Hok k (or_introl eq_refl)) as [(c & p & Ec & Ei) Hb].
    cbn [for_each]. unfold line_body at 1. rewrite Ec. cbn [bind].
    destruct (for_each_putpixel (line k) c p im Ei Hb) as (im1 & E1 & S1 & D1).
    rewrite E1. cbn [bind].
    destruct (IH im1) as (im' & E & S & D).
    + intros k' Hin. apply (line_ok_shape _ _ im im1); [apply same_shape_sym; exact S1|].
      apply Hok. right. exact Hin.
    + exists im'. split; [exact E|]. split; [eapply same_shape_trans; eassumption|].
      intros x y. rewrite D. cbn [fold_left]. rewrite D1.
      destruct S1 as (Sm & _). rewrite Sm.
      unfold line_pixel at 3. rewrite Ec, Ei. reflexivity.
Qed.

Lemma fold_left_pick {A} (hit : Z -> bool) (val : Z -> A) keys k :
  (forall k', In k' keys -> hit k' = true -> k' = k) ->
  forall init,
    fold_left (fun acc k => if hit k then val k else acc) keys init
    = if existsb hit keys then val k else init.
Proof.
  induction keys as [|k0 keys IH]; intros Hu init; cbn [fold_left existsb].
  - reflexivity.
  - rewrite IH by (intros; apply Hu; [right|]; assumption).
    destruct (hit k0) eqn:E0; cbn [orb].
    + rewrite (Hu k0 (or_introl eq_refl) E0). destruct (existsb hit keys); reflexivity.
    + reflexivity.
Qed.

Lemma color_eqb_eq a b : color_eqb a b = true -> a = b.
Proof. unfold color_eqb. destruct (list_eq_dec Z.eq_dec a b); [auto|discriminate]. Qed.

Lemma hits_In coords x y : hits coords x y = true <-> In (x, y) coords.
Proof.
  unfold hits. rewrite existsb_exists. split.
  - intros ([x' y'] & Hin & E). cbn [fst snd] in E.
    apply andb_true_iff in E. destruct E as [E1 E2].
    apply Z.eqb_eq in E1, E2. subst. exact Hin.
  - intros Hin. exists (x, y). split; [exact Hin|]. cbn [fst snd].
    rewrite !Z.eqb_refl. reflexivity.
Qed.

Lemma In_row_line k x y : In (x, y) (row_line k) <-> y = k /\ 0 <= x < WIDTH.
Proof.
  unfold row_line. rewrite in_map_iff. split.
  - intros (x' & E & Hin). inversion E; subst. apply In_range in Hin. auto.
  - intros [-> Hx]. exists x. split; [reflexivity | apply In_range; exact Hx].
Qed.

Lemma In_column_line k x y : In (x, y) (column_line k) <-> x = k /\ 0 <= y < HEIGHT.
Proof.
  unfold column_line. rewrite in_map_iff. split.
  - intros (y' & E & Hin). inversion E; subst. apply In_range in Hin. auto.
  - intros [-> Hy]. exists y. split; [reflexivity | apply In_range; exact Hy].
Qed.

Lemma background_row_line y base :
  background_row y base = line_body row_color row_line y base.
Proof.
  unfold background_row, line_body, row_color, row_line.
  rewrite bind_assoc.
  destruct ((int_ y / int_ (HEIGHT - 1))%num) as [t|e]; cbn [bind]; [|reflexivity].
  destruct (lerp_color _ _ t) as [c|e]; cbn [bind]; [|reflexivity].
  rewrite for_each_map. reflexivity.
Qed.

Lemma overlay_column_line x overlay :
  overlay_column x overlay = line_body column_rgba column_line x overlay.
Proof.
  unfold overlay_column, line_body, column_rgba, column_line.
  rewrite bind_assoc.
  destruct ((int_ x / int_ (WIDTH - 1))%num) as [t|e]; cbn [bind]; [|reflexivity].
  rewrite bind_assoc.
  destruct (lerp_color _ _ t) as [c|e]; cbn [bind]; [|reflexivity].
  rewrite bind_assoc.
  destruct (int_of _) as [a|e]; cbn [bind]; [|reflexivity].
  rewrite for_each_map. reflexivity.
Qed.

Lemma rows_checked : forallb row_check (range HEIGHT) = true.
Proof. vm_compute. reflexivity. Qed.

Lemma columns_checked : forallb column_check (range WIDTH) = true.
Proof. vm_compute. reflexivity. Qed.

Lemma all_from_spec check n :
  forall k, all_from check n k = true ->
  forall x, k <= x < k + Z.of_nat n -> check x = true.
Proof.
  induction n as [|n IH]; intros k H x Hx; [lia|].
  cbn [all_from] in H. apply andb_true_iff in H. destruct H as [H0 H1].
  destruct (Z.eq_dec x k) as [->|N]; [exact H0|].
  apply (IH (k + 1) H1). lia.
Qed.

Lemma kernel_checked : all_from kernel_check (Z.to_nat 65026) 0 = true.
Proof. vm_compute. reflexivity. Qed.

Lemma row_color_ok y :
  0 <= y < HEIGHT ->
  exists r g b, row_color y = Ok [r; g; b] /\ ink RGB [r; g; b] = Ok [r; g; b]
                /\ byte r /\ byte g /\ byte b.
Proof.
  intros Hy. pose proof rows_checked as H. rewrite forallb_forall in H.
  specialize (H y (proj2 (In_range _ _) Hy)). unfold row_check in H.
  destruct (row_color y) as [[|r [|g [|b [|? ?]]]]|e]; try discriminate.
  exists r, g, b. split; [reflexivity|].
  cbn [ink] in *. apply color_eqb_eq in H. inversion H as [[Hr Hg Hb]].
  rewrite !Hr, !Hg, !Hb. split; [reflexivity|].
  unfold clip8, byte in *.
  repeat split;
    repeat match goal with
           | H : context [if ?c then _ else _] |- _ => destruct c eqn:?
           end; lia.
Qed.

Lemma column_ok x :
  0 <= x < WIDTH ->
  exists r g b a,
    column_color x = Ok [r; g; b] /\ column_alpha x = Ok a /\
    column_rgba x = Ok [r; g; b; a] /\ ink RGBA [r; g; b; a] = Ok [r; g; b; a] /\
    a = 180 * Z.min x (WIDTH - 1 - x) / (WIDTH - 1) /\
    byte r /\ byte g /\ byte b /\ byte a.
Proof.
  intros Hx. pose proof columns_checked as H. rewrite forallb_forall in H.
  specialize (H x (proj2 (In_range _ _) Hx)). unfold column_check in H.
  destruct (column_color x) as [[|r [|g [|b [|? ?]]]]|e]; try discriminate.
  destruct (column_alpha x) as [a|e]; try discriminate.
  destruct (column_rgba x) as [c|e]; try discriminate.
  apply andb_true_iff in H. destruct H as [H Ha].
  apply andb_true_iff in H. destruct H as [Hc Hi].
  apply color_eqb_eq in Hc. subst c. apply Z.eqb_eq in Ha.
  exists r, g, b, a. do 3 (split; [reflexivity|]).
  cbn [ink] in *. apply color_eqb_eq in Hi. inversion Hi as [[Hr Hg Hb Haa]].
  rewrite !Hr, !Hg, !Hb, !Haa. split; [reflexivity|]. split; [exact Ha|].
  unfold clip8, byte in *.
  repeat split;
    repeat match goal with
           | H : context [if ?c then _ else _] |- _ => destruct c eqn:?
           end; lia.
Qed.

Lemma kernel_round T :
  0 <= T <= 65025 ->
  Z.shiftr (shift_for_div255 (T * 128 + Z.shiftl 128 7)) 7 = (2 * T + 255) / 510.
Proof.
  intros HT. pose proof (all_from_spec _ _ _ kernel_checked T) as H.
  rewrite Z2Nat.id in H by lia.
  unfold kernel_check in H. apply Z.eqb_eq. apply H. lia.
Qed.

Lemma composite_opaque dr dg db sr sg sb sa :
  byte dr -> byte dg -> byte db -> byte sr -> byte sg -> byte sb -> byte sa ->
  composite_pixel [dr; dg; db; 255] [sr; sg; sb; sa]
  = [alpha_over sa dr sr; alpha_over sa dg sg; alpha_over sa db sb; 255].
Proof.
  unfold byte. intros Hdr Hdg Hdb Hsr Hsg Hsb Hsa.
  unfold composite_pixel, alpha_over.
  destruct (Z.eqb_spec sa 0) as [E|N].
  - subst sa. rewrite !Z.mul_0_r, !Z.add_0_l, !Z.sub_0_r.
    assert (Hd : forall d, (2 * (d * 255) + 255) / 510 = d).
    { intros d. symmetry. apply Z.div_unique with (r := 255); lia. }
    rewrite !Hd. reflexivity.
  - assert (Eo : sa * 255 + 255 * (255 - sa) = 65025) by lia.
    cbv zeta. rewrite Eo.
    assert (Ec : sa * 255 * 255 * 128 / 65025 = sa * 128).
    { replace (sa * 255 * 255 * 128) with (sa * 128 * 65025) by lia.
      apply Z.div_mul. lia. }
    rewrite Ec.
    assert (Hch : forall s d, 0 <= s <= 255 -> 0 <= d <= 255 ->
              Z.shiftr (shift_for_div255 (s * (sa * 128) + d * (255 * 128 - sa * 128)
                                          + Z.shiftl 128 7)) 7
              = (2 * (s * sa + d * (255 - sa)) + 255) / 510).
    { intros s d Hs Hd.
      replace (s * (sa * 128) + d * (255 * 128 - sa * 128))
        with ((s * sa + d * (255 - sa)) * 128) by lia.
      apply kernel_round. nia. }
    rewrite !Hch by assumption. reflexivity.
Qed.

Lemma in_bounds_true im x y :
  0 <= x < im_width im -> 0 <= y < im_height im -> in_bounds im x y = true.
Proof.
  intros Hx Hy. unfold in_bounds.
  rewrite !andb_true_iff, !Z.leb_le, !Z.ltb_lt. lia.
Qed.

Lemma bind_eq {A B} (m : result A) (a : A) (k : A -> result B) :
  m = Ok a -> bind m k = k a.
Proof. intros ->. reflexivity. Qed.

Lemma lines_pixel color_of line keys im :
  (forall k, In k keys -> line_ok color_of line im k) ->
  exists im',
    for_each keys (line_body color_of line) im = Ok im' /\
    same_shape im' im /\
    forall k x y,
      In k keys -> hits (line k) x y = true ->
      (forall k', In k' keys -> hits (line k') x y = true -> k' = k) ->
      im_data im' x y = line_pixel color_of (im_mode im) k.
Proof.
  intros Hok. destruct (for_each_lines color_of line keys im Hok) as (im' & E & S & D).
  exists im'. split; [exact E|]. split; [exact S|].
  intros k x y Hin Hhit Hu. rewrite D.
  rewrite (fold_left_pick (fun k => hits (line k) x y)
             (fun k => line_pixel color_of (im_mode im) k) keys k Hu).
  replace (existsb (fun k0 => hits (line k0) x y) keys) with true; [reflexivity|].
  symmetry. apply existsb_exists. exists k. auto.
Qed.

Lemma base_rows :
  exists base,
    for_each (range HEIGHT) background_row (Image_new_black RGB WIDTH HEIGHT) = Ok base /\
    same_shape base (Image_new_black RGB WIDTH HEIGHT) /\
    forall x y, 0 <= x < WIDTH -> 0 <= y < HEIGHT ->
      im_data base x y = line_pixel row_color RGB y.
Proof.
  rewrite (for_each_ext background_row (line_body row_color row_line))
    by (intros; apply background_row_line).
  destruct (lines_pixel row_color row_line (range HEIGHT)
              (Image_new_black RGB WIDTH HEIGHT)) as (im' & E & S & D).
  - intros k Hk. apply In_range in Hk.
    destruct (row_color_ok k Hk) as (r & g & b & Ec & Ei & _). split.
    + exists [r; g; b], [r; g; b]. split; [exact Ec | exact Ei].
    + intros [x y] Hin. apply In_row_line in Hin. destruct Hin as [-> Hx].
      apply in_bounds_true; cbn [fst snd Image_new_black im_width im_height]; assumption.
  - exists im'. split; [exact E|]. split; [exact S|].
    intros x y Hx Hy. apply (D y x y).
    + apply In_range. exact Hy.
    + apply hits_In, In_row_line. auto.
    + intros k' _ Hh. apply hits_In, In_row_line in Hh. symmetry. apply Hh.
Qed.

Lemma overlay_columns overlay :
  im_mode overlay = RGBA -> im_width overlay = WIDTH -> im_height overlay = HEIGHT ->
  exists im',
    for_each (range WIDTH) overlay_column overlay = Ok im' /\
    same_shape im' overlay /\
    forall x y, 0 <= x < WIDTH -> 0 <= y < HEIGHT ->
      im_data im' x y = line_pixel column_rgba RGBA x.
Proof.
  intros Hm Hw Hh.
  rewrite (for_each_ext overlay_column (line_body column_rgba column_line))
    by (intros; apply overlay_column_line).
  destruct (lines_pixel column_rgba column_line (range WIDTH) overlay)
    as (im' & E & S & D).
  - intros k Hk. apply In_range in Hk.
    destruct (column_ok k Hk) as (r & g & b & a & _ & _ & Ec & Ei & _). split.
    + exists [r; g; b; a], [r; g; b; a]. rewrite Hm. split; [exact Ec | exact Ei].
    + intros [x y] Hin. apply In_column_line in Hin. destruct Hin as [-> Hy].
      apply in_bounds_true; cbn [fst snd]; rewrite ?Hw, ?Hh; assumption.
  - exists im'. split; [exact E|]. split; [exact S|].
    intros x y Hx Hy. rewrite <- Hm. apply (D x x y).
    + apply In_range. exact Hx.
    + apply hits_In, In_column_line. auto.
    + intros k' _ Hh'. apply hits_In, In_column_line in Hh'. symmetry. apply Hh'.
Qed.

(** The rounded blend is the byte nearest to the exact one. *)
Lemma alpha_over_nearest a base over :
  Z.abs (255 * alpha_over a base over - (over * a + base * (255 - a))) <= 127.
Proof.
  unfold alpha_over.
  pose proof (Z.div_mod (2 * (over * a + base * (255 - a)) + 255) 510 ltac:(lia)) as D.
  pose proof (Z.mod_pos_bound (2 * (over * a + base * (255 - a)) + 255) 510 ltac:(lia)) as B.
  lia.
Qed.

(** The tent rises to the middle of the canvas and falls after it. *)
Lemma tent_peak x :
  0 <= x < WIDTH ->
  180 * Z.min x (WIDTH - 1 - x) / (WIDTH - 1) <= 180 * Z.min 719 (WIDTH - 1 - 719) / (WIDTH - 1).
Proof.
  intros Hx. apply Z.div_le_mono; unfold WIDTH in *; lia.
Qed.

Lemma paint_background_eq base overlay :
  for_each (range HEIGHT) background_row (Image_new_black RGB WIDTH HEIGHT) = Ok base ->
  for_each (range WIDTH) overlay_column
    (mkImage RGBA WIDTH HEIGHT (fun _ _ => [0; 0; 0; 0])) = Ok overlay ->
  paint_background = alpha_composite (convert RGBA base) overlay.
Proof.
  intros Eb Eo. unfold paint_background. cbv zeta.
  rewrite (bind_eq _ _ _ Eb).
  rewrite (bind_eq (Image_new RGBA WIDTH HEIGHT [0; 0; 0; 0]) _ _ eq_refl).
  rewrite (bind_eq _ _ _ Eo). reflexivity.
Qed.

Lemma alpha_composite_ok a b :
  im_mode a = RGBA -> im_mode b = RGBA ->
  im_width a = im_width b -> im_height a = im_height b ->
  alpha_composite a b
  = Ok (mkImage RGBA (im_width a) (im_height a)
          (fun x y => composite_pixel (im_data a x y) (im_data b x y))).
Proof.
  intros Ha Hb Hw Hh. unfold alpha_composite, same_size.
  rewrite Ha, Hb, Hw, Hh, !Z.eqb_refl. reflexivity.
Qed.

(** C7: [paint_background] returns a 1440x960 canvas whose pixel [(x, y)] is
    the straight alpha-over blend, per channel and rounded to the nearest
    byte, of the row colour [lerp_color(navy_top, navy_bottom, y/(HEIGHT-1))]
    (the same for every pixel of row [y]) under the column colour
    [lerp_color(overlay_start, overlay_end, x/(WIDTH-1))] with the alpha
    [int(90 * (1 - abs(0.5 - t) * 2))] (the same for every pixel of column
    [x]); that alpha is the tent [180 * min(x, 1439 - x) / 1439], largest at
    the horizontal centre, and the result is opaque. *)
Theorem paint_background_pixels :
  exists im,
    paint_background = Ok im /\ canvas_shape im /\
    forall x y, 0 <= x < WIDTH -> 0 <= y < HEIGHT ->
      exists r g b r' g' b' a,
        row_color y = Ok [r; g; b] /\
        column_color x = Ok [r'; g'; b'] /\
        column_alpha x = Ok a /\
        a = 180 * Z.min x (WIDTH - 1 - x) / (WIDTH - 1) /\
        a <= 180 * Z.min 719 (WIDTH - 1 - 719) / (WIDTH - 1) /\
        im_data im x y
        = [alpha_over a r r'; alpha_over a g g'; alpha_over a b b'; 255] /\
        Z.abs (255 * alpha_over a r r' - (r' * a + r * (255 - a))) <= 127 /\
        Z.abs (255 * alpha_over a g g' - (g' * a + g * (255 - a))) <= 127 /\
        Z.abs (255 * alpha_over a b b' - (b' * a + b * (255 - a))) <= 127.
Proof.
  destruct base_rows as (base & Eb & Sb & Db).
  destruct (overlay_columns (mkImage RGBA WIDTH HEIGHT (fun _ _ => [0; 0; 0; 0])))
    as (overlay & Eo & So & Do); try reflexivity.
  destruct Sb as (Sbm & Sbw & Sbh). destruct So as (Som & Sow & Soh).
  cbn [Image_new_black im_mode im_width im_height] in Sbm, Sbw, Sbh, Som, Sow, Soh.
  eexists. split; [|split].
  - rewrite (paint_background_eq base overlay Eb Eo).
    apply alpha_composite_ok; cbn [convert im_mode im_width im_height]; congruence.
  - unfold canvas_shape. cbn [im_mode im_width im_height]. auto.
  - intros x y Hx Hy.
    destruct (row_color_ok y Hy) as (r & g & b & Er & Ir & Br & Bg & Bb).
    destruct (column_ok x Hx)
      as (r' & g' & b' & a & Ec & Ea & Eq & Iq & Ha & Br' & Bg' & Bb' & Ba).
    exists r, g, b, r', g', b', a.
    split; [exact Er|]. split; [exact Ec|]. split; [exact Ea|]. split; [exact Ha|].
    split; [rewrite Ha; apply tent_peak; exact Hx|].
    split; [|auto using alpha_over_nearest].
    cbn [im_data convert im_mode]. rewrite (Db x y Hx Hy), (Do x y Hx Hy), Sbm.
    unfold line_pixel. rewrite Er, Ir, Eq, Iq. cbn [convert_pixel].
    apply composite_opaque; assumption.
Qed.

(** ** Shapes drawn one over the other *)

Lemma find_app {A} (f : A -> bool) xs ys :
  find f (xs ++ ys) = match find f xs with Some a => Some a | None => find f ys end.
Proof. induction xs as [|x xs IH]; cbn [app find]; [reflexivity|]. destruct (f x); auto. Qed.

Lemma draw_fill_ok P im s c p :
  ink (im_mode im) c = Ok p ->
  draw_shape P im s (Some c) None 1
  = Ok (mkImage (im_mode im) (im_width im) (im_height im)
          (fun x y => if raster_fill P (im_width im) (im_height im) s x y
                      then p else im_data im x y)).
Proof. intros E. unfold draw_shape, opt_ink. rewrite E. reflexivity. Qed.

Lemma for_each_fills {K} P (shape_of : K -> shape) (col : K -> color) (pix : K -> pixel)
      (body : K -> Image -> result Image) keys :
  forall im,
    (forall k im', In k keys -> same_shape im' im ->
       body k im' = draw_shape P im' (shape_of k) (Some (col k)) None 1 /\
       ink (im_mode im) (col k) = Ok (pix k)) ->
    exists im',
      for_each keys body im = Ok im' /\ same_shape im' im /\
      forall x y,
        im_data im' x y
        = painted P (im_width im) (im_height im) shape_of pix keys (im_data im x y) x y.
Proof.
  induction keys as [|k keys IH]; intros im H.
  - exists im. split; [reflexivity|]. split; [apply same_shape_refl|]. reflexivity.
  - destruct (H k im (or_introl eq_refl) (same_shape_refl im)) as [Eb Ei].
    cbn [for_each]. rewrite Eb, (draw_fill_ok P im _ _ _ Ei). cbn [bind].
    set (im1 := mkImage _ _ _ _).
    assert (S1 : same_shape im1 im) by (unfold same_shape; auto).
    destruct (IH im1) as (im' & E & S & D).
    { intros k' im'' Hin S'. split.
      - apply (H k' im''); [right; exact Hin | eapply same_shape_trans; eassumption].
      - apply (H k' im (or_intror Hin) (same_shape_refl im)). }
    exists im'. split; [exact E|]. split; [eapply same_shape_trans; eassumption|].
    intros x y. rewrite D. unfold painted. cbn [rev im_width im_height im_data im1].
    rewrite find_app. cbn [find].
    destruct (find _ (rev keys)); [reflexivity|].
    destruct (raster_fill P _ _ _ x y); reflexivity.
Qed.

(** ** The rings *)

Lemma rings_checked : all_from ring_check (Z.to_nat 90) 0 = true.
Proof. vm_compute. reflexivity. Qed.

Lemma ring_radii_eq : range3 1080 0 (-12) = map ring_radius (range 90).
Proof. vm_compute. reflexivity. Qed.

Lemma In_ring_radii r :
  In r (range3 1080 0 (-12)) <-> exists k, 0 <= k < 90 /\ r = ring_radius k.
Proof.
  rewrite ring_radii_eq, in_map_iff. split.
  - intros (k & E & Hk). apply In_range in Hk. eauto.
  - intros (k & Hk & E). exists k. split; [auto | apply In_range; exact Hk].
Qed.

Lemma ring_facts k :
  0 <= k < 90 ->
  let r := ring_radius k in
  (int_ 1 - int_ r / int_ 1080)%num = Ok (Flt (ring_t r)) /\
  unit_value (ring_t r) /\ is_neg (ring_t r) = false /\
  F64.eqb (ring_t r) F64.one = false /\
  V (ring_t (r + 12)) <= V (ring_t r).
Proof.
  intros Hk r.
  pose proof (all_from_spec _ _ _ rings_checked k) as H.
  rewrite Z2Nat.id in H by lia. specialize (H ltac:(lia)).
  unfold ring_check in H. fold r in H.
  destruct ((int_ 1 - int_ r / int_ 1080)%num) as [[z|t]|e] eqn:E; try discriminate.
  assert (Et : ring_t r = t) by (unfold ring_t; rewrite E; reflexivity).
  rewrite Et.
  repeat (apply andb_true_iff in H; destruct H as [H ?]).
  unfold unit_value.
  rewrite ?negb_true_iff, ?Z.leb_le in *. repeat split; assumption.
Qed.

Lemma chain_mono (g : Z -> Z) n :
  (forall k, 0 <= k < n -> g (k - 1) <= g k) ->
  forall i j, 0 <= i <= j -> j < n -> g i <= g j.
Proof.
  intros H i j Hij Hj.
  assert (A : forall d : nat, i + Z.of_nat d < n -> g i <= g (i + Z.of_nat d)).
  { induction d as [|d IH]; intros Hd.
    - rewrite Z.add_0_r. lia.
    - etransitivity; [apply IH; lia|].
      replace (i + Z.of_nat d) with (i + Z.of_nat (S d) - 1) by lia.
      apply H. lia. }
  replace j with (i + Z.of_nat (Z.to_nat (j - i))) by lia.
  apply A. lia.
Qed.

Lemma ring_t_mono i j :
  0 <= i <= j -> j < 90 ->
  V (ring_t (ring_radius i)) <= V (ring_t (ring_radius j)).
Proof.
  apply (chain_mono (fun k => V (ring_t (ring_radius k))) 90).
  intros k Hk. destruct (ring_facts k Hk) as (_ & _ & _ & _ & M).
  replace (ring_radius (k - 1)) with (ring_radius k + 12) by (unfold ring_radius; lia).
  exact M.
Qed.

Lemma alpha_of_V_mono u v : u <= v -> alpha_of_V u <= alpha_of_V v.
Proof.
  intros H. unfold alpha_of_V.
  apply Z.quot_le_mono; [apply pow2_pos; lia|].
  apply RS_mono; [lia|].
  assert (0 < 2 ^ 1074) by (apply pow2_pos; lia). nia.
Qed.

Lemma alpha_of_V_0 : alpha_of_V 0 = 0.
Proof. unfold alpha_of_V. rewrite Z.mul_0_r. reflexivity. Qed.

Lemma alpha_of_V_1 : alpha_of_V (2 ^ 1074) = 255.
Proof.
  unfold alpha_of_V.
  replace (255 * 2 ^ 1074 * 2 ^ 1074) with (255 * 2 ^ 2148)
    by (rewrite <- Z.mul_assoc, <- Z.pow_add_r by lia; reflexivity).
  rewrite RS_int_scaled by (cbn; lia).
  apply Z.quot_mul. apply Z.neq_sym, Z.lt_neq, pow2_pos. lia.
Qed.

Lemma alpha_of_V_byte v : 0 <= v <= 2 ^ 1074 -> 0 <= alpha_of_V v <= 255.
Proof.
  intros Hv. rewrite <- alpha_of_V_0 at 1. rewrite <- alpha_of_V_1.
  split; apply alpha_of_V_mono; lia.
Qed.

Lemma sqV_unit P t :
  pow_contract P -> unit_value t -> 0 <= sqV P t <= 2 ^ 1074.
Proof.
  intros [Hu _] Ht. unfold sqV. destruct (F64.is_zero t).
  - assert (0 < 2 ^ 1074) by (apply pow2_pos; lia). lia.
  - apply (Hu t Ht).
Qed.

Lemma sqV_mono P t u :
  pow_contract P -> unit_value t -> unit_value u ->
  is_neg t = false -> V t <= V u -> sqV P t <= sqV P u.
Proof.
  intros HP Ht Hu Hn Hle. unfold sqV.
  destruct (F64.is_zero t) eqn:Zt.
  - destruct (F64.is_zero u); [lia|]. apply (proj1 HP u Hu).
  - destruct (F64.is_zero u) eqn:Zu.
    + exfalso. destruct Ht as [Wt _].
      destruct t as [s|s| |s m e]; try discriminate.
      destruct s; [discriminate|].
      destruct u; try discriminate. cbn [V cond_Zopp] in Hle.
      cbn [wf] in Wt. apply Z.leb_le in Wt.
      pose proof (V_finite_abs false m e Wt). lia.
    + apply (proj2 HP); assumption.
Qed.

Lemma ring_alpha_value P k :
  pow_contract P -> 0 <= k < 90 ->
  ring_alpha P (ring_radius k) = Ok (alpha_of_V (sqV P (ring_t (ring_radius k)))).
Proof.
  intros HP Hk. destruct (ring_facts k Hk) as (E & U & N & O & _).
  unfold ring_alpha. rewrite E.
  set (t := ring_t (ring_radius k)) in *. clearbody t. clear E.
  pose proof (proj1 HP _ U) as [Wp Bp]. destruct U as [Wt _].
  destruct t as [s|s| |s m e]; try discriminate Wt.
  - unfold sqV. cbn [F64.is_zero]. rewrite alpha_of_V_0. reflexivity.
  - destruct s; [discriminate N|].
    unfold sq, lift2, int_of, int_. cbn [bind float_sq]. rewrite O.
    set (p := libm_pow P (S754_finite false m e) two) in *.
    assert (I : is_inf p = false) by (destruct p; try discriminate Wp; reflexivity).
    rewrite I. cbn [bind num_mul]. unfold float_op. cbn [to_float bind].
    destruct (of_int_fz 255 ltac:(cbn; lia)) as (E255 & W255 & V255 & _).
    rewrite E255. cbn [bind num_int].
    assert (P1074 : 0 < 2 ^ 1074) by (apply pow2_pos; lia).
    destruct (mul_value (fz 255) p W255 Wp) as [Wm Vm].
    { rewrite V255, Z.abs_eq by nia.
      apply Z.le_trans with (2 ^ 8 * 2 ^ 1074 * 2 ^ 1074).
      - apply Z.mul_le_mono_nonneg; try lia.
      - rewrite <- !Z.pow_add_r by lia. apply pow2_le_mono. lia. }
    rewrite to_int_value by exact Wm. rewrite Vm, V255.
    unfold sqV, alpha_of_V. cbn [F64.is_zero]. reflexivity.
Qed.

Lemma reference_pow_contract : pow_contract reference_platform.
Proof.
  assert (P1074 : 0 < 2 ^ 1074) by (apply pow2_pos; lia).
  assert (B : forall x, unit_value x -> Z.abs (V x * V x) <= 2 ^ (2148 + 900)).
  { intros x [_ Hx]. rewrite Z.abs_eq by nia.
    apply Z.le_trans with (2 ^ 1074 * 2 ^ 1074).
    - apply Z.mul_le_mono_nonneg; lia.
    - rewrite <- Z.pow_add_r by lia. apply pow2_le_mono. lia. }
  split.
  - intros x Hx. cbn [libm_pow reference_platform].
    destruct (mul_value x x (proj1 Hx) (proj1 Hx) (B x Hx)) as [W E].
    split; [exact W|]. rewrite E. destruct Hx as [_ Hx]. split.
    + pose proof (RS_mono 2148 0 (V x * V x) ltac:(lia) ltac:(nia)) as Lo.
      exact Lo.
    + assert (Hs : V x * V x <= 1 * 2 ^ 2148).
      { rewrite Z.mul_1_l. change 2148 with (1074 + 1074).
        rewrite (Z.pow_add_r 2 1074 1074) by lia.
        apply Z.mul_le_mono_nonneg; lia. }
      pose proof (RS_mono 2148 _ _ ltac:(lia) Hs) as Hi.
      rewrite RS_int_scaled in Hi by (cbn; lia). lia.
  - intros x y Hx Hy Hle. cbn [libm_pow reference_platform].
    destruct (mul_value x x (proj1 Hx) (proj1 Hx) (B x Hx)) as [_ Ex].
    destruct (mul_value y y (proj1 Hy) (proj1 Hy) (B y Hy)) as [_ Ey].
    rewrite Ex, Ey. apply RS_mono; [lia|].
    destruct Hx as [_ Hx]. apply Z.mul_le_mono_nonneg; lia.
Qed.

Lemma highlight_ring_draw P k h :
  pow_contract P -> 0 <= k < 90 ->
  highlight_ring P 892 364 1080 (ring_radius k) h
  = draw_ellipse P h (ring_bbox (ring_radius k)) [ring_value P (ring_radius k)].
Proof.
  intros HP Hk. unfold highlight_ring, ring_value.
  fold (ring_alpha P (ring_radius k)).
  rewrite (ring_alpha_value P k HP Hk). reflexivity.
Qed.

Lemma add_highlights_eq P canvas :
  add_highlights P canvas
  = (highlight <- for_each (range3 1080 0 (-12)) (highlight_ring P 892 364 1080) mask0 ;;
     layer <- putalpha (mkImage RGBA WIDTH HEIGHT (fun _ _ => [110; 170; 255; 0]))
                (gaussian_blur P (Int 180) highlight) ;;
     alpha_composite canvas layer).
Proof.
  unfold add_highlights.
  rewrite (bind_eq (Image_new L WIDTH HEIGHT [0]) mask0 _ eq_refl).
  rewrite (bind_eq (int_of (int_ WIDTH * lit 62 100)%num) 892 _ eq_refl).
  rewrite (bind_eq (int_of (int_ HEIGHT * lit 38 100)%num) 364 _ eq_refl).
  rewrite (bind_eq (int_of (int_ WIDTH * lit 75 100)%num) 1080 _ eq_refl).
  reflexivity.
Qed.

Lemma ring_value_mono P i j :
  pow_contract P -> 0 <= i <= j -> j < 90 ->
  ring_value P (ring_radius i) <= ring_value P (ring_radius j).
Proof.
  intros HP Hij Hj. unfold ring_value.
  rewrite !ring_alpha_value by (auto; lia).
  destruct (ring_facts i ltac:(lia)) as (_ & Ui & Ni & _).
  destruct (ring_facts j ltac:(lia)) as (_ & Uj & _).
  apply alpha_of_V_mono, sqV_mono; auto. apply ring_t_mono; lia.
Qed.

Lemma rings_painted P :
  pow_contract P ->
  exists mask,
    for_each (range3 1080 0 (-12)) (highlight_ring P 892 364 1080) mask0 = Ok mask /\
    same_shape mask mask0 /\
    forall x y,
      im_data mask x y
      = painted P WIDTH HEIGHT (fun r => Ellipse (ring_bbox r))
          (fun r => [ring_value P r]) (range3 1080 0 (-12)) [0] x y.
Proof.
  intros HP.
  destruct (for_each_fills P (fun r => Ellipse (ring_bbox r))
              (fun r => [ring_value P r]) (fun r => [ring_value P r])
              (highlight_ring P 892 364 1080) (range3 1080 0 (-12)) mask0)
    as (mask & E & S & D).
  - intros r im' Hin _. apply In_ring_radii in Hin. destruct Hin as (k & Hk & ->).
    split; [apply highlight_ring_draw; assumption|].
    cbn [mask0 im_mode ink]. unfold ring_value.
    rewrite ring_alpha_value by assumption.
    destruct (ring_facts k Hk) as (_ & U & _).
    pose proof (alpha_of_V_byte _ (sqV_unit P _ HP U)) as B.
    unfold clip8.
    destruct (Z.ltb_spec (alpha_of_V (sqV P (ring_t (ring_radius k)))) 0); [lia|].
    destruct (Z.ltb_spec 255 (alpha_of_V (sqV P (ring_t (ring_radius k))))); [lia|].
    reflexivity.
  - exists mask. auto.
Qed.

Lemma bind_Ok_eq {A B} (a : A) (k : A -> result B) : bind (Ok a) k = k a.
Proof. reflexivity. Qed.

(** Painter's order without any assumption: if the loop returns, every
    fill was computed and every pixel has the ink of the last shape drawn
    that covers it. *)
Lemma for_each_fills_returned {K} P (shape_of : K -> shape) (val : K -> result Z)
      (pix : K -> pixel) (body : K -> Image -> result Image) keys :
  (forall k h, body k h
               = (a <- val k ;; draw_shape P h (shape_of k) (Some ([a] : color)) None 1)) ->
  (forall k a, val k = Ok a -> pix k = [clip8 a]) ->
  forall im im',
    im_mode im = L ->
    for_each keys body im = Ok im' ->
    same_shape im' im /\
    (forall k, In k keys -> exists a, val k = Ok a) /\
    forall x y,
      im_data im' x y
      = painted P (im_width im) (im_height im) shape_of pix keys (im_data im x y) x y.
Proof.
  intros Hb Hp. induction keys as [|k keys IH]; intros im im' Hm E.
  - cbn [for_each] in E. inversion E; subst im'.
    split; [apply same_shape_refl|]. split; [intros k []|]. reflexivity.
  - cbn [for_each] in E. rewrite Hb in E.
    destruct (val k) as [a|e] eqn:Ev; [|discriminate E].
    rewrite bind_Ok_eq in E. cbv beta in E.
    rewrite (draw_fill_ok P im (shape_of k) [a] [clip8 a]) in E
      by (rewrite Hm; reflexivity).
    rewrite bind_Ok_eq in E. cbv beta in E.
    apply IH in E; [|exact Hm]. destruct E as (S & A & D).
    split; [eapply same_shape_trans; [exact S | unfold same_shape; auto]|].
    split.
    + intros k' [<-|Hin]; [exists a; exact Ev | apply A; exact Hin].
    + intros x y. rewrite D. unfold painted.
      cbn [rev im_width im_height im_data]. rewrite find_app. cbn [find].
      destruct (find _ (rev keys)); [reflexivity|].
      destruct (raster_fill P _ _ _ x y); [rewrite (Hp k a Ev)|]; reflexivity.
Qed.

Lemma highlight_ring_law P r h :
  highlight_ring P 892 364 1080 r h
  = (alpha <- int_of (int_ 255 * sq P (int_ 1 - int_ r / int_ 1080))%num ;;
     draw_ellipse P h (ring_bbox r) [alpha]).
Proof. reflexivity. Qed.

Lemma rings_painted_if_returned P mask :
  for_each (range3 1080 0 (-12)) (highlight_ring P 892 364 1080) mask0 = Ok mask ->
  same_shape mask mask0 /\
  (forall r, In r (range3 1080 0 (-12)) -> ring_alpha P r = Ok (ring_value P r)) /\
  forall x y,
    im_data mask x y
    = painted P WIDTH HEIGHT (fun r => Ellipse (ring_bbox r))
        (fun r => [clip8 (ring_value P r)]) (range3 1080 0 (-12)) [0] x y.
Proof.
  intros E.
  destruct (for_each_fills_returned P (fun r => Ellipse (ring_bbox r)) (ring_alpha P)
              (fun r => [clip8 (ring_value P r)]) (highlight_ring P 892 364 1080)
              (range3 1080 0 (-12))) with (im := mask0) (im' := mask)
    as (S & A & D).
  - intros r h. reflexivity.
  - intros r a Ea. unfold ring_value. rewrite Ea. reflexivity.
  - reflexivity.
  - exact E.
  - split; [exact S|]. split; [|exact D].
    intros r Hin. destruct (A r Hin) as (a & Ea). unfold ring_value. rewrite Ea.
    reflexivity.
Qed.

(** The fill depends on the platform through [pow] at [1 - r / 1080] only. *)
Lemma ring_alpha_agrees P Q k :
  0 <= k < 90 ->
  libm_pow P (ring_t (ring_radius k)) two = libm_pow Q (ring_t (ring_radius k)) two ->
  ring_alpha P (ring_radius k) = ring_alpha Q (ring_radius k).
Proof.
  intros Hk H. destruct (ring_facts k Hk) as (E & U & N & O & _).
  unfold ring_alpha. rewrite E. destruct U as [Wt _].
  destruct (ring_t (ring_radius k)) as [s|s| |s m e]; try discriminate Wt.
  - reflexivity.
  - destruct s; [discriminate N|].
    unfold sq, lift2, int_of, int_. cbn [bind float_sq]. rewrite O. cbv zeta.
    rewrite H. reflexivity.
Qed.

Lemma reference_fills_checked :
  forallb (fun r => match ring_alpha reference_platform r with
                    | Ok a => a =? 255 * (1080 - r) * (1080 - r) / (1080 * 1080)
                    | Raise _ => false
                    end) (range3 1080 0 (-12)) = true.
Proof. vm_compute. reflexivity. Qed.

Lemma ring_alpha_exact P :
  (forall r, In r (range3 1080 0 (-12)) ->
     libm_pow P (ring_t r) two = F64.mul (ring_t r) (ring_t r)) ->
  forall r, In r (range3 1080 0 (-12)) ->
    ring_alpha P r = Ok (255 * (1080 - r) * (1080 - r) / (1080 * 1080)).
Proof.
  intros H r Hin. pose proof reference_fills_checked as C.
  rewrite forallb_forall in C. specialize (C r Hin).
  pose proof (H r Hin) as Hr.
  apply In_ring_radii in Hin. destruct Hin as (k & Hk & ->).
  rewrite (ring_alpha_agrees P reference_platform k Hk Hr).
  destruct (ring_alpha reference_platform (ring_radius k)) as [a|e]; [|discriminate C].
  apply Z.eqb_eq in C. rewrite C. reflexivity.
Qed.

(** C6 (as the code has it): the mask of the highlight stage is built from
    the 90 filled circles of radius [1080, 1068, ..., 12] around
    [(892, 364)], drawn in that strictly decreasing order (the bound [0] of
    the range is excluded); the circle of radius [r] is filled with
    [int(255 * (1 - r / 1080) ** 2)]; whenever the loop returns, every pixel
    of the mask holds the intensity of the last circle drawn that covers
    it, [0] where none does.  Where the C library's [pow(x, 2.0)] maps
    [[0, 1]] into itself monotonically, every fill is a byte, the fills do
    not decrease as the radius shrinks and the loop returns; where it is the
    correctly rounded square, the fill of radius [r] is the integer part of
    [255 * (1080 - r)^2 / 1080^2]. *)
Theorem highlight_rings (P : Platform) :
  range3 1080 0 (-12) = map (fun k => 1080 - 12 * k) (range 90) /\
  (forall canvas,
     add_highlights P canvas
     = (highlight <- for_each (range3 1080 0 (-12))
                       (highlight_ring P 892 364 1080) mask0 ;;
        layer <- putalpha (mkImage RGBA WIDTH HEIGHT (fun _ _ => [110; 170; 255; 0]))
                   (gaussian_blur P (Int 180) highlight) ;;
        alpha_composite canvas layer)) /\
  (forall r h,
     highlight_ring P 892 364 1080 r h
     = (alpha <- int_of (int_ 255 * sq P (int_ 1 - int_ r / int_ 1080))%num ;;
        draw_ellipse P h (ring_bbox r) [alpha])) /\
  (forall mask,
     for_each (range3 1080 0 (-12)) (highlight_ring P 892 364 1080) mask0 = Ok mask ->
     same_shape mask mask0 /\
     (forall r, In r (range3 1080 0 (-12)) ->
        int_of (int_ 255 * sq P (int_ 1 - int_ r / int_ 1080))%num
        = Ok (ring_value P r)) /\
     forall x y,
       im_data mask x y
       = painted P WIDTH HEIGHT (fun r => Ellipse (ring_bbox r))
           (fun r => [clip8 (ring_value P r)]) (range3 1080 0 (-12)) [0] x y) /\
  (pow_contract P ->
   (forall r, In r (range3 1080 0 (-12)) ->
      int_of (int_ 255 * sq P (int_ 1 - int_ r / int_ 1080))%num = Ok (ring_value P r) /\
      0 <= ring_value P r <= 255) /\
   (forall r1 r2, In r1 (range3 1080 0 (-12)) -> In r2 (range3 1080 0 (-12)) ->
      r2 <= r1 -> ring_value P r1 <= ring_value P r2) /\
   exists mask,
     for_each (range3 1080 0 (-12)) (highlight_ring P 892 364 1080) mask0 = Ok mask /\
     same_shape mask mask0 /\
     forall x y,
       im_data mask x y
       = painted P WIDTH HEIGHT (fun r => Ellipse (ring_bbox r))
           (fun r => [ring_value P r]) (range3 1080 0 (-12)) [0] x y) /\
  ((forall r, In r (range3 1080 0 (-12)) ->
      libm_pow P (ring_t r) two = F64.mul (ring_t r) (ring_t r)) ->
   forall r, In r (range3 1080 0 (-12)) ->
     int_of (int_ 255 * sq P (int_ 1 - int_ r / int_ 1080))%num
     = Ok (255 * (1080 - r) * (1080 - r) / (1080 * 1080))).
Proof.
  split; [exact ring_radii_eq|].
  split; [intros canvas; apply add_highlights_eq|].
  split; [intros r h; apply highlight_ring_law|].
  split; [intros mask E; exact (rings_painted_if_returned P mask E)|].
  split.
  - intros HP. split; [|split].
    + intros r Hin. apply In_ring_radii in Hin. destruct Hin as (k & Hk & ->).
      fold (ring_alpha P (ring_radius k)). unfold ring_value.
      rewrite ring_alpha_value by assumption. split; [reflexivity|].
      destruct (ring_facts k Hk) as (_ & U & _).
      apply alpha_of_V_byte, sqV_unit; assumption.
    + intros r1 r2 H1 H2 Hle.
      apply In_ring_radii in H1, H2.
      destruct H1 as (i & Hi & ->), H2 as (j & Hj & ->).
      apply ring_value_mono; [assumption| |lia]. unfold ring_radius in Hle. lia.
    + apply rings_painted. exact HP.
  - intros H r Hin. exact (ring_alpha_exact P H r Hin).
Qed.

Lemma highlight_rings_witness :
  pow_contract reference_platform /\
  (forall r1 r2, In r1 (range3 1080 0 (-12)) -> In r2 (range3 1080 0 (-12)) ->
     r2 <= r1 -> ring_value reference_platform r1 <= ring_value reference_platform r2) /\
  int_of (int_ 255 * sq reference_platform (int_ 1 - int_ 12 / int_ 1080))%num = Ok 249.
Proof.
  split; [exact reference_pow_contract|].
  destruct (highlight_rings reference_platform) as (_ & _ & _ & _ & H & X).
  split.
  - exact (proj1 (proj2 (H reference_pow_contract))).
  - apply (X (fun r _ => eq_refl) 12). apply In_ring_radii. exists 89.
    split; [lia | reflexivity].
Defined.

(** C6, the claim as worded: the loop of the highlight stage runs over
    [range(1080, 0, -12)], and the circles do not go down to radius [0]: the
    smallest one drawn has radius [12], and there are 90 of them. *)
Lemma highlight_no_ring_of_radius_zero :
  (forall P canvas,
     add_highlights P canvas
     = (highlight <- for_each (range3 1080 0 (-12))
                       (highlight_ring P 892 364 1080) mask0 ;;
        layer <- putalpha (mkImage RGBA WIDTH HEIGHT (fun _ _ => [110; 170; 255; 0]))
                   (gaussian_blur P (Int 180) highlight) ;;
        alpha_composite canvas layer)) /\
  ~ In 0 (range3 1080 0 (-12)) /\
  last (range3 1080 0 (-12)) 0 = 12 /\
  List.length (range3 1080 0 (-12)) = 90%nat.
Proof.
  split; [intros P canvas; apply add_highlights_eq|].
  split; [|split; vm_compute; reflexivity].
  intros H. apply In_ring_radii in H. destruct H as (k & Hk & E).
  unfold ring_radius in E. lia.
Qed.

Lemma for_each_nested {A B S} (rows : list A) (cols : list B)
      (body : A -> B -> S -> result S) (s : S) :
  for_each rows (fun r s => for_each cols (body r) s) s
  = for_each (flat_map (fun r => map (fun c => (r, c)) cols) rows)
             (fun rc => body (fst rc) (snd rc)) s.
Proof.
  revert s. induction rows as [|r rows IH]; intros s; cbn [for_each flat_map];
    [reflexivity|].
  rewrite for_each_app, for_each_map. cbn [fst snd].
  replace (for_each cols (fun x : B => body r x) s) with (for_each cols (body r) s)
    by reflexivity.
  destruct (for_each cols (body r) s); cbn [bind]; [apply IH | reflexivity].
Qed.

Lemma chart_cells_eq :
  chart_cells
  = [(0, 0); (0, 1); (0, 2); (0, 3); (0, 4); (0, 5); (0, 6);
     (1, 0); (1, 1); (1, 2); (1, 3); (1, 4); (1, 5); (1, 6);
     (2, 0); (2, 1); (2, 2); (2, 3); (2, 4); (2, 5); (2, 6)].
Proof. vm_compute. reflexivity. Qed.

Lemma In_chart_cells row col :
  In (row, col) chart_cells <-> 0 <= row < 3 /\ 0 <= col < 7.
Proof.
  unfold chart_cells. rewrite in_flat_map. split.
  - intros (r & Hr & Hc). apply in_map_iff in Hc. destruct Hc as (c & E & Hc).
    inversion E; subst. apply In_range in Hr. apply In_range in Hc. lia.
  - intros [Hr Hc]. exists row. split; [apply In_range; exact Hr|].
    apply in_map. apply In_range. exact Hc.
Qed.

Ltac each_cell H :=
  rewrite chart_cells_eq in H; cbn [In] in H;
  repeat (destruct H as [H|H]; [inversion H; subst; clear H|]); [..|contradiction].

(** One bar is one rounded rectangle. *)
Lemma chart_bar_draw P chart_left chart_top row col layer :
  In (row, col) chart_cells ->
  chart_bar P (Flt chart_left) (Flt (bar_baseline chart_top row)) row col layer
  = draw_rounded_rectangle P layer (bar_box P chart_left chart_top (row, col)) 12
      (bar_color (row, col)) None 1.
Proof. intros H. each_cell H; reflexivity. Qed.

Lemma chart_row_bars P chart_left chart_top row layer :
  0 <= row < 3 ->
  chart_row P (Flt chart_left) (Flt chart_top) row layer
  = for_each (range 7)
      (chart_bar P (Flt chart_left) (Flt (bar_baseline chart_top row)) row) layer.
Proof.
  intros H. assert (C : row = 0 \/ row = 1 \/ row = 2) by lia.
  destruct C as [->|[->| ->]]; reflexivity.
Qed.

Lemma bar_ink cell :
  In cell chart_cells -> ink RGBA (bar_color cell) = Ok (bar_color cell).
Proof. intros H. destruct cell as [row col]. each_cell H; reflexivity. Qed.

Lemma chart_loop P chart_left chart_top layer :
  for_each (range 3) (chart_row P (Flt chart_left) (Flt chart_top)) layer
  = for_each chart_cells (draw_bar P chart_left chart_top) layer.
Proof.
  rewrite (for_each_ext _
             (fun row s =>
                for_each (range 7)
                  (chart_bar P (Flt chart_left) (Flt (bar_baseline chart_top row)) row) s)).
  - rewrite for_each_nested. fold chart_cells. apply for_each_ext.
    intros [row col] s H. cbn [fst snd]. apply chart_bar_draw. exact H.
  - intros row s H. apply chart_row_bars. apply In_range. exact H.
Qed.

(** *** The panel stage up to the chart loop *)

Lemma draw_shape_rgba P (r : result Image) im s c o w :
  r = draw_shape P im s (Some c) o w ->
  im_mode im = RGBA ->
  (exists p, ink RGBA c = Ok p) ->
  (forall c', o = Some c' -> exists p, ink RGBA c' = Ok p) ->
  exists im', r = Ok im' /\ same_shape im' im.
Proof.
  intros -> Hm (p & Ep) Ho. unfold draw_shape, opt_ink. rewrite Hm, Ep.
  destruct o as [c'|].
  - destruct (Ho c' eq_refl) as (p' & ->). cbn [bind]. eexists.
    split; [reflexivity|]. unfold same_shape. cbn [im_mode im_width im_height]. auto.
  - cbn [bind]. eexists.
    split; [reflexivity|]. unfold same_shape. cbn [im_mode im_width im_height]. auto.
Qed.

Lemma for_each_same_shape {K} (body : K -> Image -> result Image) keys :
  (forall k im, In k keys -> im_mode im = RGBA ->
     exists im', body k im = Ok im' /\ same_shape im' im) ->
  forall im, im_mode im = RGBA ->
    exists im', for_each keys body im = Ok im' /\ same_shape im' im.
Proof.
  induction keys as [|k keys IH]; intros Hb im Hm.
  - exists im. split; [reflexivity | apply same_shape_refl].
  - destruct (Hb k im (or_introl eq_refl) Hm) as (im1 & E1 & S1).
    destruct (IH (fun k' im' Hin => Hb k' im' (or_intror Hin)) im1) as (im2 & E2 & S2).
    { destruct S1 as (-> & _). exact Hm. }
    exists im2. cbn [for_each]. rewrite E1. cbn [bind].
    split; [exact E2 | eapply same_shape_trans; eassumption].
Qed.

Lemma main_panel_eq :
  main_panel = Ok [Flt panel_x0; Flt panel_y0; Flt panel_x1; Flt panel_y1].
Proof. reflexivity. Qed.

Lemma panel_frame_drawn P layer :
  im_mode layer = RGBA ->
  exists layer',
    draw_rounded_rectangle P layer [Flt panel_x0; Flt panel_y0; Flt panel_x1; Flt panel_y1]
      48 (PALETTE panel) (Some [146; 161; 255; 140]) 4 = Ok layer' /\
    same_shape layer' layer.
Proof.
  intros Hm. eapply draw_shape_rgba; [reflexivity | exact Hm | eexists; reflexivity|].
  intros c' E. inversion E. eexists. reflexivity.
Qed.

Lemma traffic_lights_drawn P layer :
  im_mode layer = RGBA ->
  exists layer',
    for_each (enumerate [PALETTE cyan; PALETTE magenta; PALETTE amber])
      (traffic_light P (Flt panel_x0) (Flt panel_y0)) layer = Ok layer' /\
    same_shape layer' layer.
Proof.
  apply for_each_same_shape. intros k im Hin Hm.
  cbn [enumerate zip map seq List.length Z.of_nat In] in Hin.
  destruct Hin as [<-|[<-|[<-|[]]]];
    (eapply draw_shape_rgba;
     [reflexivity | exact Hm | eexists; reflexivity | intros c' E; discriminate E]).
Qed.

Lemma nav_blocks_drawn P layer :
  im_mode layer = RGBA ->
  exists layer',
    for_each (range 6) (nav_block P (Flt panel_nav_x) (Flt panel_nav_top)) layer
    = Ok layer' /\
    same_shape layer' layer.
Proof.
  apply for_each_same_shape. intros k im Hin Hm.
  apply In_range in Hin.
  assert (C : k = 0 \/ k = 1 \/ k = 2 \/ k = 3 \/ k = 4 \/ k = 5) by lia.
  destruct C as [->|[->|[->|[->|[->| ->]]]]];
    (eapply draw_shape_rgba;
     [reflexivity | exact Hm | eexists; reflexivity | intros c' E; discriminate E]).
Qed.

Ltac bind_is v :=
  match goal with
  | |- bind ?m ?k = _ => rewrite (bind_eq m v k (eq_refl (Ok v)))
  end.

(** [add_panels] is: the shell (panel, lights and navigation blocks), then
    the chart loop, then the overlays. *)
Lemma add_panels_chart P :
  exists shell,
    canvas_shape shell /\
    forall canvas,
      add_panels P canvas
      = (layer <- for_each (range 3)
                    (chart_row P (Flt panel_chart_left) (Flt panel_chart_top)) shell ;;
         panel_overlays P (Flt panel_chart_left) (Flt panel_chart_right)
           (Flt panel_chart_bottom) canvas layer).
Proof.
  destruct (panel_frame_drawn P (mkImage RGBA WIDTH HEIGHT (fun _ _ => [0; 0; 0; 0])))
    as (l1 & E1 & S1); [reflexivity|].
  assert (M1 : im_mode l1 = RGBA) by (destruct S1 as (-> & _); reflexivity).
  destruct (traffic_lights_drawn P l1 M1) as (l2 & E2 & S2).
  assert (M2 : im_mode l2 = RGBA) by (destruct S2 as (-> & _); exact M1).
  destruct (nav_blocks_drawn P l2 M2) as (l3 & E3 & S3).
  exists l3. split.
  - destruct S1 as (_ & W1 & H1), S2 as (_ & W2 & H2), S3 as (M3 & W3 & H3).
    unfold canvas_shape. rewrite M3, W3, H3, W2, H2, W1, H1. auto.
  - intros canvas. unfold add_panels.
    bind_is (mkImage RGBA WIDTH HEIGHT (fun _ _ => [0; 0; 0; 0])).
    rewrite (bind_eq _ _ _ main_panel_eq).
    bind_is (Flt panel_x0). bind_is (Flt panel_y0).
    bind_is (Flt panel_x1). bind_is (Flt panel_y1).
    rewrite (bind_eq _ _ _ E1), (bind_eq _ _ _ E2).
    bind_is (Flt panel_nav_x). bind_is (Flt panel_nav_top).
    rewrite (bind_eq _ _ _ E3).
    bind_is (Flt panel_chart_left). bind_is (Flt panel_chart_top).
    bind_is (Flt panel_chart_right). bind_is (Flt panel_chart_bottom).
    reflexivity.
Qed.

(** C8: the panel stage [add_panels] draws its bar chart, between the
    shell (panel, lights, navigation blocks) and the overlays (sparkline,
    cards), as 21 bars: the cells of 3 rows by 7 columns, row after row,
    each one rounded rectangle (radius 12, no outline) whose box is 42 wide
    and reaches from [(sin((row + col / 2) * 0.7) * 0.3 + 0.6) * 120] above
    the baseline [chart_top + row * 160] of its row down to that baseline,
    filled with the accent [(row + col) mod 4] of the four accents at alpha
    220; the loop returns, and every pixel of the layer then has the fill of
    the last bar drawn that covers it, or what the shell had there. *)
Theorem bar_chart_cells (P : Platform) :
  List.length chart_cells = 21%nat /\
  List.length accents = 4%nat /\
  (forall row col, In (row, col) chart_cells <-> 0 <= row < 3 /\ 0 <= col < 7) /\
  (forall chart_left chart_top layer,
     for_each (range 3) (chart_row P (Flt chart_left) (Flt chart_top)) layer
     = for_each chart_cells (draw_bar P chart_left chart_top) layer) /\
  (forall chart_left chart_top row col layer,
     draw_bar P chart_left chart_top (row, col) layer
     = draw_rounded_rectangle P layer
         [Flt (bar_left chart_left col);
          Flt (F64.sub (bar_baseline chart_top row) (bar_height P row col));
          Flt (F64.add (bar_left chart_left col) (fz bar_width));
          Flt (bar_baseline chart_top row)]
         12 (nth (Z.to_nat ((row + col) mod 4)) accents [] ++ [220]) None 1) /\
  F64.to_int panel_chart_left = Ok 596 /\
  F64.to_int panel_chart_top = Ok 282 /\
  exists shell,
    canvas_shape shell /\
    (forall canvas,
       add_panels P canvas
       = (layer <- for_each chart_cells
                     (draw_bar P panel_chart_left panel_chart_top) shell ;;
          panel_overlays P (Flt panel_chart_left) (Flt panel_chart_right)
            (Flt panel_chart_bottom) canvas layer)) /\
    exists layer',
      for_each chart_cells (draw_bar P panel_chart_left panel_chart_top) shell
      = Ok layer' /\
      canvas_shape layer' /\
      forall x y,
        im_data layer' x y
        = painted P WIDTH HEIGHT (bar_shape P panel_chart_left panel_chart_top)
            bar_color chart_cells (im_data shell x y) x y.
Proof.
  split; [rewrite chart_cells_eq; reflexivity|].
  split; [reflexivity|].
  split; [exact In_chart_cells|].
  split; [intros chart_left chart_top layer; apply chart_loop|].
  split; [intros chart_left chart_top row col layer; reflexivity|].
  split; [reflexivity|]. split; [reflexivity|].
  destruct (add_panels_chart P) as (shell & (Sm & Sw & Sh) & E).
  exists shell. split; [unfold canvas_shape; auto|]. split.
  - intros canvas. rewrite E, chart_loop. reflexivity.
  - destruct (for_each_fills P (bar_shape P panel_chart_left panel_chart_top)
                bar_color bar_color (draw_bar P panel_chart_left panel_chart_top)
                chart_cells shell) as (layer' & El & (Lm & Lw & Lh) & D).
    + intros cell im' Hin _. split; [reflexivity|].
      rewrite Sm. apply bar_ink. exact Hin.
    + exists layer'. split; [exact El|]. split.
      * unfold canvas_shape. rewrite Lm, Lw, Lh. auto.
      * intros x y. rewrite D, Sw, Sh. reflexivity.
Qed.

Lemma set_rng_graft s ev w : set_rng s ev w = graft w (set_rng s ev (bare (rng w))).
Proof. reflexivity. Qed.

Lemma graft_bare w : graft w (bare (rng w)) = w.
Proof. destruct w. unfold graft, bare. cbn. rewrite app_nil_r. reflexivity. Qed.

Lemma graft_graft w a b : graft (graft w a) b = graft w (graft a b).
Proof. unfold graft. cbn. rewrite app_assoc. reflexivity. Qed.

Lemma rng_only_pure {A} (r : result A) : rng_only (pure r).
Proof. intros w. unfold pure. cbn [fst snd]. rewrite graft_bare. reflexivity. Qed.

Lemma rng_only_ret {A} (a : A) : rng_only (ret a).
Proof. intros w. unfold ret. cbn [fst snd]. rewrite graft_bare. reflexivity. Qed.

Lemma rng_only_seed a : rng_only (random_seed a).
Proof. intros w. reflexivity. Qed.

Lemma rng_only_randint a b : rng_only (random_randint a b).
Proof.
  intros w. unfold random_randint. cbn [rng bare].
  destruct (0 <? b + 1 - a).
  - destruct (MT.randbelow randbelow_fuel (b + 1 - a) (rng w)) as [[r s]|];
      cbn [fst snd]; [reflexivity | rewrite graft_bare; reflexivity].
  - cbn [fst snd]. rewrite graft_bare. reflexivity.
Qed.

Lemma rng_only_choice {A} (xs : list A) : rng_only (random_choice xs).
Proof.
  intros w. unfold random_choice. destruct xs as [|d xs'].
  - cbn [fst snd]. rewrite graft_bare. reflexivity.
  - cbn [rng bare].
    destruct (MT.randbelow randbelow_fuel _ (rng w)) as [[r s]|];
      cbn [fst snd]; [reflexivity | rewrite graft_bare; reflexivity].
Qed.

Lemma rng_only_bind {A B} (m : IO A) (k : A -> IO B) :
  rng_only m -> (forall a, rng_only (k a)) -> rng_only (io_bind m k).
Proof.
  intros Hm Hk w. unfold io_bind. rewrite (Hm w).
  destruct (m (bare (rng w))) as [[a|e] wb]; cbn [fst snd]; [|reflexivity].
  rewrite (Hk a (graft w wb)). cbn [graft rng].
  rewrite (Hk a wb). cbn [fst snd]. rewrite graft_graft. reflexivity.
Qed.

Lemma rng_only_for_each {A S} (xs : list A) (body : A -> S -> IO S) :
  (forall x s, rng_only (body x s)) -> forall s, rng_only (io_for_each xs body s).
Proof.
  intros Hb. induction xs as [|x xs IH]; intros s; cbn [io_for_each].
  - apply rng_only_ret.
  - apply rng_only_bind; [apply Hb | exact IH].
Qed.

Lemma rng_only_particle P n layer : rng_only (particle P n layer).
Proof.
  unfold particle.
  repeat (apply rng_only_bind; [first [apply rng_only_randint | apply rng_only_choice]|];
          intros ?).
  apply rng_only_pure.
Qed.

Lemma event_eqb_eq a b : event_eqb a b = true -> a = b.
Proof.
  destruct a, b; cbn [event_eqb]; try discriminate;
    rewrite ?andb_true_iff, ?Z.eqb_eq; intuition congruence.
Qed.

Lemma events_eqb_eq a b : events_eqb a b = true -> a = b.
Proof.
  revert b. induction a as [|x a IH]; intros [|y b]; cbn [events_eqb];
    try discriminate; [reflexivity|].
  rewrite andb_true_iff. intros [H1 H2].
  apply event_eqb_eq in H1. apply IH in H2. congruence.
Qed.

Lemma canvas_check_spec r :
  canvas_check r = true -> exists im, r = Ok im /\ canvas_shape im.
Proof.
  destruct r as [im|e]; [|discriminate]. cbn [canvas_check].
  rewrite !andb_true_iff, !Z.eqb_eq. intros [[Hm Hw] Hh].
  exists im. split; [reflexivity|]. unfold canvas_shape.
  destruct (im_mode im); try discriminate. auto.
Qed.

Lemma pair_eta_eq {A B} (p : A * B) (a : A) : fst p = a -> p = (a, snd p).
Proof. destruct p. cbn [fst snd]. intros ->. reflexivity. Qed.

Lemma particle_run_checked P :
  (let run := particle_run P in
   let j := rng_journal (snd run) in
   canvas_check (fst run)
   && events_eqb j (flat_map particle_events (draws_of j))
   && (Z.of_nat (List.length (draws_of j)) =? 140)
   && forallb in_ranges (draws_of j)) = true.
Proof. vm_compute. reflexivity. Qed.

Lemma particle_run_ok P :
  exists layer,
    fst (particle_run P) = Ok layer /\ canvas_shape layer /\
    rng_journal (snd (particle_run P)) = flat_map particle_events (particle_stream P) /\
    List.length (particle_stream P) = 140%nat /\
    forallb in_ranges (particle_stream P) = true.
Proof.
  pose proof (particle_run_checked P) as H.
  cbv zeta in H. unfold particle_stream.
  apply andb_prop in H. destruct H as [H Hr].
  apply andb_prop in H. destruct H as [H Hl].
  apply andb_prop in H. destruct H as [Hc Hj].
  apply Z.eqb_eq in Hl.
  apply canvas_check_spec in Hc. destruct Hc as (layer & E & S).
  apply events_eqb_eq in Hj.
  exists layer.
  split; [exact E|]. split; [exact S|]. split; [exact Hj|].
  split; [apply Nat2Z.inj; exact Hl | exact Hr].
Qed.

Lemma particle_run_unfold P :
  particle_run P = io_for_each (range 140) (particle P) layer0 (bare (MT.seed 42)).
Proof.
  exact (@eq_refl _ (io_for_each (range 140) (particle P) layer0 (bare (MT.seed 42)))).
Qed.

Lemma bind_inv {A B} (m : result A) (k : A -> result B) (r : B) :
  bind m k = Ok r -> exists a, m = Ok a /\ k a = Ok r.
Proof. destruct m as [a|e]; cbn [bind]; [eauto | discriminate]. Qed.

Lemma canvas_eta c : canvas_shape c -> c = mkImage RGBA WIDTH HEIGHT (im_data c).
Proof. destruct c. unfold canvas_shape. cbn. intros (-> & -> & ->). reflexivity. Qed.

Lemma composite_pixel_opaque r g b src :
  exists r' g' b', composite_pixel [r; g; b; 255] src = [r'; g'; b'; 255].
Proof.
  unfold composite_pixel.
  destruct src as [|sr [|sg [|sb [|sa [|? ?]]]]]; eauto.
  destruct (sa =? 0); eauto.
  cbv zeta. do 3 eexists. f_equal. f_equal. f_equal. f_equal.
  replace (sa * 255 + 255 * (255 - sa) + 128) with 65153 by lia. reflexivity.
Qed.

Lemma alpha_composite_canvas canvas layer im :
  alpha_composite canvas layer = Ok im ->
  canvas_shape canvas -> opaque canvas -> canvas_shape im /\ opaque im.
Proof.
  unfold alpha_composite. intros E (Hm & Hw & Hh) Ho.
  destruct (im_mode canvas); try discriminate.
  destruct (im_mode layer); try discriminate.
  destruct (same_size canvas layer); try discriminate.
  inversion E; subst im; clear E. split.
  - unfold canvas_shape. cbn [im_mode im_width im_height]. auto.
  - intros x y Hx Hy. cbn [im_data im_width im_height] in *.
    destruct (Ho x y Hx Hy) as (r & g & b & ->).
    apply composite_pixel_opaque.
Qed.

Lemma alpha_composite_total canvas layer :
  canvas_shape canvas -> canvas_shape layer ->
  exists im, alpha_composite canvas layer = Ok im.
Proof.
  intros (Hm & Hw & Hh) (Hm' & Hw' & Hh'). eexists.
  apply alpha_composite_ok; congruence.
Qed.

Lemma gaussian_blur_shape P radius im : same_shape (gaussian_blur P radius im) im.
Proof. unfold same_shape, gaussian_blur. cbn. auto. Qed.

(** ** The stages that only draw: they succeed on every platform *)

Lemma add_grid_checked P d : canvas_check (add_grid P (mkImage RGBA WIDTH HEIGHT d)) = true.
Proof. vm_compute. reflexivity. Qed.

Lemma add_panels_checked P d :
  canvas_check (add_panels P (mkImage RGBA WIDTH HEIGHT d)) = true.
Proof. vm_compute. reflexivity. Qed.

Lemma add_vignette_checked P d :
  canvas_check (add_vignette P (mkImage RGBA WIDTH HEIGHT d)) = true.
Proof. vm_compute. reflexivity. Qed.

(** Unfold [f] on the left of the equation [E] through an explicit equation. *)
Ltac unfold_in_eq E f :=
  match type of E with
  | ?l = ?r =>
      let l' := eval unfold f in l in
      let U := fresh "U" in
      assert (U : l = l') by exact (@eq_refl _ l');
      rewrite U in E; clear U
  end.

Ltac invert_binds E :=
  repeat (let a := fresh "a" in let Ea := fresh "Ea" in
          apply bind_inv in E; destruct E as (a & Ea & E)).

Lemma add_grid_canvas P canvas :
  canvas_shape canvas -> opaque canvas ->
  exists im, add_grid P canvas = Ok im /\ canvas_shape im /\ opaque im.
Proof.
  intros Hs Ho.
  destruct (canvas_check_spec _ (add_grid_checked P (im_data canvas))) as (im & E & _).
  rewrite <- (canvas_eta canvas Hs) in E. exists im. split; [exact E|].
  unfold_in_eq E add_grid. invert_binds E.
  eapply alpha_composite_canvas; eassumption.
Qed.

Lemma add_panels_canvas P canvas :
  canvas_shape canvas -> opaque canvas ->
  exists im, add_panels P canvas = Ok im /\ canvas_shape im /\ opaque im.
Proof.
  intros Hs Ho.
  destruct (canvas_check_spec _ (add_panels_checked P (im_data canvas))) as (im & E & _).
  rewrite <- (canvas_eta canvas Hs) in E. exists im. split; [exact E|].
  unfold_in_eq E add_panels. invert_binds E.
  eapply alpha_composite_canvas; eassumption.
Qed.

Lemma add_vignette_canvas P canvas :
  canvas_shape canvas -> opaque canvas ->
  exists im, add_vignette P canvas = Ok im /\ canvas_shape im /\ opaque im.
Proof.
  intros Hs Ho.
  destruct (canvas_check_spec _ (add_vignette_checked P (im_data canvas))) as (im & E & _).
  rewrite <- (canvas_eta canvas Hs) in E. exists im. split; [exact E|].
  unfold_in_eq E add_vignette. invert_binds E.
  match goal with
  | H : alpha_composite canvas _ = Ok ?r |- _ =>
      destruct (alpha_composite_canvas _ _ _ H Hs Ho) as [Hs' Ho']
  end.
  eapply alpha_composite_canvas; eassumption.
Qed.

(** ** The highlight stage *)

Lemma add_highlights_canvas P canvas :
  pow_contract P -> canvas_shape canvas -> opaque canvas ->
  exists im, add_highlights P canvas = Ok im /\ canvas_shape im /\ opaque im.
Proof.
  intros HP Hs Ho. destruct (rings_painted P HP) as (mask & E & (Sm & Sw & Sh) & _).
  cbn [mask0 im_mode im_width im_height] in Sm, Sw, Sh.
  rewrite add_highlights_eq, (bind_eq _ _ _ E).
  assert (Ep : putalpha (mkImage RGBA WIDTH HEIGHT (fun _ _ => [110; 170; 255; 0]))
                 (gaussian_blur P (Int 180) mask)
               = Ok (mkImage RGBA WIDTH HEIGHT
                       (fun x y => [110; 170; 255]
                                   ++ firstn 1 (im_data (gaussian_blur P (Int 180) mask) x y)))).
  { unfold putalpha, same_size. cbn [im_mode im_width im_height gaussian_blur].
    rewrite Sm, Sw, Sh, !Z.eqb_refl. reflexivity. }
  rewrite (bind_eq _ _ _ Ep).
  destruct (alpha_composite_total canvas
              (mkImage RGBA WIDTH HEIGHT
                 (fun x y => [110; 170; 255]
                             ++ firstn 1 (im_data (gaussian_blur P (Int 180) mask) x y))))
    as (im & Ec); [exact Hs | unfold canvas_shape; auto|].
  exists im. split; [exact Ec|]. eapply alpha_composite_canvas; eassumption.
Qed.

(** ** The particle stage *)

Lemma io_bind_pure {A B} (r : result A) (a : A) (k : A -> IO B) (w : World) :
  r = Ok a -> io_bind (pure r) k w = k a w.
Proof. intros ->. reflexivity. Qed.

Lemma io_bind_pure_raise {A B} (r : result A) e (k : A -> IO B) (w : World) :
  r = Raise e -> io_bind (pure r) k w = (Raise e, w).
Proof. intros ->. reflexivity. Qed.

Lemma io_bind_seed {B} a (k : unit -> IO B) (w : World) :
  io_bind (random_seed a) k w = k tt (set_rng (MT.seed a) (EvSeed a) w).
Proof. reflexivity. Qed.

Lemma io_bind_seeded {A B} (m : IO A) (k : A -> IO B) s ev (w : World) :
  rng_only m ->
  io_bind m k (set_rng s ev w)
  = match fst (m (bare s)) with
    | Ok a => k a (graft (set_rng s ev w) (snd (m (bare s))))
    | Raise e => (Raise e, graft (set_rng s ev w) (snd (m (bare s))))
    end.
Proof.
  intros Hm. unfold io_bind. rewrite (Hm (set_rng s ev w)). cbn [rng set_rng].
  destruct (m (bare s)) as [[a|e] wb]; reflexivity.
Qed.

Lemma add_particles_unfold P canvas w :
  add_particles P canvas w
  = match fst (particle_run P) return result Image * World with
    | Ok layer =>
        (alpha_composite canvas (gaussian_blur P (Flt (F64.dec 6 10)) layer),
         after_particles P w)
    | Raise e => (Raise e, after_particles P w)
    end.
Proof.
  unfold add_particles, after_particles.
  rewrite (io_bind_pure (Image_new RGBA WIDTH HEIGHT [0; 0; 0; 0]) layer0 _ _ eq_refl).
  rewrite io_bind_seed.
  rewrite (io_bind_seeded _ _ (MT.seed 42) (EvSeed 42) w
             (rng_only_for_each _ _ (rng_only_particle P) layer0)).
  rewrite <- particle_run_unfold.
  destruct (fst (particle_run P)); reflexivity.
Qed.

Lemma add_particles_eq P :
  exists layer,
    fst (particle_run P) = Ok layer /\ canvas_shape layer /\
    forall canvas w,
      add_particles P canvas w
      = (alpha_composite canvas (gaussian_blur P (Flt (F64.dec 6 10)) layer),
         after_particles P w).
Proof.
  destruct (particle_run_ok P) as (layer & E & S & _).
  exists layer. split; [exact E|]. split; [exact S|].
  intros canvas w. rewrite add_particles_unfold, E. reflexivity.
Qed.

Lemma add_particles_canvas P canvas w :
  canvas_shape canvas -> opaque canvas ->
  exists im,
    add_particles P canvas w = (Ok im, after_particles P w) /\
    canvas_shape im /\ opaque im.
Proof.
  intros Hs Ho. destruct (add_particles_eq P) as (layer & _ & S & E).
  destruct (alpha_composite_total canvas (gaussian_blur P (Flt (F64.dec 6 10)) layer))
    as (im & Ec); [exact Hs| |].
  { destruct S as (Sm & Sw & Sh). unfold canvas_shape, gaussian_blur.
    cbn [im_mode im_width im_height]. auto. }
  exists im. split; [rewrite E, Ec; reflexivity|].
  eapply alpha_composite_canvas; eassumption.
Qed.

Lemma paint_background_canvas :
  exists im, paint_background = Ok im /\ canvas_shape im /\ opaque im.
Proof.
  destruct base_rows as (base & Eb & Sb & Db).
  destruct (overlay_columns (mkImage RGBA WIDTH HEIGHT (fun _ _ => [0; 0; 0; 0])))
    as (overlay & Eo & So & Do); try reflexivity.
  destruct Sb as (Sbm & Sbw & Sbh). destruct So as (Som & Sow & Soh).
  cbn [Image_new_black im_mode im_width im_height] in Sbm, Sbw, Sbh, Som, Sow, Soh.
  eexists. split; [|split].
  - rewrite (paint_background_eq base overlay Eb Eo).
    apply alpha_composite_ok; cbn [convert im_mode im_width im_height]; congruence.
  - unfold canvas_shape. cbn [im_mode im_width im_height]. auto.
  - intros x y Hx Hy. cbn [im_width im_height convert] in Hx, Hy.
    rewrite Sbw in Hx. rewrite Sbh in Hy.
    destruct (row_color_ok y Hy) as (r & g & b & Er & Ir & _).
    cbn [im_data convert im_mode]. rewrite (Db x y Hx Hy), Sbm.
    unfold line_pixel. rewrite Er, Ir. cbn [convert_pixel].
    apply composite_pixel_opaque.
Qed.

Lemma io_bind_pure_match {A B} (r : result A) (k : A -> IO B) (w : World) :
  io_bind (pure r) k w
  = match r return result B * World with
    | Ok a => k a w
    | Raise e => (Raise e, w)
    end.
Proof. destruct r; reflexivity. Qed.

Lemma io_bind_ok {A B} (m : IO A) (k : A -> IO B) (w w' : World) a :
  m w = (Ok a, w') -> io_bind m k w = k a w'.
Proof. intros E. unfold io_bind. rewrite E. reflexivity. Qed.

Lemma io_bind_raise {A B} (m : IO A) (k : A -> IO B) (w w' : World) e :
  m w = (Raise e, w') -> io_bind m k w = (Raise e, w').
Proof. intros E. unfold io_bind. rewrite E. reflexivity. Qed.

Lemma bind_Ok {A B} (a : A) (k : A -> result B) : bind (Ok a) k = k a.
Proof. reflexivity. Qed.

Lemma bind_Raise {A B} e (k : A -> result B) : bind (Raise e) k = Raise e.
Proof. reflexivity. Qed.

Lemma rendered_split P :
  rendered P = bind (before_particles P) (from_particles P).
Proof. unfold rendered. reflexivity. Qed.

(** The particle stage gives the same canvas whatever the world. *)
Lemma add_particles_any_world P canvas w w0 :
  add_particles P canvas w = (fst (add_particles P canvas w0), after_particles P w).
Proof.
  rewrite !add_particles_unfold. destruct (fst (particle_run P)); reflexivity.
Qed.

Lemma after_particles_fields P w :
  cwd (after_particles P w) = cwd w /\
  cli_output (after_particles P w) = cli_output w /\
  can_mkdir (after_particles P w) = can_mkdir w /\
  can_save (after_particles P w) = can_save w /\
  files (after_particles P w) = files w /\
  stdout (after_particles P w) = stdout w.
Proof. repeat split; reflexivity. Qed.

Lemma pipeline_cases (pb : result Image) (f g h v : Image -> result Image)
      (part : Image -> IO Image) (after : World -> World) (w0 : World)
      (conv : Image -> Image) (tail : Image -> IO unit) (w : World) :
  (forall c w, part c w = (fst (part c w0), after w)) ->
  io_bind (pure pb) (fun c =>
    io_bind (pure (f c)) (fun c =>
      io_bind (pure (g c)) (fun c =>
        io_bind (pure (h c)) (fun c =>
          io_bind (part c) (fun c =>
            io_bind (pure (v c)) (fun c => tail (conv c))))))) w
  = match bind pb (fun c => bind (f c) (fun c => bind (g c) h))
          return result unit * World with
    | Raise e => (Raise e, w)
    | Ok canvas =>
        match bind (fst (part canvas w0)) (fun c => bind (v c) (fun c => Ok (conv c)))
              return result unit * World with
        | Ok final => tail final (after w)
        | Raise e => (Raise e, after w)
        end
    end.
Proof.
  intros Hp. rewrite io_bind_pure_match.
  destruct pb as [c1|e]; cbn [bind]; [|reflexivity].
  rewrite io_bind_pure_match.
  destruct (f c1) as [c2|e]; cbn [bind]; [|reflexivity].
  rewrite io_bind_pure_match.
  destruct (g c2) as [c3|e]; cbn [bind]; [|reflexivity].
  rewrite io_bind_pure_match.
  destruct (h c3) as [c4|e]; [|reflexivity].
  unfold io_bind at 1. rewrite (Hp c4 w).
  destruct (fst (part c4 w0)) as [c5|e]; cbn [bind]; [|reflexivity].
  rewrite io_bind_pure_match.
  destruct (v c5) as [c6|e]; reflexivity.
Qed.

Lemma render_cases P d w :
  render P d w
  = match before_particles P return result unit * World with
    | Raise e => (Raise e, w)
    | Ok canvas =>
        match from_particles P canvas return result unit * World with
        | Ok final => write_out d final (after_particles P w)
        | Raise e => (Raise e, after_particles P w)
        end
    end.
Proof.
  unfold render, before_particles, from_particles, write_out. cbv zeta.
  exact (pipeline_cases paint_background (add_highlights P) (add_grid P) (add_panels P)
           (add_vignette P) (add_particles P) (after_particles P) (bare (MT.seed 0))
           (convert RGB)
           (fun final => io_bind (mkdir_parents (parent d)) (fun _ => save final d)) w
           (fun c w => add_particles_any_world P c w (bare (MT.seed 0)))).
Qed.

Lemma write_out_ok d final w :
  writable w d ->
  write_out d final w
  = (Ok tt, mkWorld (rng w) (rng_journal w) (cwd w) (cli_output w) (can_mkdir w)
              (can_save w) ((d, final) :: files w) (stdout w)).
Proof.
  intros [Hm Hs]. unfold write_out, io_bind, mkdir_parents, save.
  rewrite Hm, Hs. reflexivity.
Qed.

Lemma convert_rgb_artifact c : canvas_shape c -> opaque c -> rgb_artifact (convert RGB c).
Proof.
  intros (Hm & Hw & Hh) Ho. unfold rgb_artifact, convert.
  cbn [im_mode im_width im_height im_data].
  repeat split; auto. intros x y Hx Hy.
  destruct (Ho x y) as (r & g & b & E); [rewrite Hw; exact Hx | rewrite Hh; exact Hy|].
  rewrite E, Hm. cbn [convert_pixel]. eauto.
Qed.

Lemma before_particles_ok P :
  pow_contract P ->
  exists c, before_particles P = Ok c /\ canvas_shape c /\ opaque c.
Proof.
  intros HP. unfold before_particles.
  destruct paint_background_canvas as (c1 & E1 & S1 & O1).
  destruct (add_highlights_canvas P c1 HP S1 O1) as (c2 & E2 & S2 & O2).
  destruct (add_grid_canvas P c2 S2 O2) as (c3 & E3 & S3 & O3).
  destruct (add_panels_canvas P c3 S3 O3) as (c4 & E4 & S4 & O4).
  rewrite (bind_eq _ _ _ E1), (bind_eq _ _ _ E2), (bind_eq _ _ _ E3).
  exists c4. auto.
Qed.

Lemma from_particles_ok P c :
  canvas_shape c -> opaque c ->
  exists final, from_particles P c = Ok final /\ rgb_artifact final.
Proof.
  intros S O. unfold from_particles.
  destruct (add_particles_canvas P c (bare (MT.seed 0)) S O) as (c5 & E5 & S5 & O5).
  destruct (add_vignette_canvas P c5 S5 O5) as (c6 & E6 & S6 & O6).
  assert (E5' : fst (add_particles P c (bare (MT.seed 0))) = Ok c5)
    by (rewrite E5; reflexivity).
  rewrite (bind_eq _ _ _ E5'), (bind_eq _ _ _ E6).
  exists (convert RGB c6). split; [reflexivity|].
  apply convert_rgb_artifact; assumption.
Qed.

Lemma rendered_ok P :
  pow_contract P -> exists final, rendered P = Ok final /\ rgb_artifact final.
Proof.
  intros HP. destruct (before_particles_ok P HP) as (c & E & S & O).
  destruct (from_particles_ok P c S O) as (final & Ef & A).
  exists final. split; [|exact A].
  rewrite rendered_split, (bind_eq _ _ _ E). exact Ef.
Qed.

Lemma render_rendered P d w final :
  rendered P = Ok final ->
  render P d w = write_out d final (after_particles P w).
Proof.
  rewrite rendered_split, render_cases. intros E.
  destruct (before_particles P) as [c|e].
  - rewrite bind_Ok in E. rewrite E. reflexivity.
  - rewrite bind_Raise in E. discriminate E.
Qed.

Lemma render_failed P d w e :
  rendered P = Raise e ->
  fst (render P d w) = Raise e /\
  files (snd (render P d w)) = files w /\ stdout (snd (render P d w)) = stdout w.
Proof.
  rewrite rendered_split, render_cases. intros E.
  destruct (before_particles P) as [c|e'].
  - rewrite bind_Ok in E. rewrite E. repeat split; reflexivity.
  - rewrite bind_Raise in E. inversion E; subst. repeat split; reflexivity.
Qed.

Lemma graft_set_rng_journal s ev w wb :
  rng_journal (graft (set_rng s ev w) wb) = rng_journal w ++ ev :: rng_journal wb.
Proof. unfold graft, set_rng. cbn. rewrite <- app_assoc. reflexivity. Qed.

Lemma after_particles_journal P w :
  rng_journal (after_particles P w)
  = rng_journal w ++ EvSeed 42 :: rng_journal (snd (particle_run P)).
Proof. unfold after_particles. apply graft_set_rng_journal. Qed.

Lemma add_particles_snd P canvas w :
  snd (add_particles P canvas w) = after_particles P w.
Proof.
  rewrite add_particles_unfold. destruct (fst (particle_run P)); reflexivity.
Qed.

(** ** [render] when it succeeds *)

Lemma write_out_world d final w :
  writable w d ->
  exists w1,
    write_out d final w = (Ok tt, w1) /\
    cwd w1 = cwd w /\ files w1 = (d, final) :: files w /\ stdout w1 = stdout w /\
    rng_journal w1 = rng_journal w.
Proof.
  intros Hw. eexists. split; [apply write_out_ok; exact Hw|].
  repeat split; reflexivity.
Qed.

Lemma write_out_fst d final w :
  fst (write_out d final w)
  = if can_mkdir w (parent d) && can_save w d then Ok tt else Raise OSError.
Proof.
  unfold write_out, io_bind, mkdir_parents, save.
  destruct (can_mkdir w (parent d)); [|reflexivity].
  destruct (can_save w d); reflexivity.
Qed.

Lemma write_out_failed d final w :
  can_mkdir w (parent d) && can_save w d = false ->
  write_out d final w = (Raise OSError, w).
Proof.
  unfold write_out, io_bind, mkdir_parents, save.
  destruct (can_mkdir w (parent d)); [|reflexivity].
  destruct (can_save w d); [discriminate | reflexivity].
Qed.

Lemma fst_of_pair {A B} (a : A) (b : B) : fst (a, b) = a.
Proof. reflexivity. Qed.

Lemma snd_of_pair {A B} (a : A) (b : B) : snd (a, b) = b.
Proof. reflexivity. Qed.

Lemma render_writes P d w final :
  rendered P = Ok final -> writable w d ->
  exists w1,
    render P d w = (Ok tt, w1) /\
    cwd w1 = cwd w /\ files w1 = (d, final) :: files w /\ stdout w1 = stdout w /\
    rng_journal w1 = rng_journal (after_particles P w).
Proof.
  intros E [Hm Hs].
  destruct (after_particles_fields P w) as (Ec & _ & Em & Es & Ef & Eo).
  assert (Hw : writable (after_particles P w) d).
  { unfold writable. rewrite Em, Es. auto. }
  destruct (write_out_world d final (after_particles P w) Hw)
    as (w1 & Ew & Wc & Wf & Wo & Wj).
  exists w1.
  split; [rewrite (render_rendered P d w final E); exact Ew|].
  split; [rewrite Wc; exact Ec|].
  split; [rewrite Wf, Ef; reflexivity|].
  split; [rewrite Wo; exact Eo | exact Wj].
Qed.

Lemma render_ok P d w :
  pow_contract P -> writable w d ->
  exists final w1,
    rendered P = Ok final /\ rgb_artifact final /\
    render P d w = (Ok tt, w1) /\
    cwd w1 = cwd w /\ files w1 = (d, final) :: files w /\ stdout w1 = stdout w /\
    rng_journal w1 = rng_journal (after_particles P w).
Proof.
  intros HP Hw. destruct (rendered_ok P HP) as (final & E & A).
  destruct (render_writes P d w final E Hw) as (w1 & H).
  exists final, w1. split; [exact E|]. split; [exact A | exact H].
Qed.

(** ** [main] *)

Lemma io_bind_parse_args {B} (k : Path -> IO B) w :
  io_bind parse_args k w = k (output_of w) w.
Proof. reflexivity. Qed.

Lemma main_tail (r : IO unit) (output : Path) (w w1 : World) :
  r w = (Ok tt, w1) ->
  io_bind r (fun _ =>
    io_bind (if absolute output
             then io_bind get_cwd (fun here => pure (relative_to output here))
             else ret output)
            (fun shown => print ("[hero-render] wrote " ++ path_str shown)%string)) w
  = match shown_path output w1 return result unit * World with
    | Ok shown => print (report shown) w1
    | Raise e => (Raise e, w1)
    end.
Proof.
  intros E. unfold io_bind at 1. rewrite E. unfold shown_path.
  destruct (absolute output).
  - unfold io_bind, get_cwd, pure. destruct (relative_to output (cwd w1)); reflexivity.
  - reflexivity.
Qed.


Lemma main_after_render P w w1 :
  render P (output_of w) w = (Ok tt, w1) ->
  main P w
  = match shown_path (output_of w) w1 return result unit * World with
    | Ok shown => print (report shown) w1
    | Raise e => (Raise e, w1)
    end.
Proof.
  intros E. unfold main. rewrite io_bind_parse_args.
  apply (main_tail (render P (output_of w)) (output_of w) w w1 E).
Qed.

Lemma main_outcome P w :
  pow_contract P -> writable w (output_of w) ->
  exists final w1,
    rendered P = Ok final /\ rgb_artifact final /\
    cwd w1 = cwd w /\ files w1 = (output_of w, final) :: files w /\
    stdout w1 = stdout w /\
    main P w
    = match shown_path (output_of w) w return result unit * World with
      | Ok shown => print (report shown) w1
      | Raise e => (Raise e, w1)
      end.
Proof.
  intros HP Hw.
  destruct (render_ok P (output_of w) w HP Hw) as (final & w1 & E & A & Er & Ec & Ef & Eo & _).
  exists final, w1.
  split; [exact E|]. split; [exact A|]. split; [exact Ec|].
  split; [exact Ef|]. split; [exact Eo|].
  rewrite (main_after_render P w w1 Er). unfold shown_path. rewrite Ec. reflexivity.
Qed.

(** C9, where the code departs from the claim: when the run is given an
    absolute [--output] that does not lie under the working directory, the
    image is rendered and written, then [relative_to] raises [ValueError]:
    nothing is printed and the exit status is [1]. *)
Theorem main_fails_after_write_outside_cwd (P : Platform) (w : World) (d : Path) :
  pow_contract P -> cli_output w = Some d -> writable w d ->
  absolute d = true -> relative_to d (cwd w) = Raise ValueError ->
  exists final w',
    run P w = (1, w') /\
    rgb_artifact final /\ files w' = (d, final) :: files w /\
    stdout w' = stdout w.
Proof.
  intros HP Ho Hw Ha Hr.
  assert (Eo : output_of w = d) by (unfold output_of; rewrite Ho; reflexivity).
  rewrite <- Eo in Hw, Ha, Hr.
  destruct (main_outcome P w HP Hw) as (final & w1 & _ & A & _ & Ef & Es & Em).
  exists final, w1. unfold run. rewrite Em. unfold shown_path. rewrite Ha, Hr.
  rewrite <- Eo. auto.
Qed.

Lemma main_fails_after_write_outside_cwd_witness :
  exists final w',
    run reference_platform (example_world (Some tmp_hero)) = (1, w') /\
    files w' = [(tmp_hero, final)] /\ stdout w' = [].
Proof.
  destruct (main_fails_after_write_outside_cwd reference_platform
              (example_world (Some tmp_hero)) tmp_hero reference_pow_contract)
    as (final & w' & E & _ & F & S); try reflexivity.
  - split; reflexivity.
  - exists final, w'. auto.
Defined.

(** C1: the image [render] computes does not depend on the destination or
    on the state of the process it starts from (the generator is seeded
    anew): every run fails with the same exception or writes the same image
    [rendered P]; the particle stage always leaves the same journal of
    draws behind it; and under the contract on [pow] there is such an
    image. *)
Theorem render_deterministic (P : Platform) :
  (forall d w,
     fst (render P d w)
     = bind (rendered P)
         (fun _ => if can_mkdir w (parent d) && can_save w d
                   then Ok tt else Raise OSError)) /\
  (forall d w final,
     rendered P = Ok final -> writable w d ->
     files (snd (render P d w)) = (d, final) :: files w /\
     rng_journal (snd (render P d w))
     = rng_journal w ++ EvSeed 42 :: flat_map particle_events (particle_stream P)) /\
  (forall canvas w1 w2,
     fst (add_particles P canvas w1) = fst (add_particles P canvas w2)) /\
  (pow_contract P -> exists final, rendered P = Ok final).
Proof.
  split; [|split; [|split]].
  - intros d w. destruct (rendered P) as [final|e] eqn:E.
    + rewrite (render_rendered P d w final E). rewrite bind_Ok.
      destruct (after_particles_fields P w) as (_ & _ & Em & Es & _).
      rewrite write_out_fst, Em, Es. reflexivity.
    + destruct (render_failed P d w e E) as (H & _). rewrite H. reflexivity.
  - intros d w final E Hw.
    destruct (render_writes P d w final E Hw) as (w1 & Er & _ & Ef & _ & Ej).
    destruct (particle_run_ok P) as (_ & _ & _ & Es & _).
    rewrite Er, snd_of_pair, Ef, Ej, after_particles_journal, Es.
    split; reflexivity.
  - intros canvas w1 w2.
    rewrite (add_particles_any_world P canvas w1 w2). exact (fst_of_pair _ _).
  - intros HP. destruct (rendered_ok P HP) as (final & E & _). eauto.
Qed.

(** C4: under the contract on [pow], the background stage returns, and
    every other stage maps, a 1440x960 ["RGBA"] canvas whose pixels all have
    full alpha to another such canvas; and for every destination that can
    be written, [render] writes there an ["RGB"] image of 1440x960 pixels
    with three samples each. *)
Theorem stages_keep_canvas (P : Platform) :
  pow_contract P ->
  (exists c, paint_background = Ok c /\ canvas_shape c /\ opaque c) /\
  (forall canvas, canvas_shape canvas -> opaque canvas ->
     (exists c, add_highlights P canvas = Ok c /\ canvas_shape c /\ opaque c) /\
     (exists c, add_grid P canvas = Ok c /\ canvas_shape c /\ opaque c) /\
     (exists c, add_panels P canvas = Ok c /\ canvas_shape c /\ opaque c) /\
     (forall w, exists c,
        fst (add_particles P canvas w) = Ok c /\ canvas_shape c /\ opaque c) /\
     (exists c, add_vignette P canvas = Ok c /\ canvas_shape c /\ opaque c)) /\
  (forall d w, writable w d ->
     exists final,
       fst (render P d w) = Ok tt /\
       files (snd (render P d w)) = (d, final) :: files w /\
       rgb_artifact final).
Proof.
  intros HP. split; [exact paint_background_canvas|]. split.
  - intros canvas Hs Ho.
    split; [apply add_highlights_canvas; assumption|].
    split; [apply add_grid_canvas; assumption|].
    split; [apply add_panels_canvas; assumption|].
    split; [|apply add_vignette_canvas; assumption].
    intros w. destruct (add_particles_canvas P canvas w Hs Ho) as (c & E & S & O).
    exists c. rewrite E. auto.
  - intros d w Hw.
    destruct (render_ok P d w HP Hw) as (final & w1 & _ & A & Er & _ & Ef & _).
    exists final. rewrite Er, fst_of_pair, snd_of_pair.
    split; [reflexivity|]. split; [exact Ef | exact A].
Qed.

Lemma stages_keep_canvas_witness :
  exists final,
    files (snd (render reference_platform default_output (example_world None)))
    = [(default_output, final)] /\ rgb_artifact final.
Proof.
  destruct (stages_keep_canvas reference_platform reference_pow_contract)
    as (_ & _ & H).
  destruct (H default_output (example_world None)) as (final & _ & F & A).
  - split; reflexivity.
  - exists final. auto.
Defined.

(** C5: whatever the canvas and the state of the process, the particle
    stage makes these calls into [random], in this order and no others:
    [seed(42)] once, then for each of 140 particles [randint(0, WIDTH)],
    [randint(0, HEIGHT)], [randint(2, 5)], [randint(90, 160)] and a [choice]
    among 3 options, each returning a value of its range; and on a canvas
    of the pipeline's format the stage returns. *)
Theorem particle_draws_in_order (P : Platform) (canvas : Image) (w : World) :
  exists ps : list draw,
    List.length ps = 140%nat /\
    forallb in_ranges ps = true /\
    rng_journal (snd (add_particles P canvas w))
    = rng_journal w ++ EvSeed 42 :: flat_map particle_events ps /\
    List.length particle_options = 3%nat /\
    (canvas_shape canvas -> exists im, fst (add_particles P canvas w) = Ok im).
Proof.
  destruct (particle_run_ok P) as (layer & E & S & Ej & El & Er).
  exists (particle_stream P).
  split; [exact El|]. split; [exact Er|]. split; [|split; [reflexivity|]].
  - rewrite add_particles_snd, after_particles_journal, Ej. reflexivity.
  - intros Hs. destruct (add_particles_eq P) as (layer' & _ & S' & Eq).
    rewrite Eq. cbn [fst].
    apply alpha_composite_total; [exact Hs|].
    destruct S' as (Sm & Sw & Sh). unfold canvas_shape, gaussian_blur.
    cbn [im_mode im_width im_height]. auto.
Qed.

(** * Further properties of the code *)

(** ** [lerp_color] *)

Lemma lerp_value_between a b v :
  channel a -> channel b -> 0 <= v <= 2 ^ 1074 ->
  Z.min a b <= lerp_value a b v <= Z.max a b.
Proof.
  intros Ha Hb Hv.
  destruct (Z.le_ge_cases a b) as [Hab|Hab].
  - pose proof (lerp_value_mono a b 0 v Hab (proj1 Hv)) as L.
    pose proof (lerp_value_mono a b v (2 ^ 1074) Hab (proj2 Hv)) as U.
    rewrite lerp_value_0 in L by exact Ha.
    rewrite lerp_value_1 in U by assumption. lia.
  - pose proof (lerp_value_anti a b 0 v Hab (proj1 Hv)) as L.
    pose proof (lerp_value_anti a b v (2 ^ 1074) Hab (proj2 Hv)) as U.
    rewrite lerp_value_0 in L by exact Ha.
    rewrite lerp_value_1 in U by assumption. lia.
Qed.

Lemma byte_channel v : byte v -> channel v.
Proof.
  unfold byte, channel. intros H.
  assert (256 < 2 ^ 52) by (vm_compute; reflexivity). lia.
Qed.

Lemma Forall_byte_channel c : Forall byte c -> Forall channel c.
Proof. intros H. eapply Forall_impl; [|exact H]. apply byte_channel. Qed.

Lemma Forall_zip_map (f : Z * Z -> Z) (Q : Z -> Prop) a b :
  (forall x y, In x a -> In y b -> Q (f (x, y))) ->
  Forall Q (map f (zip a b)).
Proof.
  revert b. induction a as [|x a IH]; intros [|y b] H; cbn [zip map]; try constructor.
  - apply H; left; reflexivity.
  - apply IH. intros x' y' Hx Hy. apply H; right; assumption.
Qed.

(** X1: every channel of an interpolated colour lies between the channels of
    the two endpoints, so colours of bytes interpolate to colours of
    bytes. *)
Theorem lerp_color_stays_between (a b : color) (t : F64.float) :
  List.length a = List.length b ->
  Forall channel a -> Forall channel b -> in_unit t = true ->
  exists c,
    lerp_color a b (Flt t) = Ok c /\
    (forall i, (i < List.length a)%nat ->
       Z.min (nth i a 0) (nth i b 0) <= nth i c 0 <= Z.max (nth i a 0) (nth i b 0)) /\
    (Forall byte a -> Forall byte b -> Forall byte c).
Proof.
  intros Hl Ha Hb Ht. destruct (in_unit_V t Ht) as [Wt Vt].
  eexists. split; [apply lerp_color_value; assumption|]. split.
  - intros i Hi. rewrite (nth_zip_map _ a b i 0 0 0) by assumption. cbn [fst snd].
    apply lerp_value_between; [apply Forall_nth_channel; assumption ..| exact Vt].
  - intros Ba Bb. apply Forall_zip_map. intros x y Hx Hy. cbn [fst snd].
    rewrite Forall_forall in Ba, Bb.
    pose proof (Ba x Hx) as Bx. pose proof (Bb y Hy) as By.
    pose proof (lerp_value_between x y (V t) (byte_channel x Bx) (byte_channel y By) Vt).
    unfold byte in *. lia.
Qed.

Lemma lerp_color_stays_between_witness :
  exists c,
    lerp_color (PALETTE overlay_start) (PALETTE overlay_end) (Flt (F64.dec 1 3)) = Ok c /\
    Forall byte c.
Proof.
  destruct (lerp_color_stays_between
              (PALETTE overlay_start) (PALETTE overlay_end) (F64.dec 1 3))
    as (c & E & _ & B).
  - reflexivity.
  - repeat constructor; unfold channel; cbn; lia.
  - repeat constructor; unfold channel; cbn; lia.
  - vm_compute. reflexivity.
  - exists c. split; [exact E|].
    apply B; repeat constructor; unfold byte; cbn; lia.
Defined.

(** X2: with an [int] for [t] nothing is rounded and nothing can fail:
    the channels are the integers [a_i + (b_i - a_i) * t], for every [t]
    (the function does not clamp [t] to [[0, 1]]: at [t = 2] it returns
    [2 * b_i - a_i]) and for colours of any two lengths. *)
Theorem lerp_color_integer_t (a b : color) (k : Z) :
  lerp_color a b (Int k)
  = Ok (map (fun ab => fst ab + (snd ab - fst ab) * k) (zip a b)) /\
  lerp_color a b (Int 2) = Ok (map (fun ab => 2 * snd ab - fst ab) (zip a b)).
Proof.
  assert (E : forall k, lerp_color a b (Int k)
                        = Ok (map (fun ab => fst ab + (snd ab - fst ab) * k) (zip a b))).
  { intros k'. unfold lerp_color. revert b.
    induction a as [|x a IH]; intros [|y b]; try reflexivity.
    cbn [zip mapM map fst snd]. rewrite lerp_channel_int. cbn [bind].
    rewrite IH. reflexivity. }
  split; [apply E|]. rewrite E. f_equal.
  apply map_ext. intros [x y]. cbn [fst snd]. lia.
Qed.

(** ** [paint_background] *)

Lemma alpha_over_byte a base over :
  byte a -> byte base -> byte over -> byte (alpha_over a base over).
Proof.
  unfold byte, alpha_over. intros Ha Hb Ho.
  assert (L : 0 <= over * a + base * (255 - a)) by nia.
  assert (U : over * a + base * (255 - a) <= 65025) by nia.
  split.
  - apply Z.div_pos; lia.
  - assert (H : (2 * (over * a + base * (255 - a)) + 255) / 510 < 256)
      by (apply Z.div_lt_upper_bound; lia).
    lia.
Qed.

Lemma alpha_over_zero base over : byte base -> alpha_over 0 base over = base.
Proof.
  unfold byte, alpha_over. intros Hb.
  rewrite Z.mul_0_r, Z.add_0_l, Z.sub_0_r.
  symmetry. apply Z.div_unique with (r := 255); lia.
Qed.

(** The image [paint_background] returns, pixel by pixel. *)
Lemma background_image :
  exists im,
    paint_background = Ok im /\ canvas_shape im /\
    forall x y, 0 <= x < WIDTH -> 0 <= y < HEIGHT ->
      exists r g b r' g' b' a,
        row_color y = Ok [r; g; b] /\
        column_color x = Ok [r'; g'; b'] /\
        column_alpha x = Ok a /\
        a = 180 * Z.min x (WIDTH - 1 - x) / (WIDTH - 1) /\
        (byte r /\ byte g /\ byte b) /\ (byte r' /\ byte g' /\ byte b') /\ byte a /\
        im_data im x y
        = [alpha_over a r r'; alpha_over a g g'; alpha_over a b b'; 255].
Proof.
  destruct base_rows as (base & Eb & Sb & Db).
  destruct (overlay_columns (mkImage RGBA WIDTH HEIGHT (fun _ _ => [0; 0; 0; 0])))
    as (overlay & Eo & So & Do); try reflexivity.
  destruct Sb as (Sbm & Sbw & Sbh). destruct So as (Som & Sow & Soh).
  cbn [Image_new_black im_mode im_width im_height] in Sbm, Sbw, Sbh, Som, Sow, Soh.
  eexists. split; [|split].
  - rewrite (paint_background_eq base overlay Eb Eo).
    apply alpha_composite_ok; cbn [convert im_mode im_width im_height]; congruence.
  - unfold canvas_shape. cbn [im_mode im_width im_height]. auto.
  - intros x y Hx Hy.
    destruct (row_color_ok y Hy) as (r & g & b & Er & Ir & Br & Bg & Bb).
    destruct (column_ok x Hx)
      as (r' & g' & b' & a & Ec & Ea & Eq & Iq & Ha & Br' & Bg' & Bb' & Ba).
    exists r, g, b, r', g', b', a.
    split; [exact Er|]. split; [exact Ec|]. split; [exact Ea|]. split; [exact Ha|].
    split; [auto|]. split; [auto|]. split; [exact Ba|].
    cbn [im_data convert im_mode]. rewrite (Db x y Hx Hy), (Do x y Hx Hy), Sbm.
    unfold line_pixel. rewrite Er, Ir, Eq, Iq. cbn [convert_pixel].
    apply composite_opaque; assumption.
Qed.

(** X3: the overlay vanishes on the eight columns at either edge (its alpha
    truncates to [0] there): in those columns the background keeps the
    colour of the row, unchanged; and the alpha is the same at [x] and at
    the mirrored column [WIDTH - 1 - x]. *)
Theorem background_edges_and_mirror :
  exists im,
    paint_background = Ok im /\
    (forall x y, 0 <= x < WIDTH -> 0 <= y < HEIGHT -> x <= 7 \/ WIDTH - 8 <= x ->
       exists r g b,
         row_color y = Ok [r; g; b] /\ im_data im x y = [r; g; b; 255]) /\
    (forall x, 0 <= x < WIDTH ->
       column_alpha x = column_alpha (WIDTH - 1 - x) /\
       (column_alpha x = Ok 0 <-> x <= 7 \/ WIDTH - 8 <= x)).
Proof.
  destruct background_image as (im & E & _ & D).
  assert (Z0 : forall x, 0 <= x < WIDTH ->
                 (180 * Z.min x (WIDTH - 1 - x) / (WIDTH - 1) = 0
                  <-> x <= 7 \/ WIDTH - 8 <= x)).
  { intros x Hx. unfold WIDTH in *. rewrite Z.div_small_iff by lia. lia. }
  exists im. split; [exact E|]. split.
  - intros x y Hx Hy He.
    destruct (D x y Hx Hy)
      as (r & g & b & r1 & g1 & b1 & a & Er & _ & _ & Ha & (Br & Bg & Bb) & _ & _ & E1).
    assert (A : a = 0) by (rewrite Ha; apply Z0; assumption).
    rewrite A, !alpha_over_zero in E1 by assumption.
    exists r, g, b. auto.
  - intros x Hx.
    destruct (column_ok x Hx) as (_ & _ & _ & a & _ & Ea & _ & _ & Ha & _).
    destruct (column_ok (WIDTH - 1 - x) ltac:(unfold WIDTH in *; lia))
      as (_ & _ & _ & a' & _ & Ea' & _ & _ & Ha' & _).
    assert (Eq : a' = a).
    { rewrite Ha, Ha'. f_equal. f_equal. unfold WIDTH in *. lia. }
    split; [rewrite Ea, Ea', Eq; reflexivity|].
    rewrite Ea, <- (Z0 x Hx), <- Ha. split.
    + intros H0. inversion H0. reflexivity.
    + intros ->. reflexivity.
Qed.

(** X4: every sample of the background is a byte and its alpha is full. *)
Theorem background_samples_are_bytes :
  exists im,
    paint_background = Ok im /\
    forall x y, 0 <= x < WIDTH -> 0 <= y < HEIGHT ->
      Forall byte (im_data im x y) /\ nth 3 (im_data im x y) 0 = 255 /\
      List.length (im_data im x y) = 4%nat.
Proof.
  destruct background_image as (im & E & _ & D).
  exists im. split; [exact E|]. intros x y Hx Hy.
  destruct (D x y Hx Hy)
    as (r & g & b & r' & g' & b' & a & _ & _ & _ & _ & (Br & Bg & Bb)
        & (Br' & Bg' & Bb') & Ba & Ed).
  rewrite Ed. split; [|split; reflexivity].
  assert (B255 : byte 255) by (unfold byte; lia).
  repeat (apply Forall_cons; [first [exact B255 | apply alpha_over_byte; assumption]|]).
  apply Forall_nil.
Qed.

(** ** [add_grid] *)

Lemma painted_one_ink {K} P w h (shape_of : K -> shape) (p : pixel) keys under x y :
  painted P w h shape_of (fun _ => p) keys under x y
  = if existsb (fun k => raster_fill P w h (shape_of k) x y) keys then p else under.
Proof.
  unfold painted.
  assert (E : forall l,
             existsb (fun k => raster_fill P w h (shape_of k) x y) l
             = match find (fun k => raster_fill P w h (shape_of k) x y) l with
               | Some _ => true
               | None => false
               end).
  { induction l as [|k l IH]; cbn [existsb find]; [reflexivity|].
    destruct (raster_fill P w h (shape_of k) x y); [reflexivity | exact IH]. }
  assert (R : existsb (fun k => raster_fill P w h (shape_of k) x y) keys
              = existsb (fun k => raster_fill P w h (shape_of k) x y) (rev keys)).
  { apply eq_true_iff_eq. rewrite !existsb_exists.
    split; intros (k & Hk & Hr); exists k; (split; [|exact Hr]).
    - apply in_rev in Hk. exact Hk.
    - apply in_rev. exact Hk. }
  rewrite R, E. destruct (find _ (rev keys)); reflexivity.
Qed.

Lemma grid_lines_drawn P (line_of : Z -> shape) (body : Z -> Image -> result Image)
      keys grid :
  im_mode grid = RGBA ->
  (forall k im, body k im = draw_line P im
                              match line_of k with
                              | Line xy _ _ => xy
                              | _ => []
                              end [255; 255; 255; 28] 1 false) ->
  (forall k, exists xy, line_of k = Line xy 1 false) ->
  exists grid',
    for_each keys body grid = Ok grid' /\ same_shape grid' grid /\
    forall x y,
      im_data grid' x y
      = if existsb (fun k => raster_fill P (im_width grid) (im_height grid)
                               (line_of k) x y) keys
        then [255; 255; 255; 28] else im_data grid x y.
Proof.
  intros Hm Hb Hl.
  destruct (for_each_fills P line_of (fun _ => [255; 255; 255; 28])
              (fun _ => [255; 255; 255; 28]) body keys grid) as (g & E & S & D).
  - intros k im' _ _. split; [|rewrite Hm; reflexivity].
    rewrite Hb. destruct (Hl k) as (xy & ->). reflexivity.
  - exists g. split; [exact E|]. split; [exact S|].
    intros x y. rewrite D. apply painted_one_ink.
Qed.

(** X6: the grid stage draws twelve vertical lines, at [x = 0, 120, ..., 1320],
    then eight horizontal ones, at [y = 0, 120, ..., 840], each one pixel
    wide and from edge to edge, in white at alpha 28 on a transparent
    layer; the layer is blurred with radius [1.2] and composited over the
    canvas.  The stage cannot fail before the composition. *)
Theorem add_grid_lines (P : Platform) :
  range3 0 WIDTH 120 = [0; 120; 240; 360; 480; 600; 720; 840; 960; 1080; 1200; 1320] /\
  range3 0 HEIGHT 120 = [0; 120; 240; 360; 480; 600; 720; 840] /\
  exists grid,
    canvas_shape grid /\
    (forall x y,
       im_data grid x y = if on_grid P x y then [255; 255; 255; 28] else [0; 0; 0; 0]) /\
    forall canvas,
      add_grid P canvas
      = alpha_composite canvas (gaussian_blur P (Flt (F64.dec 12 10)) grid).
Proof.
  assert (Ex : range3 0 WIDTH 120
               = [0; 120; 240; 360; 480; 600; 720; 840; 960; 1080; 1200; 1320])
    by (vm_compute; reflexivity).
  assert (Ey : range3 0 HEIGHT 120 = [0; 120; 240; 360; 480; 600; 720; 840])
    by (vm_compute; reflexivity).
  split; [exact Ex|]. split; [exact Ey|].
  destruct (grid_lines_drawn P grid_vertical
              (fun x grid =>
                 draw_line P grid [(Int x, Int 0); (Int x, Int HEIGHT)]
                   [255; 255; 255; 28] 1 false)
              (range3 0 WIDTH 120)
              (mkImage RGBA WIDTH HEIGHT (fun _ _ => [0; 0; 0; 0])))
    as (g1 & E1 & S1 & D1);
    [reflexivity | reflexivity | intros k; eexists; reflexivity |].
  destruct S1 as (S1m & S1w & S1h). cbn [im_mode im_width im_height] in S1m, S1w, S1h.
  destruct (grid_lines_drawn P grid_horizontal
              (fun y grid =>
                 draw_line P grid [(Int 0, Int y); (Int WIDTH, Int y)]
                   [255; 255; 255; 28] 1 false)
              (range3 0 HEIGHT 120) g1)
    as (g2 & E2 & S2 & D2);
    [exact S1m | reflexivity | intros k; eexists; reflexivity |].
  destruct S2 as (S2m & S2w & S2h).
  exists g2. split; [|split].
  - unfold canvas_shape. rewrite S2m, S2w, S2h. auto.
  - intros x y. rewrite D2, D1, S1w, S1h. cbn [im_data im_width im_height].
    unfold on_grid. rewrite <- Ex, <- Ey.
    destruct (existsb _ (range3 0 HEIGHT 120));
      destruct (existsb _ (range3 0 WIDTH 120)); reflexivity.
  - intros canvas. unfold add_grid. cbv zeta.
    rewrite (bind_eq (Image_new RGBA WIDTH HEIGHT [0; 0; 0; 0])
               (mkImage RGBA WIDTH HEIGHT (fun _ _ => [0; 0; 0; 0])) _ eq_refl).
    rewrite (bind_eq _ _ _ E1), (bind_eq _ _ _ E2). reflexivity.
Qed.

(** ** The stages that only draw *)



(** ** [add_highlights] when [pow] overflows *)

Lemma ring_1080_drawn P :
  exists mask,
    highlight_ring P 892 364 1080 1080 mask0 = Ok mask.
Proof. eexists. reflexivity. Qed.

Lemma highlight_ring_overflow P h :
  is_inf (libm_pow P (ring_t 1068) two) = true ->
  highlight_ring P 892 364 1080 1068 h = Raise OverflowError.
Proof.
  intros H. destruct (ring_facts 1 ltac:(lia)) as (E & U & N & O & _).
  change (ring_radius 1) with 1068 in E, U, N, O.
  assert (Z : F64.is_zero (ring_t 1068) = false) by (vm_compute; reflexivity).
  unfold highlight_ring. unfold sq at 1. unfold int_of, lift2 at 1.
  rewrite (bind_eq (int_ 255) (Int 255) _ eq_refl).
  rewrite E. destruct U as [Wt _].
  destruct (ring_t 1068) as [s|s| |s m e]; try discriminate Wt; try discriminate Z.
  destruct s; [discriminate N|].
  cbn [bind float_sq]. rewrite O. cbv zeta. rewrite H. reflexivity.
Qed.

(** X5: if the C library's [pow] overflows on the second circle (the first one
    to reach it: for the outermost circle the base is [0.0], which CPython
    squares itself), the highlight stage raises [OverflowError]. *)
Theorem add_highlights_overflow (P : Platform) (canvas : Image) :
  is_inf (libm_pow P (ring_t 1068) two) = true ->
  add_highlights P canvas = Raise OverflowError.
Proof.
  intros H. rewrite add_highlights_eq.
  assert (R : range3 1080 0 (-12) = 1080 :: 1068 :: range3 1056 0 (-12))
    by (vm_compute; reflexivity).
  rewrite R. cbn [for_each].
  destruct (ring_1080_drawn P) as (mask & E).
  rewrite (bind_eq _ _ _ E), (highlight_ring_overflow P mask H). reflexivity.
Qed.

Lemma add_highlights_overflow_witness :
  add_highlights overflow_platform (mkImage RGBA WIDTH HEIGHT (fun _ _ => [0; 0; 0; 255]))
  = Raise OverflowError.
Proof.
  apply (add_highlights_overflow overflow_platform). reflexivity.
Defined.

(** ** [render]: what it leaves alone, and when it writes *)

Lemma write_out_frame d final w0 :
  cwd (snd (write_out d final w0)) = cwd w0 /\
  cli_output (snd (write_out d final w0)) = cli_output w0 /\
  can_mkdir (snd (write_out d final w0)) = can_mkdir w0 /\
  can_save (snd (write_out d final w0)) = can_save w0 /\
  stdout (snd (write_out d final w0)) = stdout w0 /\
  rng (snd (write_out d final w0)) = rng w0 /\
  rng_journal (snd (write_out d final w0)) = rng_journal w0.
Proof.
  unfold write_out, io_bind, mkdir_parents, save.
  destruct (can_mkdir w0 (parent d)); [destruct (can_save w0 d)|];
    repeat split; reflexivity.
Qed.

Lemma render_fields P d w :
  cwd (snd (render P d w)) = cwd w /\
  cli_output (snd (render P d w)) = cli_output w /\
  can_mkdir (snd (render P d w)) = can_mkdir w /\
  can_save (snd (render P d w)) = can_save w /\
  stdout (snd (render P d w)) = stdout w.
Proof.
  destruct (after_particles_fields P w) as (Fc & Fo & Fm & Fs & _ & Fp).
  rewrite render_cases. destruct (before_particles P) as [c|e].
  - destruct (from_particles P c) as [final|e].
    + destruct (write_out_frame d final (after_particles P w))
        as (A & B & C & D & E & _).
      rewrite A, B, C, D, E.
      split; [exact Fc|]. split; [exact Fo|]. split; [exact Fm|].
      split; [exact Fs | exact Fp].
    + rewrite snd_of_pair.
      split; [exact Fc|]. split; [exact Fo|]. split; [exact Fm|].
      split; [exact Fs | exact Fp].
  - rewrite snd_of_pair. repeat split; reflexivity.
Qed.

(** Either the image is written, or [render] raises and writes nothing. *)
Lemma render_outcome P d w :
  (exists final,
     rendered P = Ok final /\ writable w d /\
     fst (render P d w) = Ok tt /\
     files (snd (render P d w)) = (d, final) :: files w) \/
  (exists e,
     fst (render P d w) = Raise e /\ files (snd (render P d w)) = files w /\
     (rendered P = Raise e \/
      e = OSError /\ can_mkdir w (parent d) && can_save w d = false)).
Proof.
  destruct (rendered P) as [final|e] eqn:E.
  - destruct (can_mkdir w (parent d) && can_save w d) eqn:Hw.
    + apply andb_prop in Hw. left. exists final.
      destruct (render_writes P d w final E Hw) as (w1 & Er & _ & Ef & _).
      split; [reflexivity|]. split; [exact Hw|].
      rewrite Er, fst_of_pair, snd_of_pair. split; [reflexivity | exact Ef].
    + right. exists OSError.
      destruct (after_particles_fields P w) as (_ & _ & Fm & Fs & Ff & _).
      rewrite (render_rendered P d w final E).
      rewrite (write_out_failed d final (after_particles P w))
        by (rewrite Fm, Fs; exact Hw).
      rewrite fst_of_pair, snd_of_pair.
      split; [reflexivity|]. split; [exact Ff|]. right. split; reflexivity.
  - right. exists e. destruct (render_failed P d w e E) as (A & B & _).
    split; [exact A|]. split; [exact B|]. left. reflexivity.
Qed.

(** X11: [render] prints nothing and leaves the working directory, the command
    line and the file system's permissions as they are; the only file it
    can add is the destination. *)
Theorem render_frame (P : Platform) (d : Path) (w : World) :
  stdout (snd (render P d w)) = stdout w /\
  cwd (snd (render P d w)) = cwd w /\
  cli_output (snd (render P d w)) = cli_output w /\
  (files (snd (render P d w)) = files w \/
   exists final, files (snd (render P d w)) = (d, final) :: files w).
Proof.
  destruct (render_fields P d w) as (A & B & _ & _ & E).
  split; [exact E|]. split; [exact A|]. split; [exact B|].
  destruct (render_outcome P d w) as [(final & _ & _ & _ & F) | (e & _ & F & _)].
  - right. exists final. exact F.
  - left. exact F.
Qed.

(** X12: whenever [render] raises, whatever the exception and the stage it comes
    from, no file has been written: the artifact is written only after the
    whole pipeline has succeeded. *)
Theorem render_raise_writes_nothing (P : Platform) (d : Path) (w : World) (e : exn) :
  fst (render P d w) = Raise e ->
  files (snd (render P d w)) = files w /\ stdout (snd (render P d w)) = stdout w.
Proof.
  intros H. destruct (render_fields P d w) as (_ & _ & _ & _ & E).
  split; [|exact E].
  destruct (render_outcome P d w) as [(final & _ & _ & R & _) | (e' & _ & F & _)].
  - rewrite R in H. discriminate H.
  - exact F.
Qed.

Lemma render_read_only P d w :
  pow_contract P -> can_mkdir w (parent d) && can_save w d = false ->
  fst (render P d w) = Raise OSError /\
  files (snd (render P d w)) = files w /\
  rng_journal (snd (render P d w))
  = rng_journal w ++ EvSeed 42 :: flat_map particle_events (particle_stream P).
Proof.
  intros HP Hw. destruct (rendered_ok P HP) as (final & E & _).
  destruct (after_particles_fields P w) as (_ & _ & Fm & Fs & Ff & _).
  destruct (particle_run_ok P) as (_ & _ & _ & Ej & _).
  rewrite (render_rendered P d w final E).
  rewrite (write_out_failed d final (after_particles P w))
    by (rewrite Fm, Fs; exact Hw).
  rewrite fst_of_pair, snd_of_pair, after_particles_journal, Ej.
  split; [reflexivity|]. split; [exact Ff | reflexivity].
Qed.

Lemma render_raise_writes_nothing_witness :
  files (snd (render reference_platform tmp_hero (read_only_world None))) = [].
Proof.
  destruct (render_read_only reference_platform tmp_hero (read_only_world None)
              reference_pow_contract eq_refl) as (R & _).
  exact (proj1 (render_raise_writes_nothing reference_platform tmp_hero
                  (read_only_world None) OSError R)).
Defined.



Lemma path_eqb_refl p : path_eqb p p = true.
Proof.
  unfold path_eqb. rewrite Bool.eqb_reflx.
  destruct (list_eq_dec string_dec (parts p) (parts p)); [reflexivity | contradiction].
Qed.

(** X14: rendering twice to the same destination succeeds twice and writes the
    same image twice: the second run replaces the file by an identical
    one. *)
Theorem render_twice_same_file (P : Platform) (d : Path) (w : World) :
  pow_contract P -> writable w d ->
  exists final w1 w2,
    render P d w = (Ok tt, w1) /\ render P d w1 = (Ok tt, w2) /\
    lookup d (files w1) = Some final /\ lookup d (files w2) = Some final /\
    files w2 = (d, final) :: (d, final) :: files w.
Proof.
  intros HP Hw. destruct (rendered_ok P HP) as (final & E & _).
  destruct (render_writes P d w final E Hw) as (w1 & E1 & _ & F1 & _).
  assert (Hw1 : writable w1 d).
  { destruct (render_fields P d w) as (_ & _ & Fm & Fs & _).
    rewrite E1, snd_of_pair in Fm, Fs. unfold writable. rewrite Fm, Fs. exact Hw. }
  destruct (render_writes P d w1 final E Hw1) as (w2 & E2 & _ & F2 & _).
  exists final, w1, w2. split; [exact E1|]. split; [exact E2|].
  rewrite F2, F1. cbn [lookup]. rewrite path_eqb_refl. auto.
Qed.

Lemma render_twice_same_file_witness :
  exists final w1 w2,
    render reference_platform default_output (example_world None) = (Ok tt, w1) /\
    render reference_platform default_output w1 = (Ok tt, w2) /\
    files w2 = [(default_output, final); (default_output, final)].
Proof.
  destruct (render_twice_same_file reference_platform default_output (example_world None)
              reference_pow_contract (conj eq_refl eq_refl))
    as (final & w1 & w2 & E1 & E2 & _ & _ & F).
  exists final, w1, w2. split; [exact E1|]. split; [exact E2 | exact F].
Defined.

(** ** [parse_args] and [main] *)

Lemma print_world line w :
  print line w
  = (Ok tt, mkWorld (rng w) (rng_journal w) (cwd w) (cli_output w)
              (can_mkdir w) (can_save w) (files w) (stdout w ++ [line])).
Proof. reflexivity. Qed.

Lemma run_prints P w shown :
  pow_contract P -> writable w (output_of w) ->
  shown_path (output_of w) w = Ok shown ->
  exists final w',
    run P w = (0, w') /\ rgb_artifact final /\
    files w' = (output_of w, final) :: files w /\
    stdout w' = stdout w ++ [report shown].
Proof.
  intros HP Hw Hs.
  destruct (main_outcome P w HP Hw) as (final & w1 & _ & A & _ & Ef & Eo & Em).
  rewrite Hs, print_world in Em.
  eexists final, _. unfold run. rewrite Em. unfold exit_status.
  split; [reflexivity|]. split; [exact A|].
  cbn [files stdout]. rewrite Ef, Eo. split; reflexivity.
Qed.



(** X16: without [--output] the image goes to
    [src/assets/homepage/hero-base.png] under the working directory, and
    that is the path reported. *)
Theorem main_default_output (P : Platform) (w : World) :
  pow_contract P -> cli_output w = None -> writable w default_output ->
  fst (parse_args w) = Ok default_output /\
  path_str default_output = "src/assets/homepage/hero-base.png"%string /\
  exists final w',
    run P w = (0, w') /\
    files w' = (default_output, final) :: files w /\
    stdout w'
    = stdout w ++ ["[hero-render] wrote src/assets/homepage/hero-base.png"%string].
Proof.
  intros HP Ho Hw.
  assert (Eo : output_of w = default_output) by (unfold output_of; rewrite Ho; reflexivity).
  split; [unfold parse_args; rewrite Ho; reflexivity|]. split; [reflexivity|].
  rewrite <- Eo in Hw.
  destruct (run_prints P w (output_of w) HP Hw) as (final & w' & E & _ & F & S).
  { unfold shown_path. rewrite Eo. reflexivity. }
  exists final, w'. split; [exact E|]. rewrite <- Eo. split; [exact F|].
  rewrite S, Eo. reflexivity.
Qed.

Lemma main_default_output_witness :
  exists w',
    run reference_platform (example_world None) = (0, w') /\
    stdout w' = ["[hero-render] wrote src/assets/homepage/hero-base.png"%string].
Proof.
  destruct (main_default_output reference_platform (example_world None)
              reference_pow_contract eq_refl (conj eq_refl eq_refl))
    as (_ & _ & final & w' & E & _ & S).
  exists w'. split; [exact E | exact S].
Defined.





(** ** [add_particles]: what is drawn *)

Lemma randint_cases a b w :
  (exists v s, random_randint a b w = (Ok v, set_rng s (EvRandint a b v) w)) \/
  (exists e, random_randint a b w = (Raise e, w)).
Proof.
  unfold random_randint. cbv zeta. destruct (0 <? b + 1 - a); [|right; eauto].
  destruct (MT.randbelow randbelow_fuel (b + 1 - a) (rng w)) as [[r s]|];
    [left | right]; eauto.
Qed.

Lemma choice_cases w :
  (exists i s,
     random_choice particle_options w
     = (Ok (nth (Z.to_nat i) particle_options (PALETTE cyan ++ [0])),
        set_rng s (EvChoice 3 i) w)) \/
  (exists e, random_choice particle_options w = (Raise e, w)).
Proof.
  unfold random_choice, particle_options. cbv zeta.
  destruct (MT.randbelow randbelow_fuel _ (rng w)) as [[r s]|]; [left | right]; eauto.
Qed.

Lemma particle_ink (p : draw) :
  ink RGBA (particle_fill p) = Ok (map clip8 (particle_fill p)).
Proof.
  destruct p as [[[[x y] r] alpha] i]. unfold particle_fill, particle_options.
  destruct (Z.to_nat i) as [|[|[|n]]]; cbn [nth]; try reflexivity.
  destruct n; reflexivity.
Qed.

Lemma set_rng_journal s ev w : rng_journal (set_rng s ev w) = rng_journal w ++ [ev].
Proof. reflexivity. Qed.

(** One turn of the loop: five draws, then one ellipse; or an exception. *)
Lemma particle_cases P n layer w :
  im_mode layer = RGBA ->
  (exists p w1,
     particle P n layer w = (Ok (with_particle P layer p), w1) /\
     rng_journal w1 = rng_journal w ++ particle_events p) \/
  (exists e w1, particle P n layer w = (Raise e, w1)).
Proof.
  intros Hm. unfold particle.
  destruct (randint_cases 0 WIDTH w) as [(x & s1 & E1) | (e & E1)];
    [rewrite (io_bind_ok _ _ _ _ _ E1) | rewrite (io_bind_raise _ _ _ _ _ E1); eauto].
  destruct (randint_cases 0 HEIGHT (set_rng s1 (EvRandint 0 WIDTH x) w))
    as [(y & s2 & E2) | (e & E2)];
    [rewrite (io_bind_ok _ _ _ _ _ E2) | rewrite (io_bind_raise _ _ _ _ _ E2); eauto].
  destruct (randint_cases 2 5 (set_rng s2 (EvRandint 0 HEIGHT y)
                                 (set_rng s1 (EvRandint 0 WIDTH x) w)))
    as [(r & s3 & E3) | (e & E3)];
    [rewrite (io_bind_ok _ _ _ _ _ E3) | rewrite (io_bind_raise _ _ _ _ _ E3); eauto].
  destruct (randint_cases 90 160
              (set_rng s3 (EvRandint 2 5 r)
                 (set_rng s2 (EvRandint 0 HEIGHT y)
                    (set_rng s1 (EvRandint 0 WIDTH x) w))))
    as [(alpha & s4 & E4) | (e & E4)];
    [rewrite (io_bind_ok _ _ _ _ _ E4) | rewrite (io_bind_raise _ _ _ _ _ E4); eauto].
  destruct (choice_cases
              (set_rng s4 (EvRandint 90 160 alpha)
                 (set_rng s3 (EvRandint 2 5 r)
                    (set_rng s2 (EvRandint 0 HEIGHT y)
                       (set_rng s1 (EvRandint 0 WIDTH x) w)))))
    as [(i & s5 & E5) | (e & E5)];
    [rewrite (io_bind_ok _ _ _ _ _ E5) | rewrite (io_bind_raise _ _ _ _ _ E5); eauto].
  left. exists (x, y, r, alpha, i). eexists. split.
  - unfold pure, draw_ellipse.
    rewrite (draw_fill_ok P layer _ _ (map clip8 (particle_fill (x, y, r, alpha, i))))
      by (rewrite Hm; exact (particle_ink (x, y, r, alpha, i))).
    reflexivity.
  - rewrite !set_rng_journal, <- !app_assoc. reflexivity.
Qed.

Lemma with_particle_shape P layer p : same_shape (with_particle P layer p) layer.
Proof. unfold same_shape, with_particle. cbn [im_mode im_width im_height]. auto. Qed.

Lemma io_for_each_cons {A S} (x : A) xs (body : A -> S -> IO S) (s : S) w :
  io_for_each (x :: xs) body s w = io_bind (body x s) (fun s' => io_for_each xs body s') w.
Proof. reflexivity. Qed.

(** The whole loop: if it returns, the layer is painted with one ellipse
    per group of five draws of the journal, in their order. *)
Lemma particles_loop P xs :
  forall layer w layer' w',
    im_mode layer = RGBA ->
    io_for_each xs (particle P) layer w = (Ok layer', w') ->
    exists ps,
      List.length ps = List.length xs /\
      rng_journal w' = rng_journal w ++ flat_map particle_events ps /\
      same_shape layer' layer /\
      forall x y,
        im_data layer' x y
        = painted P (im_width layer) (im_height layer) particle_shape
            (fun p => map clip8 (particle_fill p)) ps (im_data layer x y) x y.
Proof.
  induction xs as [|n xs IH]; intros layer w layer' w' Hm E.
  - cbn [io_for_each] in E. unfold ret in E. inversion E; subst.
    exists []. cbn [flat_map]. rewrite app_nil_r.
    split; [reflexivity|]. split; [reflexivity|].
    split; [apply same_shape_refl | reflexivity].
  - rewrite io_for_each_cons in E.
    destruct (particle_cases P n layer w Hm) as [(p & w1 & E1 & J1) | (e & w1 & E1)].
    + rewrite (io_bind_ok _ _ _ _ _ E1) in E.
      destruct (IH (with_particle P layer p) w1 layer' w') as (ps & L & J & S & D);
        [exact Hm | exact E|].
      exists (p :: ps). cbn [List.length flat_map].
      split; [rewrite L; reflexivity|].
      split; [rewrite J, J1, <- app_assoc; reflexivity|].
      split; [eapply same_shape_trans; [exact S | apply with_particle_shape]|].
      intros x y. rewrite D. unfold painted.
      cbn [rev with_particle im_width im_height im_data]. rewrite find_app. cbn [find].
      destruct (find _ (rev ps)); [reflexivity|].
      destruct (raster_fill P _ _ _ x y); reflexivity.
    + rewrite (io_bind_raise _ _ _ _ _ E1) in E. discriminate E.
Qed.

Lemma draws_of_events ps : draws_of (flat_map particle_events ps) = ps.
Proof.
  induction ps as [|[[[[x y] r] alpha] i] ps IH]; [reflexivity|].
  cbn [flat_map particle_events app draws_of event_value]. rewrite IH. reflexivity.
Qed.

Lemma painted_ext {K} P w h (shape_of : K -> shape) (pix pix' : K -> pixel) keys under x y :
  (forall k, In k keys -> pix k = pix' k) ->
  painted P w h shape_of pix keys under x y = painted P w h shape_of pix' keys under x y.
Proof.
  intros H. unfold painted.
  destruct (find _ (rev keys)) as [k|] eqn:E; [|reflexivity].
  apply find_some in E. apply H. apply in_rev. exact (proj1 E).
Qed.

Lemma clip8_byte v : 0 <= v <= 255 -> clip8 v = v.
Proof.
  intros H. unfold clip8.
  destruct (Z.ltb_spec v 0); [lia|]. destruct (Z.ltb_spec 255 v); [lia | reflexivity].
Qed.

Lemma particle_fill_bytes p :
  in_ranges p = true -> map clip8 (particle_fill p) = particle_fill p.
Proof.
  destruct p as [[[[x y] r] alpha] i]. unfold in_ranges.
  rewrite !andb_true_iff, !Z.leb_le, Z.ltb_lt.
  intros (((((((((_ & _) & _) & _) & _) & _) & Ha) & Hb) & Hi) & Hj).
  unfold particle_fill, particle_options.
  assert (C : i = 0 \/ i = 1 \/ i = 2) by lia.
  rewrite map_app. cbn [map]. rewrite (clip8_byte alpha) by lia.
  destruct C as [->|[->| ->]]; reflexivity.
Qed.

(** X8: the particle layer is the transparent layer painted with one ellipse
    per particle: for the draws [(x, y, r, alpha, i)] of the seeded
    generator, in their order, the ellipse [[x - r, y - r, x + r, y + r]]
    filled with the colour of option [i] at the alpha drawn (not the
    option's own alpha [0]); later particles cover earlier ones; the layer
    is then blurred with radius [0.6] and composited over the canvas. *)
Theorem particles_painted (P : Platform) :
  exists layer,
    canvas_shape layer /\
    (forall x y,
       im_data layer x y
       = painted P WIDTH HEIGHT particle_shape particle_fill (particle_stream P)
           [0; 0; 0; 0] x y) /\
    (forall p, In p (particle_stream P) ->
       exists x y r alpha i,
         p = (x, y, r, alpha, i) /\ 90 <= alpha <= 160 /\ 2 <= r <= 5 /\
         particle_shape p = Ellipse [Int (x - r); Int (y - r); Int (x + r); Int (y + r)] /\
         particle_fill p = firstn 3 (nth (Z.to_nat i) particle_options []) ++ [alpha]) /\
    forall canvas w,
      fst (add_particles P canvas w)
      = alpha_composite canvas (gaussian_blur P (Flt (F64.dec 6 10)) layer).
Proof.
  destruct (add_particles_eq P) as (layer & E & S & A).
  destruct (particle_run_ok P) as (_ & _ & _ & _ & _ & R).
  rewrite forallb_forall in R.
  destruct (particles_loop P (range 140) layer0 (bare (MT.seed 42)) layer
              (snd (particle_run P))) as (ps & _ & J & _ & D).
  { reflexivity. }
  { rewrite <- particle_run_unfold. apply pair_eta_eq. exact E. }
  assert (Eps : particle_stream P = ps).
  { unfold particle_stream. rewrite J. apply draws_of_events. }
  exists layer. split; [exact S|]. split; [|split].
  - intros x y. rewrite D, Eps. apply painted_ext.
    intros p Hin. apply particle_fill_bytes. apply R. rewrite Eps. exact Hin.
  - intros p Hin. pose proof (R p Hin) as Hr.
    destruct p as [[[[x y] r] alpha] i]. exists x, y, r, alpha, i.
    unfold in_ranges in Hr. rewrite !andb_true_iff, !Z.leb_le, Z.ltb_lt in Hr.
    destruct Hr as (((((((((_ & _) & _) & _) & Hr1) & Hr2) & Ha) & Hb) & Hi) & Hj).
    split; [reflexivity|]. split; [lia|]. split; [lia|]. split; [reflexivity|].
    unfold particle_fill, particle_options.
    assert (C : i = 0 \/ i = 1 \/ i = 2) by lia.
    destruct C as [->|[->| ->]]; reflexivity.
  - intros canvas w. rewrite A. apply fst_of_pair.
Qed.

Lemma rng_graft w wb : rng (graft w wb) = rng wb.
Proof. reflexivity. Qed.

(** X9: the particle stage reseeds the process-wide generator: the state it
    leaves does not depend on the state before, nor on the canvas; the
    stage touches nothing else of the process. *)
Theorem add_particles_reseeds (P : Platform) (canvas1 canvas2 : Image) (w1 w2 : World) :
  rng (snd (add_particles P canvas1 w1)) = rng (snd (add_particles P canvas2 w2)) /\
  files (snd (add_particles P canvas1 w1)) = files w1 /\
  stdout (snd (add_particles P canvas1 w1)) = stdout w1 /\
  cwd (snd (add_particles P canvas1 w1)) = cwd w1.
Proof.
  rewrite !add_particles_snd. unfold after_particles at 1 2. rewrite !rng_graft.
  destruct (after_particles_fields P w1) as (Fc & _ & _ & _ & Ff & Fo).
  split; [reflexivity|]. split; [exact Ff|]. split; [exact Fo | exact Fc].
Qed.

(** ** [add_vignette] *)

(** X10: the vignette stage composites two layers over the canvas: first
    the colour [(5, 10, 30)] with, for alpha, the blur (radius 180) of a
    mask that is [255] on the rectangle over the whole canvas; then white
    with, for alpha, the blur (radius 120) of a mask that is [220] on the
    focus ellipse around the main panel.  Nothing before the two
    compositions can fail. *)
Theorem add_vignette_layers (P : Platform) (canvas : Image) :
  add_vignette P canvas
  = (result <- alpha_composite canvas
                 (tinted [5; 10; 30] (gaussian_blur P (Int 180) (vignette_mask P))) ;;
     alpha_composite result
       (tinted [255; 255; 255] (gaussian_blur P (Int 120) (focus_mask P)))) /\
  map (fun corner => int_of (Ok corner)) focus_box = [Ok 128; Ok 52; Ok 1139; Ok 890].
Proof.
  split; [|vm_compute; reflexivity].
  unfold add_vignette. cbv zeta.
  bind_is mask0. bind_is (vignette_mask P).
  bind_is (mkImage RGBA WIDTH HEIGHT (fun _ _ => [5; 10; 30; 0])).
  bind_is (tinted [5; 10; 30] (gaussian_blur P (Int 180) (vignette_mask P))).
  bind_is mask0. bind_is focus_box. bind_is (focus_mask P).
  bind_is (mkImage RGBA WIDTH HEIGHT (fun _ _ => [255; 255; 255; 0])).
  bind_is (tinted [255; 255; 255] (gaussian_blur P (Int 120) (focus_mask P))).
  reflexivity.
Qed.
